(** * A point quadtree (quadtree.h): shallow embedding and verification

    The header implements a two-dimensional point quadtree: the rectangle
    predicates [BoundaryContains] and [BoundaryIntersects], the constructor
    [QT_New], and the mutually recursive [QT_Subdivide] / [QT_Insert],
    followed by the range query [QT_Query].

    Modelling choices.
    - Coordinates are C [float]s: IEEE 754 binary32 numbers, with the
      operations of the Standard Library's [SpecFloat] at precision 24 and
      maximal exponent 128 (round to nearest, ties to even).  Every
      subtraction, addition and division of the header is rounded, and a
      comparison with a NaN operand is false.  [fabs] is applied to a
      [float] converted to [double], which changes no value.
    - [int] fields are integers in [[-2^31, 2^31 - 1]].  The integer
      arithmetic of the header is [capacity *= 2], which wraps around, and
      [depth + 1] and [obj_count++], which do not leave the range in a
      tree built from a fresh root (levels stay at most
      [QT_MAX_DEPTH + 1], counts within capacities) and are modelled
      without overflow.
    - A node's [objects] pointer is [None] when it is NULL and [Some l]
      otherwise, where [l] lists the first [obj_count] slots of the array;
      [obj_count] is the length of that list (0 for a NULL buffer, as the
      code maintains it).  Writing past the end of a buffer is not
      modelled: the statements concern nodes with [obj_count <= capacity].
    - The array [branches[4]] is a list: empty while the four slots are
      NULL, [[nw; sw; ne; se]] once [QT_Subdivide] has filled them.
    - [malloc] and [realloc] succeed on every request of a positive number
      of objects, [malloc] also on a request of none; a request of a
      negative number of objects (whose size wraps to a huge [size_t]) and
      a [realloc] to size zero return NULL, on which the code calls
      [exit].  The call then ends in [Exited].  C leaves the result of a
      request of size zero to the implementation; the choice matters only
      for nodes of capacity 0.  The diagnostic [printf] is not modelled.
    - The statements about numbers read a finite float as the rational
      number it stands for ([real]); sums and differences are related to
      exact arithmetic through [nearest], rounding to the nearest number
      of binary32, which [fadd] and [fsub] are proved to compute.
    - The caller's [resultArray] is assumed large enough for what
      [QT_Query] writes; the code does not check it.
    - [QT_Insert] and [QT_Subdivide] call each other; the recursion is
      modelled with fuel, and the entry points supply the fuel the depth
      guard makes sufficient ([NoFuel] never comes out of them). *)

From Stdlib Require Import ZArith QArith Qabs Qround List Bool Permutation Lia Lqa.
From Stdlib Require Import Floats.SpecFloat.
Import ListNotations.

Local Open Scope Z_scope.

(** * The embedding *)

(** ** Machine numbers *)

Definition prec : Z := 24.
Definition emax : Z := 128.

(** The C type [float]. *)
Definition float : Type := spec_float.

Definition fadd : float -> float -> float := SFadd prec emax.
Definition fsub : float -> float -> float := SFsub prec emax.
Definition fdiv : float -> float -> float := SFdiv prec emax.
Definition fabs : float -> float := SFabs.

(** [a <= b], [a >= b] and [a > b]; each is false when an operand is NaN. *)
Definition fle (a b : float) : bool := SFleb a b.
Definition fge (a b : float) : bool := SFleb b a.
Definition fgt (a b : float) : bool := SFltb b a.

(** The literal [2.0f]. *)
Definition two : float := S754_finite false 8388608 (-22).

Definition INT_MAX : Z := 2147483647.

(** The value an [int] takes when a result leaves its range. *)
Definition wrap_int (z : Z) : Z :=
  (z + 2147483648) mod 4294967296 - 2147483648.

(** ** Calls that may end the process *)

(** The result of a call: it returns [a], or the process has called
    [exit(EXIT_FAILURE)], or the fuel of the model ran out. *)
Inductive outcome (A : Type) : Type :=
| Ok (a : A)
| Exited
| NoFuel.
Arguments Ok {A} a.
Arguments Exited {A}.
Arguments NoFuel {A}.

Definition bind {A B : Type} (m : outcome A) (k : A -> outcome B) : outcome B :=
  match m with
  | Ok a => k a
  | Exited => Exited
  | NoFuel => NoFuel
  end.

Notation "x <- m ;; k" := (bind m (fun x => k))
  (at level 61, m at next level, right associativity).

(** ** Geometry *)

(** Modelled from the spec: [Vec2] is declared in linear_algebra.h, which is
    not among the sources.  The spec describes it as a generic 2D point or
    vector exposing [x] and [y] components and componentwise construction;
    the header reads and builds the components as [float]s. *)
Record Vec2 : Type := mkVec2 { x : float; y : float }.

Record Boundary : Type := mkBoundary { pos : Vec2; half_dim : Vec2 }.

Definition BoundaryContains (b : Boundary) (p : Vec2) : bool :=
  (fge (x p) (fsub (x (pos b)) (x (half_dim b))) &&
   fle (x p) (fadd (x (pos b)) (x (half_dim b)))) &&
  (fge (y p) (fsub (y (pos b)) (y (half_dim b))) &&
   fle (y p) (fadd (y (pos b)) (y (half_dim b)))).

Definition BoundaryIntersects (this that : Boundary) : bool :=
  if fgt (fabs (fsub (x (pos this)) (x (pos that))))
         (fadd (x (half_dim this)) (x (half_dim that)))
  then false
  else if fgt (fabs (fsub (y (pos this)) (y (pos that))))
              (fadd (y (half_dim this)) (y (half_dim that)))
  then false
  else true.

(** ** Nodes *)

Definition QT_MAX_DEPTH : Z := 10.

(** [data] is the opaque payload pointer, as an address. *)
Record QT_Object : Type := mkObject { data : Z; obj_pos : Vec2 }.

#[local] Unset Elimination Schemes.
Inductive QuadTree : Type := mkQuadTree {
  boundary : Boundary;
  objects : option (list QT_Object);
  capacity : Z;
  depth : Z;
  branches : list QuadTree
}.
#[local] Set Elimination Schemes.

(** The initialised part of the buffer; nothing when the pointer is NULL. *)
Definition buffer (qt : QuadTree) : list QT_Object :=
  match objects qt with
  | Some l => l
  | None => []
  end.

Definition obj_count (qt : QuadTree) : Z := Z.of_nat (length (buffer qt)).

(** [malloc(capacity * sizeof(QT_Object))] returns NULL, and the code
    exits, when [capacity] is negative. *)
Definition QT_New (b : Boundary) (cap : Z) : outcome QuadTree :=
  if 0 <=? cap then Ok (mkQuadTree b (Some []) cap 1 []) else Exited.

(** [branches[0] == NULL] *)
Definition QT_IsLeaf (qt : QuadTree) : bool :=
  match branches qt with
  | [] => true
  | _ :: _ => false
  end.

Definition has_buffer (qt : QuadTree) : bool :=
  match objects qt with
  | Some _ => true
  | None => false
  end.

(** [qt->obj_count < qt->capacity && qt->objects != NULL] *)
Definition has_room (qt : QuadTree) : bool :=
  (obj_count qt <? capacity qt) && has_buffer qt.

(** ** Insertion and subdivision *)

(** The type of [QT_Insert]: the node after the call and the returned flag. *)
Definition Inserter : Type := QuadTree -> QT_Object -> outcome (QuadTree * bool).

(** [for (i = 0; i < 4; i++) if (QT_Insert(branches[i], obj)) break;]
    The flag tells whether some branch accepted the object. *)
Fixpoint insert_first (ins : Inserter) (bs : list QuadTree) (obj : QT_Object)
  : outcome (list QuadTree * bool) :=
  match bs with
  | [] => Ok ([], false)
  | b :: rest =>
      r <- ins b obj ;;
      if snd r then Ok (fst r :: rest, true)
      else
        r' <- insert_first ins rest obj ;;
        Ok (fst r :: fst r', snd r')
  end.

(** The push-down loop of [QT_Subdivide]: every buffered object is offered
    to the branches; the outcome of the offer is not inspected. *)
Fixpoint push_down (ins : Inserter) (bs : list QuadTree) (objs : list QT_Object)
  : outcome (list QuadTree) :=
  match objs with
  | [] => Ok bs
  | o :: rest =>
      r <- insert_first ins bs o ;;
      push_down ins (fst r) rest
  end.

Definition child_half (b : Boundary) : Vec2 :=
  mkVec2 (fdiv (x (half_dim b)) two) (fdiv (y (half_dim b)) two).

Definition b_northwest (b : Boundary) : Boundary :=
  mkBoundary (mkVec2 (fsub (x (pos b)) (x (child_half b)))
                     (fsub (y (pos b)) (y (child_half b))))
             (child_half b).
Definition b_southwest (b : Boundary) : Boundary :=
  mkBoundary (mkVec2 (fsub (x (pos b)) (x (child_half b)))
                     (fadd (y (pos b)) (y (child_half b))))
             (child_half b).
Definition b_northeast (b : Boundary) : Boundary :=
  mkBoundary (mkVec2 (fadd (x (pos b)) (x (child_half b)))
                     (fsub (y (pos b)) (y (child_half b))))
             (child_half b).
Definition b_southeast (b : Boundary) : Boundary :=
  mkBoundary (mkVec2 (fadd (x (pos b)) (x (child_half b)))
                     (fadd (y (pos b)) (y (child_half b))))
             (child_half b).

Definition quadrants (b : Boundary) : list Boundary :=
  [b_northwest b; b_southwest b; b_northeast b; b_southeast b].

(** [QT_New(b, qt->capacity)] followed by [->depth = qt->depth + 1]. *)
Definition new_branch (qt : QuadTree) (b : Boundary) : outcome QuadTree :=
  c <- QT_New b (capacity qt) ;;
  Ok (mkQuadTree (boundary c) (objects c) (capacity c) (depth qt + 1) (branches c)).

(** The four calls of [QT_New] that open [QT_Subdivide], in slot order. *)
Definition fresh_branches (qt : QuadTree) : outcome (list QuadTree) :=
  nw <- new_branch qt (b_northwest (boundary qt)) ;;
  sw <- new_branch qt (b_southwest (boundary qt)) ;;
  ne <- new_branch qt (b_northeast (boundary qt)) ;;
  se <- new_branch qt (b_southeast (boundary qt)) ;;
  Ok [nw; sw; ne; se].

(** [QT_Subdivide], with the [QT_Insert] it calls on the branches given as
    a parameter. *)
Definition QT_Subdivide_with (ins : Inserter) (qt : QuadTree) : outcome QuadTree :=
  bs0 <- fresh_branches qt ;;
  bs <- push_down ins bs0 (buffer qt) ;;
  Ok (mkQuadTree (boundary qt) None (capacity qt) (depth qt) bs).

(** [qt->objects[qt->obj_count++] = *obj] *)
Definition append_object (qt : QuadTree) (obj : QT_Object) : QuadTree :=
  mkQuadTree (boundary qt) (Some (buffer qt ++ [obj])) (capacity qt) (depth qt)
             (branches qt).

(** [qt->capacity *= 2; qt->objects = realloc(qt->objects, ...)], and
    [exit] when [realloc] returns NULL. *)
Definition grow (qt : QuadTree) : outcome QuadTree :=
  let cap := wrap_int (capacity qt * 2) in
  if 0 <? cap
  then Ok (mkQuadTree (boundary qt) (Some (buffer qt)) cap (depth qt) (branches qt))
  else Exited.

Definition with_branches (qt : QuadTree) (bs : list QuadTree) : QuadTree :=
  mkQuadTree (boundary qt) (objects qt) (capacity qt) (depth qt) bs.

Fixpoint QT_Insert_fuel (n : nat) (qt : QuadTree) (obj : QT_Object)
  : outcome (QuadTree * bool) :=
  if negb (BoundaryContains (boundary qt) (obj_pos obj)) then Ok (qt, false)
  else if has_room qt then Ok (append_object qt obj, true)
  else if QT_IsLeaf qt && (depth qt <=? QT_MAX_DEPTH) then
    match n with
    | O => NoFuel
    | S n' =>
        qt1 <- QT_Subdivide_with (QT_Insert_fuel n') qt ;;
        r <- insert_first (QT_Insert_fuel n') (branches qt1) obj ;;
        if snd r then Ok (with_branches qt1 (fst r), true)
        else
          g <- grow (with_branches qt1 (fst r)) ;;
          Ok (append_object g obj, true)
    end
  else
    g <- grow qt ;;
    Ok (append_object g obj, true).

(** Fuel that the guard [depth <= QT_MAX_DEPTH] makes sufficient: every
    nested call runs on a branch one level deeper. *)
Definition fuel_for (qt : QuadTree) : nat := Z.to_nat (QT_MAX_DEPTH + 1 - depth qt).

Definition QT_Insert (qt : QuadTree) (obj : QT_Object) : outcome (QuadTree * bool) :=
  QT_Insert_fuel (fuel_for qt) qt obj.

Definition QT_Subdivide (qt : QuadTree) : outcome QuadTree :=
  QT_Subdivide_with (QT_Insert_fuel (Nat.pred (fuel_for qt))) qt.

(** ** Range query *)

(** [results] is the prefix of [resultArray] counted by [*resultCount]. *)
Fixpoint QT_Query (qt : QuadTree) (query : Boundary) (results : list QT_Object)
  : list QT_Object * bool :=
  match qt with
  | mkQuadTree b objs _ _ bs =>
      if negb (BoundaryIntersects b query) then (results, false)
      else
        let results1 :=
          results ++ filter (fun o => BoundaryContains query (obj_pos o)) (buffer qt) in
        let results2 :=
          match bs with
          | [] => results1
          | _ :: _ =>
              fold_left (fun acc c => fst (QT_Query c query acc)) bs results1
          end in
        (results2, true)
  end.

(** ** Sequences of calls *)

(** Inserting a sequence of objects, one call after the other; the flags
    returned by the calls are collected in order. *)
Fixpoint insert_all (qt : QuadTree) (objs : list QT_Object)
  : outcome (QuadTree * list bool) :=
  match objs with
  | [] => Ok (qt, [])
  | o :: rest =>
      r <- QT_Insert qt o ;;
      r' <- insert_all (fst r) rest ;;
      Ok (fst r', snd r :: snd r')
  end.

(** [QT_New] followed by the insertion of a sequence of objects. *)
Definition build (b : Boundary) (cap : Z) (objs : list QT_Object)
  : outcome (QuadTree * list bool) :=
  root <- QT_New b cap ;;
  insert_all root objs.

(** ** Concrete inputs *)

(** The [float] an integer converts to. *)
Definition of_Z (z : Z) : float := binary_normalize prec emax z 0 false.

Definition vec (a b : Z) : Vec2 := mkVec2 (of_Z a) (of_Z b).
Definition square (cx cy h : Z) : Boundary := mkBoundary (vec cx cy) (vec h h).
Definition obj_at (d a b : Z) : QT_Object := mkObject d (vec a b).

(** The literal [0.1f]. *)
Definition tenth : float := fdiv (of_Z 1) (of_Z 10).

(** The five points of the spec's scenario. *)
Definition five_points : list QT_Object :=
  [obj_at 1 10 10; obj_at 2 12 12; obj_at 3 (-10) (-10); obj_at 4 10 (-10);
   obj_at 5 (-10) 10].

Definition three_points : list QT_Object :=
  [obj_at 1 10 10; obj_at 2 (-10) (-10); obj_at 3 20 20].

(** Two objects on one point. *)
Definition coincident : list QT_Object := [obj_at 1 0 0; obj_at 2 0 0].


(** The leaf that holds the centre of its square and a south-east point. *)
Definition split_line_leaf : QuadTree :=
  mkQuadTree (square 0 0 100) (Some [obj_at 1 0 0; obj_at 2 10 10]) 4 1 [].

(** The root of capacity 1 after [(10, 10)] and [(-10, -10)]: the second
    insertion has subdivided it. *)
Definition two_point_root : QuadTree :=
  match build (square 0 0 100) 1 [obj_at 1 10 10; obj_at 2 (-10) (-10)] with
  | Ok (qt, _) => qt
  | _ => mkQuadTree (square 0 0 100) (Some []) 1 1 []
  end.

(** The square of half extent 1 around [(0.1f, 0.1f)], an object on its
    centre, and the leaf of capacity 1 that holds it. *)
Definition tenth_square : Boundary := mkBoundary (mkVec2 tenth tenth) (vec 1 1).
Definition tenth_centre : QT_Object := mkObject 1 (mkVec2 tenth tenth).
Definition tenth_leaf : QuadTree :=
  mkQuadTree tenth_square (Some [tenth_centre]) 1 1 [].

(** A square of half extent 1 so far out that neighbouring floats are 1
    or 2 apart. *)
Definition far_square : Boundary := square 16777216 0 1.

(** * Specification vocabulary *)

(** ** The numbers floats stand for *)

(** A finite float as a multiple of [2^-149], the smallest positive
    binary32 number. *)
Definition scaled (f : float) : Z :=
  match f with
  | S754_finite s m e => cond_Zopp s (Zpos m) * 2 ^ (e + 149)
  | _ => 0
  end.

(** The real number a finite float stands for. *)
Definition real (f : float) : Q := scaled f # (2 ^ 149).

(** The float is a number of binary32: zero, or a mantissa of at most 24
    bits with the exponent that goes with it; not an infinity, not a NaN. *)
Definition finite (f : float) : bool :=
  match f with
  | S754_zero _ => true
  | S754_finite _ m e => bounded prec emax m e
  | _ => false
  end.

(** The float [f] is the number [q]: it is finite and no rounding
    separates it from [q]. *)
Definition exactly (f : float) (q : Q) : Prop :=
  finite f = true /\ (real f == q)%Q.

(** ** Rounding to nearest *)

(** Rounding, on multiples of [2^-149].  [ulp_exp V] is the exponent of
    the spacing of the binary32 numbers around the positive multiple [V]:
    24 bits are kept, and nothing below [2^-149]. *)
Definition ulp_exp (V : Z) : Z := Z.max (Z.log2 V - 23) 0.

(** The multiple of the spacing nearest to [V]; of two equally near, the
    even one. *)
Definition nearest_even (V : Z) : Z :=
  let U := 2 ^ ulp_exp V in
  match 2 * (V mod U) ?= U with
  | Lt => V / U * U
  | Eq => if Z.even (V / U) then V / U * U else (V / U + 1) * U
  | Gt => (V / U + 1) * U
  end.

(** The same for a multiple of either sign: rounding is symmetric. *)
Definition round_scaled (z : Z) : Z := Z.sgn z * nearest_even (Z.abs z).

(** The binary32 number nearest to [q], ties to even, overflow aside, for
    a [q] that is a multiple of [2^-149], as the sum and the difference of
    two numbers of binary32 are. *)
Definition nearest (q : Q) : Q :=
  round_scaled (Qfloor (q * (2 ^ 149 # 1))) # (2 ^ 149).

(** What the bits shifted out say about the remainder [r] of a division
    by [2^k]. *)
Definition remainder_location (r k : Z) : location :=
  if r =? 0 then loc_Exact else loc_Inexact (2 * r ?= 2 ^ k).

(** The record [mrs] is what [SpecFloat]'s right shift leaves of the
    mantissa [m0] after [k] bits: the quotient, and the place of the
    remainder. *)
Definition shifted (m0 k : Z) (mrs : shr_record) : Prop :=
  shr_m mrs = m0 / 2 ^ k /\
  loc_of_shr_record mrs = remainder_location (m0 mod 2 ^ k) k.

(** The first multiple of [2^-149] too large for binary32: [2^128]. *)
Definition overflow_threshold : Z := 2 ^ 277.

(** The coordinates of a vector, and the centre and half extents of a
    rectangle, are numbers of binary32. *)
Definition finite_vec (v : Vec2) : bool := finite (x v) && finite (y v).
Definition finite_boundary (b : Boundary) : bool :=
  finite_vec (pos b) && finite_vec (half_dim b).

(** ** Edges, distances and reaches *)

(** The four edges of a rectangle, as [BoundaryContains] computes them;
    north is the side of the smaller [y]. *)
Definition west (b : Boundary) : float := fsub (x (pos b)) (x (half_dim b)).
Definition east (b : Boundary) : float := fadd (x (pos b)) (x (half_dim b)).
Definition north (b : Boundary) : float := fsub (y (pos b)) (y (half_dim b)).
Definition south (b : Boundary) : float := fadd (y (pos b)) (y (half_dim b)).

(** The edges are computed without rounding. *)
Definition exact_edges (b : Boundary) : Prop :=
  exactly (west b) (real (x (pos b)) - real (x (half_dim b))) /\
  exactly (east b) (real (x (pos b)) + real (x (half_dim b))) /\
  exactly (north b) (real (y (pos b)) - real (y (half_dim b))) /\
  exactly (south b) (real (y (pos b)) + real (y (half_dim b))).

(** The subdivision of [b] is computed without rounding: the halved
    extents, the centres of the quadrants, the edges of [b] and the edges
    of the quadrants. *)
Definition exact_split (b : Boundary) : Prop :=
  exactly (x (child_half b)) (real (x (half_dim b)) / 2) /\
  exactly (y (child_half b)) (real (y (half_dim b)) / 2) /\
  exactly (x (pos (b_northwest b))) (real (x (pos b)) - real (x (half_dim b)) / 2) /\
  exactly (x (pos (b_southeast b))) (real (x (pos b)) + real (x (half_dim b)) / 2) /\
  exactly (y (pos (b_northwest b))) (real (y (pos b)) - real (y (half_dim b)) / 2) /\
  exactly (y (pos (b_southeast b))) (real (y (pos b)) + real (y (half_dim b)) / 2) /\
  exact_edges b /\
  Forall exact_edges (quadrants b).

(** The two sides of each test of [BoundaryIntersects]: how far apart the
    centres are, and how far the two half extents reach together. *)
Definition apart_x (a b : Boundary) : float := fabs (fsub (x (pos a)) (x (pos b))).
Definition reach_x (a b : Boundary) : float := fadd (x (half_dim a)) (x (half_dim b)).
Definition apart_y (a b : Boundary) : float := fabs (fsub (y (pos a)) (y (pos b))).
Definition reach_y (a b : Boundary) : float := fadd (y (half_dim a)) (y (half_dim b)).

(** ** Properties of trees *)

(** A property of nodes that holds at a node and throughout its subtree. *)
#[local] Unset Elimination Schemes.
Inductive every_node (P : QuadTree -> Prop) : QuadTree -> Prop :=
| every_node_intro qt :
    P qt -> Forall (every_node P) (branches qt) -> every_node P qt.
#[local] Set Elimination Schemes.

(** All objects stored in a subtree, in the order [QT_Query] visits them. *)
Fixpoint all_objects (qt : QuadTree) : list QT_Object :=
  match qt with
  | mkQuadTree _ o _ _ bs =>
      match o with Some l => l | None => [] end ++ flat_map all_objects bs
  end.


(** The number of nodes of a subtree. *)
Fixpoint node_count (qt : QuadTree) : nat :=
  match qt with
  | mkQuadTree _ _ _ _ bs => S (fold_right (fun c acc => (node_count c + acc)%nat) O bs)
  end.

(** What the branches keep from their creation: quadrant and level. *)
Definition placed (qt : QuadTree) (bs : list QuadTree) : Prop :=
  map boundary bs = quadrants (boundary qt) /\
  Forall (fun c => depth c = depth qt + 1) bs.

(** The node [QT_New] returns. *)
Definition new_root (b : Boundary) (cap : Z) : QuadTree :=
  mkQuadTree b (Some []) cap 1 [].

(** ** The outcomes of one insertion *)

(** A branch of [qt] on rectangle [q] whose buffer holds [l]. *)
Definition leaf_with (qt : QuadTree) (q : Boundary) (l : list QT_Object) : QuadTree :=
  mkQuadTree q (Some l) (capacity qt) (depth qt + 1) [].

(** The four branches [QT_Subdivide] starts from. *)
Definition fresh (qt : QuadTree) : list QuadTree :=
  map (fun q => leaf_with qt q []) (quadrants (boundary qt)).

(** The node [QT_Subdivide] leaves behind, given its final branches. *)
Definition subdivided (qt : QuadTree) (bs : list QuadTree) : QuadTree :=
  mkQuadTree (boundary qt) None (capacity qt) (depth qt) bs.

(** The five ways a call of [QT_Insert] can return. *)
Inductive insert_outcome (n : nat) (qt : QuadTree) (obj : QT_Object)
  : QuadTree * bool -> Prop :=
| outcome_rejected :
    BoundaryContains (boundary qt) (obj_pos obj) = false ->
    insert_outcome n qt obj (qt, false)
| outcome_appended :
    BoundaryContains (boundary qt) (obj_pos obj) = true ->
    has_room qt = true ->
    insert_outcome n qt obj (append_object qt obj, true)
| outcome_grown g :
    BoundaryContains (boundary qt) (obj_pos obj) = true ->
    has_room qt = false ->
    QT_IsLeaf qt && (depth qt <=? QT_MAX_DEPTH) = false ->
    grow qt = Ok g ->
    insert_outcome n qt obj (append_object g obj, true)
| outcome_routed n' bs1 bs :
    n = S n' ->
    BoundaryContains (boundary qt) (obj_pos obj) = true ->
    has_room qt = false ->
    QT_IsLeaf qt = true ->
    depth qt <= QT_MAX_DEPTH ->
    0 <= capacity qt ->
    push_down (QT_Insert_fuel n') (fresh qt) (buffer qt) = Ok bs1 ->
    insert_first (QT_Insert_fuel n') bs1 obj = Ok (bs, true) ->
    insert_outcome n qt obj (subdivided qt bs, true)
| outcome_unrouted n' bs1 bs g :
    n = S n' ->
    BoundaryContains (boundary qt) (obj_pos obj) = true ->
    has_room qt = false ->
    QT_IsLeaf qt = true ->
    depth qt <= QT_MAX_DEPTH ->
    0 <= capacity qt ->
    push_down (QT_Insert_fuel n') (fresh qt) (buffer qt) = Ok bs1 ->
    insert_first (QT_Insert_fuel n') bs1 obj = Ok (bs, false) ->
    grow (subdivided qt bs) = Ok g ->
    insert_outcome n qt obj (append_object g obj, true).

(** The object an accepting call adds, and nothing for a rejecting one. *)
Definition added (r : bool) (o : QT_Object) : list QT_Object :=
  if r then [o] else [].

(** A node is shallow enough for [n] units of fuel. *)
Definition fuelled (n : nat) (qt : QuadTree) : Prop := (fuel_for qt <= n)%nat.

(** The call ends: it returns or the process exits. *)
Definition ends {A : Type} (m : outcome A) : Prop := m <> NoFuel.

(** ** The invariants of reachable trees *)

(** The capacity is a positive [int] and the buffer never holds more than
    [capacity] objects. *)
Definition cap_ok (qt : QuadTree) : Prop :=
  1 <= capacity qt <= INT_MAX /\ obj_count qt <= capacity qt.


(** A node has no branch, or sits on a level that may subdivide and has
    its four quadrants as branches, one level down. *)
Definition branches_ok (qt : QuadTree) : Prop :=
  branches qt = [] \/
  (depth qt <= QT_MAX_DEPTH /\ placed qt (branches qt)).

(** Every object stored in the subtree passes the node's containment
    test. *)
Definition holds_own (qt : QuadTree) : Prop :=
  Forall (fun o => BoundaryContains (boundary qt) (obj_pos o) = true)
         (all_objects qt).

(** The capacity is [cap] doubled some number of times. *)
Definition doubled_from (cap : Z) (qt : QuadTree) : Prop :=
  exists k : nat, capacity qt = cap * 2 ^ Z.of_nat k.

(** At most one branch of the node has branches of its own. *)
Definition one_internal_branch (qt : QuadTree) : Prop :=
  (length (filter (fun c => negb (QT_IsLeaf c)) (branches qt)) <= 1)%nat.

(** What makes a sequence of calls on one node return: the node respects
    its capacity, which is at most twice the initial capacity [cap] plus
    twice the number of objects in the buffer; a node that is still a leaf
    lies on a level that subdivides; and the capacity of a leaf, or of a
    node without buffer, has not been doubled yet. *)
Definition vector_ok (cap : Z) (t : QuadTree) : Prop :=
  1 <= capacity t <= INT_MAX /\
  obj_count t <= capacity t /\
  capacity t <= 2 * cap + 2 * obj_count t /\
  (QT_IsLeaf t = true -> depth t <= QT_MAX_DEPTH) /\
  (QT_IsLeaf t = true \/ has_buffer t = false -> capacity t <= cap).

(** ** Where subdivision sends an object *)

(** Index of the first rectangle of [qs] that contains [p]. *)
Fixpoint first_match (qs : list Boundary) (p : Vec2) : option nat :=
  match qs with
  | [] => None
  | q :: rest =>
      if BoundaryContains q p then Some O
      else option_map S (first_match rest p)
  end.

(** The object's position first matches rectangle number [i] of [qs]. *)
Definition picks (qs : list Boundary) (i : nat) (o : QT_Object) : bool :=
  match first_match qs (obj_pos o) with
  | Some j => Nat.eqb j i
  | None => false
  end.

(** The object's position first matches quadrant number [i] of [b], in the
    order north-west, south-west, north-east, south-east. *)
Definition lands (b : Boundary) (i : nat) (o : QT_Object) : bool :=
  picks (quadrants b) i o.

(** ** Queries and sequences *)

(** What a query appends to an empty result sequence. *)
Definition found (qt : QuadTree) (region : Boundary) : list QT_Object :=
  fst (QT_Query qt region []).

(** The test [QT_Insert] starts with, on the objects of a sequence. *)
Definition accepted (b : Boundary) (o : QT_Object) : bool :=
  BoundaryContains b (obj_pos o).

(** The point [p] lies in the closed rectangle
    [[centre - half extent, centre + half extent]] of [b], all coordinates
    being numbers of binary32. *)
Definition inside (b : Boundary) (p : Vec2) : Prop :=
  finite_boundary b = true /\ finite_vec p = true /\
  (real (x (pos b)) - real (x (half_dim b)) <= real (x p)
   <= real (x (pos b)) + real (x (half_dim b)))%Q /\
  (real (y (pos b)) - real (y (half_dim b)) <= real (y p)
   <= real (y (pos b)) + real (y (half_dim b)))%Q.

(** The object is in the buffer of some node of the tree, and its
    position lies in the rectangle of every node on the way down to that
    buffer. *)
Inductive stored_inside (o : QT_Object) : QuadTree -> Prop :=
| stored_here qt :
    inside (boundary qt) (obj_pos o) -> In o (buffer qt) -> stored_inside o qt
| stored_below qt c :
    inside (boundary qt) (obj_pos o) -> In c (branches qt) ->
    stored_inside o c -> stored_inside o qt.

(** * Lemmas *)

(** ** Structural tools *)

(** Induction on trees, with the hypothesis available for every branch. *)
Lemma QuadTree_ind (P : QuadTree -> Prop) :
  (forall b o c d bs, Forall P bs -> P (mkQuadTree b o c d bs)) ->
  forall qt, P qt.
Proof.
  intros step. fix IH 1. intros [b o c d bs]. apply step.
  induction bs as [|c0 bs IHbs]; constructor; [apply IH | exact IHbs].
Qed.

Lemma all_objects_unfold qt :
  all_objects qt = buffer qt ++ flat_map all_objects (branches qt).
Proof. destruct qt; reflexivity. Qed.

Lemma every_node_here P qt : every_node P qt -> P qt.
Proof. now inversion 1. Qed.

Lemma every_node_branches P qt :
  every_node P qt -> Forall (every_node P) (branches qt).
Proof. now inversion 1. Qed.

Lemma every_node_impl (P Q : QuadTree -> Prop) qt :
  (forall t, P t -> Q t) -> every_node P qt -> every_node Q qt.
Proof.
  intros HPQ. induction qt as [b o c d bs IH] using QuadTree_ind. intros Hqt.
  pose proof (every_node_here _ _ Hqt) as Hd.
  pose proof (every_node_branches _ _ Hqt) as Hbs.
  constructor; [auto|]. cbn [branches] in *.
  rewrite Forall_forall in *. auto.
Qed.

Lemma every_node_and (P Q : QuadTree -> Prop) qt :
  every_node P qt -> every_node Q qt -> every_node (fun t => P t /\ Q t) qt.
Proof.
  induction qt as [b o c d bs IH] using QuadTree_ind. intros HP HQ.
  pose proof (every_node_here _ _ HP). pose proof (every_node_here _ _ HQ).
  pose proof (every_node_branches _ _ HP) as HbP.
  pose proof (every_node_branches _ _ HQ) as HbQ.
  constructor; [auto|]. cbn [branches] in *.
  rewrite Forall_forall in *. auto.
Qed.

Lemma leaf_no_branches qt : QT_IsLeaf qt = true -> branches qt = [].
Proof. unfold QT_IsLeaf. destruct (branches qt); [reflexivity | discriminate]. Qed.

Lemma leaf_objects qt : QT_IsLeaf qt = true -> all_objects qt = buffer qt.
Proof.
  intros H. rewrite all_objects_unfold, (leaf_no_branches _ H). apply app_nil_r.
Qed.

(** ** The outcome type *)

Lemma bind_Ok {A B} (m : outcome A) (k : A -> outcome B) b :
  bind m k = Ok b -> exists a, m = Ok a /\ k a = Ok b.
Proof. destruct m; cbn; try discriminate. eauto. Qed.

Lemma bind_ends {A B} (m : outcome A) (k : A -> outcome B) :
  ends m -> (forall a, m = Ok a -> ends (k a)) -> ends (bind m k).
Proof. unfold ends. destruct m; cbn; auto; discriminate. Qed.

(** ** Allocation *)

Lemma fresh_branches_eq qt :
  fresh_branches qt = if 0 <=? capacity qt then Ok (fresh qt) else Exited.
Proof.
  unfold fresh_branches, new_branch, QT_New.
  destruct (0 <=? capacity qt); reflexivity.
Qed.

Lemma wrap_int_small z : - INT_MAX - 1 <= z <= INT_MAX -> wrap_int z = z.
Proof.
  unfold wrap_int, INT_MAX. intros H.
  rewrite Z.mod_small by lia. lia.
Qed.

Lemma wrap_int_range z : - INT_MAX - 1 <= wrap_int z <= INT_MAX.
Proof.
  unfold wrap_int, INT_MAX.
  pose proof (Z.mod_pos_bound (z + 2147483648) 4294967296 ltac:(lia)). lia.
Qed.

(** Doubling a positive [int] gives a positive [int] only when nothing
    overflows. *)
Lemma wrap_int_double c :
  1 <= c <= INT_MAX -> 0 < wrap_int (c * 2) -> wrap_int (c * 2) = c * 2.
Proof.
  unfold INT_MAX. intros Hc Hpos.
  destruct (Z_le_gt_dec (c * 2) 2147483647) as [Hs|Hl].
  - apply wrap_int_small. unfold INT_MAX. lia.
  - exfalso. unfold wrap_int in Hpos.
    replace (c * 2 + 2147483648) with (c * 2 - 2147483648 + 1 * 4294967296) in Hpos by lia.
    rewrite Z.mod_add in Hpos by lia.
    rewrite Z.mod_small in Hpos by lia. lia.
Qed.

Lemma grow_Ok qt g :
  grow qt = Ok g ->
  g = mkQuadTree (boundary qt) (Some (buffer qt)) (wrap_int (capacity qt * 2))
                 (depth qt) (branches qt) /\
  0 < wrap_int (capacity qt * 2).
Proof.
  unfold grow. destruct (0 <? wrap_int (capacity qt * 2)) eqn:E; [|discriminate].
  intros [= <-]. split; [reflexivity | now apply Z.ltb_lt].
Qed.

Lemma grow_returns qt :
  1 <= capacity qt -> 2 * capacity qt <= INT_MAX ->
  grow qt = Ok (mkQuadTree (boundary qt) (Some (buffer qt)) (capacity qt * 2)
                           (depth qt) (branches qt)).
Proof.
  intros H1 H2. unfold grow.
  rewrite wrap_int_small by (unfold INT_MAX in *; lia).
  destruct (0 <? capacity qt * 2) eqn:E; [reflexivity|].
  apply Z.ltb_ge in E. lia.
Qed.

Lemma grow_ends qt : ends (grow qt).
Proof. unfold ends, grow. destruct (0 <? _); discriminate. Qed.

(** ** Case analysis of one insertion *)

Lemma QT_Insert_fuel_outcome n qt obj r :
  QT_Insert_fuel n qt obj = Ok r -> insert_outcome n qt obj r.
Proof.
  assert (Hgrow : forall t,
             (g <- grow t ;; Ok (append_object g obj, true)) = Ok r ->
             exists g, grow t = Ok g /\ r = (append_object g obj, true)).
  { intros t H. apply bind_Ok in H. destruct H as [g [Eg [= <-]]]. eauto. }
  destruct n as [|n']; cbn [QT_Insert_fuel];
    destruct (BoundaryContains (boundary qt) (obj_pos obj)) eqn:Ec; cbn [negb];
    try (intros [= <-]; now constructor);
    destruct (has_room qt) eqn:Er;
    try (intros [= <-]; now constructor);
    destruct (QT_IsLeaf qt && (depth qt <=? QT_MAX_DEPTH)) eqn:Eg;
    try discriminate;
    try (intros H; apply Hgrow in H; destruct H as [g [Egr ->]];
         now apply outcome_grown).
  unfold QT_Subdivide_with. rewrite fresh_branches_eq.
  apply andb_true_iff in Eg. destruct Eg as [El Ed]. apply Z.leb_le in Ed.
  destruct (0 <=? capacity qt) eqn:E0; cbn [bind]; [|discriminate].
  apply Z.leb_le in E0.
  destruct (push_down _ _ _) as [bs1| |] eqn:Ep; cbn [bind]; try discriminate.
  cbn [branches].
  destruct (insert_first _ bs1 obj) as [[bs ok]| |] eqn:Ei; cbn [bind fst snd];
    try discriminate.
  destruct ok.
  - intros [= <-]. change (insert_outcome (S n') qt obj (subdivided qt bs, true)).
    eapply outcome_routed; eauto.
  - intros H. apply Hgrow in H. destruct H as [g [Egr ->]].
    change (grow (subdivided qt bs) = Ok g) in Egr.
    eapply outcome_unrouted; eauto.
Qed.

(** The flag is [true] exactly when the point lies in the boundary. *)
Lemma insert_outcome_flag n qt obj r :
  insert_outcome n qt obj r ->
  snd r = BoundaryContains (boundary qt) (obj_pos obj).
Proof. destruct 1; cbn; congruence. Qed.

Lemma insert_outcome_rejected n qt obj r :
  insert_outcome n qt obj r -> snd r = false -> fst r = qt.
Proof. destruct 1; cbn; congruence. Qed.

(** An insertion never moves or re-levels the node it is applied to. *)
Lemma insert_outcome_frame n qt obj r :
  insert_outcome n qt obj r ->
  boundary (fst r) = boundary qt /\ depth (fst r) = depth qt.
Proof.
  destruct 1 as [| |g ? ? ? Hg| |? ? ? g ? ? ? ? ? ? ? ? Hg]; cbn; auto;
    apply grow_Ok in Hg; destruct Hg as [-> _]; cbn; auto.
Qed.

Lemma QT_Insert_fuel_frame n c o c' r :
  QT_Insert_fuel n c o = Ok (c', r) ->
  boundary c' = boundary c /\ depth c' = depth c.
Proof.
  intros H. apply QT_Insert_fuel_outcome in H.
  exact (insert_outcome_frame _ _ _ _ H).
Qed.

Lemma QT_Insert_fuel_flag n c o c' r :
  QT_Insert_fuel n c o = Ok (c', r) ->
  r = BoundaryContains (boundary c) (obj_pos o).
Proof.
  intros H. apply QT_Insert_fuel_outcome in H.
  exact (insert_outcome_flag _ _ _ _ H).
Qed.

Lemma placed_fresh qt : placed qt (fresh qt).
Proof. split; [reflexivity|]. unfold fresh. cbn. repeat constructor. Qed.

Lemma placed_length qt bs : placed qt bs -> length bs = 4%nat.
Proof.
  intros [Hb _]. apply (f_equal (@length _)) in Hb.
  now rewrite length_map in Hb.
Qed.

Section Loops.
Variable ins : Inserter.
Hypothesis ins_frame : forall c o c' r,
    ins c o = Ok (c', r) ->
    boundary c' = boundary c /\ depth c' = depth c.

Lemma insert_first_frame bs o bs' r :
  insert_first ins bs o = Ok (bs', r) ->
  map boundary bs' = map boundary bs /\ map depth bs' = map depth bs.
Proof.
  revert bs' r. induction bs as [|c rest IH]; cbn [insert_first]; intros bs' r.
  - intros [= <- <-]. auto.
  - destruct (ins c o) as [[c' []]| |] eqn:E; cbn [bind fst snd]; try discriminate.
    + intros [= <- <-]. cbn. destruct (ins_frame _ _ _ _ E). split; congruence.
    + destruct (insert_first ins rest o) as [[rest' r']| |]; cbn [bind fst snd];
        try discriminate.
      intros [= <- <-]. cbn. destruct (ins_frame _ _ _ _ E).
      destruct (IH _ _ eq_refl). split; congruence.
Qed.

Lemma push_down_frame objs : forall bs bs',
  push_down ins bs objs = Ok bs' ->
  map boundary bs' = map boundary bs /\ map depth bs' = map depth bs.
Proof.
  induction objs as [|o rest IH]; cbn [push_down]; intros bs bs'.
  - intros [= <-]. auto.
  - destruct (insert_first ins bs o) as [[bs1 r]| |] eqn:E; cbn [bind fst];
      try discriminate.
    intros Hp. destruct (IH _ _ Hp). destruct (insert_first_frame _ _ _ _ E).
    split; congruence.
Qed.

(** Preservation of a property of whole branches by the two loops. *)
Variable Inv : QuadTree -> Prop.
Hypothesis ins_inv : forall c o c' r,
    Inv c -> ins c o = Ok (c', r) -> Inv c'.

Lemma insert_first_inv bs o bs' r :
  Forall Inv bs -> insert_first ins bs o = Ok (bs', r) -> Forall Inv bs'.
Proof.
  intros HF. revert bs' r.
  induction HF as [|c rest Hc Hrest IH]; cbn [insert_first]; intros bs' r.
  - intros [= <- <-]. constructor.
  - destruct (ins c o) as [[c' []]| |] eqn:E; cbn [bind fst snd]; try discriminate.
    + intros [= <- <-]. constructor; eauto.
    + destruct (insert_first ins rest o) as [[rest' r']| |]; cbn [bind fst snd];
        try discriminate.
      intros [= <- <-]. constructor; eauto.
Qed.

Lemma push_down_inv objs : forall bs bs',
  Forall Inv bs -> push_down ins bs objs = Ok bs' -> Forall Inv bs'.
Proof.
  induction objs as [|o rest IH]; cbn [push_down]; intros bs bs' HF.
  - intros [= <-]. exact HF.
  - destruct (insert_first ins bs o) as [[bs1 r]| |] eqn:E; cbn [bind fst];
      try discriminate.
    intros Hp. eapply IH; [|exact Hp]. eapply insert_first_inv; eauto.
Qed.

(** The loops end when the calls they make end. *)
Hypothesis ins_ends : forall c o, Inv c -> ends (ins c o).

Lemma insert_first_ends bs o : Forall Inv bs -> ends (insert_first ins bs o).
Proof.
  induction 1 as [|c rest Hc Hrest IH]; cbn [insert_first]; [discriminate|].
  apply bind_ends; [auto|]. intros [c' []] _; cbn [snd]; [discriminate|].
  apply bind_ends; [exact IH | discriminate].
Qed.

Lemma push_down_ends objs : forall bs,
  Forall Inv bs -> ends (push_down ins bs objs).
Proof.
  induction objs as [|o rest IH]; cbn [push_down]; intros bs HF; [discriminate|].
  apply bind_ends; [now apply insert_first_ends|].
  intros [bs1 r] E. cbn [fst]. apply IH. eapply insert_first_inv; eauto.
Qed.
End Loops.

Lemma placed_map qt bs bs' :
  placed qt bs -> map boundary bs' = map boundary bs ->
  map depth bs' = map depth bs -> placed qt bs'.
Proof.
  intros [Hb Hd] Eb Ed. split; [congruence|].
  rewrite Forall_forall in *. intros c Hc.
  apply (in_map depth) in Hc. rewrite Ed in Hc.
  apply in_map_iff in Hc. destruct Hc as [c0 [E Hc0]].
  rewrite <- E. auto.
Qed.

Lemma push_down_placed n qt objs bs :
  push_down (QT_Insert_fuel n) (fresh qt) objs = Ok bs ->
  placed qt bs.
Proof.
  intros H.
  destruct (push_down_frame _ (QT_Insert_fuel_frame n) _ _ _ H).
  eapply placed_map; eauto using placed_fresh.
Qed.

Lemma insert_first_placed n qt bs o bs' r :
  placed qt bs -> insert_first (QT_Insert_fuel n) bs o = Ok (bs', r) ->
  placed qt bs'.
Proof.
  intros Hp H.
  destruct (insert_first_frame _ (QT_Insert_fuel_frame n) _ _ _ _ H).
  eapply placed_map; eauto.
Qed.

(** The branches a returning insertion leaves under a subdivided leaf. *)
Lemma routed_placed n qt obj bs1 bs ok :
  push_down (QT_Insert_fuel n) (fresh qt) (buffer qt) = Ok bs1 ->
  insert_first (QT_Insert_fuel n) bs1 obj = Ok (bs, ok) ->
  placed qt bs.
Proof.
  intros Hpd Hif. eapply insert_first_placed; [|exact Hif].
  eapply push_down_placed; exact Hpd.
Qed.

(** ** Preservation of node invariants *)

Section Preservation.
Variable P : QuadTree -> Prop.

Hypothesis P_append : forall qt obj,
    P qt -> BoundaryContains (boundary qt) (obj_pos obj) = true ->
    has_room qt = true -> P (append_object qt obj).
Hypothesis P_grow : forall qt obj g,
    P qt -> BoundaryContains (boundary qt) (obj_pos obj) = true ->
    has_room qt = false ->
    QT_IsLeaf qt && (depth qt <=? QT_MAX_DEPTH) = false ->
    grow qt = Ok g -> P (append_object g obj).
Hypothesis P_fresh : forall qt b,
    P qt -> QT_IsLeaf qt = true -> depth qt <= QT_MAX_DEPTH ->
    P (leaf_with qt b []).
Hypothesis P_subdivided : forall qt bs,
    P qt -> QT_IsLeaf qt = true -> depth qt <= QT_MAX_DEPTH ->
    placed qt bs -> P (subdivided qt bs).

Lemma every_node_fresh qt :
  P qt -> QT_IsLeaf qt = true -> depth qt <= QT_MAX_DEPTH ->
  Forall (every_node P) (fresh qt).
Proof.
  intros. unfold fresh. apply Forall_map, Forall_forall.
  intros b _. constructor; [auto | constructor].
Qed.

Lemma QT_Insert_fuel_every n : forall qt obj qt' r,
  every_node P qt -> QT_Insert_fuel n qt obj = Ok (qt', r) ->
  every_node P qt'.
Proof.
  induction n as [|n IH]; intros qt obj qt' r Hqt H;
    apply QT_Insert_fuel_outcome in H;
    pose proof (every_node_here _ _ Hqt) as Hp;
    pose proof (every_node_branches _ _ Hqt) as Hb;
    inversion H as [Hc E| Hc Hr E | g Hc Hr Hg Hgr E
                    | n' bs1 bs En Hc Hr Hl Hd H0 Hpd Hif E
                    | n' bs1 bs g En Hc Hr Hl Hd H0 Hpd Hif Hgr E]; subst;
    try (constructor; cbn [branches]; now auto);
    try discriminate.
  - constructor; [eapply P_grow; eauto|].
    apply grow_Ok in Hgr. destruct Hgr as [-> _]. exact Hb.
  - constructor; [eapply P_grow; eauto|].
    apply grow_Ok in Hgr. destruct Hgr as [-> _]. exact Hb.
  - injection En as <-.
    assert (Hbs1 : Forall (every_node P) bs1).
    { eapply push_down_inv; [| |exact Hpd]; eauto using every_node_fresh. }
    assert (Hbs : Forall (every_node P) bs).
    { eapply insert_first_inv; [| |exact Hif]; eauto. }
    constructor; [|exact Hbs].
    apply P_subdivided; auto. eapply routed_placed; eauto.
  - injection En as <-.
    assert (Hbs1 : Forall (every_node P) bs1).
    { eapply push_down_inv; [| |exact Hpd]; eauto using every_node_fresh. }
    assert (Hbs : Forall (every_node P) bs).
    { eapply insert_first_inv; [| |exact Hif]; eauto. }
    assert (Hpl : placed qt bs) by (eapply routed_placed; eauto).
    assert (Hs : P (subdivided qt bs)) by auto.
    constructor.
    + eapply P_grow; [exact Hs|exact Hc|apply andb_false_r| |exact Hgr].
      unfold QT_IsLeaf. cbn [branches subdivided].
      apply placed_length in Hpl. destruct bs; [discriminate|reflexivity].
    + apply grow_Ok in Hgr. destruct Hgr as [-> _]. exact Hbs.
Qed.
End Preservation.

(** ** The fuel of the entry points suffices *)

Lemma fuelled_frame n c c' : depth c' = depth c -> fuelled n c -> fuelled n c'.
Proof. unfold fuelled, fuel_for. intros ->. auto. Qed.

Lemma fuelled_keep n c o c' r :
  fuelled n c -> QT_Insert_fuel n c o = Ok (c', r) -> fuelled n c'.
Proof.
  intros Hc E. apply QT_Insert_fuel_frame in E.
  eapply fuelled_frame; [apply E | exact Hc].
Qed.

Lemma fuelled_fresh n qt :
  depth qt <= QT_MAX_DEPTH -> fuelled (S n) qt -> Forall (fuelled n) (fresh qt).
Proof.
  intros Hd Hn. unfold fresh. apply Forall_map, Forall_forall. intros b _.
  unfold fuelled, fuel_for, QT_MAX_DEPTH in *. cbn [depth leaf_with]. lia.
Qed.

Lemma QT_Insert_fuel_ends n : forall qt obj,
  fuelled n qt -> ends (QT_Insert_fuel n qt obj).
Proof.
  induction n as [|n IH]; intros qt obj Hn; cbn [QT_Insert_fuel];
    destruct (negb _); try discriminate;
    destruct (has_room qt); try discriminate;
    destruct (QT_IsLeaf qt && (depth qt <=? QT_MAX_DEPTH)) eqn:Eg;
    try (apply bind_ends; [apply grow_ends | discriminate]);
    apply andb_true_iff in Eg; destruct Eg as [_ Ed]; apply Z.leb_le in Ed.
  - unfold fuelled, fuel_for, QT_MAX_DEPTH in *. lia.
  - pose proof (fuelled_fresh n qt Ed Hn) as Hfresh.
    apply bind_ends.
    + unfold QT_Subdivide_with. rewrite fresh_branches_eq.
      destruct (0 <=? capacity qt); cbn [bind]; [|discriminate].
      apply bind_ends; [|discriminate].
      eapply push_down_ends; [apply fuelled_keep | exact IH | exact Hfresh].
    + intros qt1 E1. unfold QT_Subdivide_with in E1. rewrite fresh_branches_eq in E1.
      destruct (0 <=? capacity qt); cbn [bind] in E1; [|discriminate].
      apply bind_Ok in E1. destruct E1 as [bs1 [Epd [= <-]]]. cbn [branches].
      apply bind_ends.
      * eapply insert_first_ends; [exact IH|].
        eapply push_down_inv; [apply fuelled_keep | exact Hfresh | exact Epd].
      * intros [bs []] _; cbn [snd fst]; [discriminate|].
        apply bind_ends; [apply grow_ends | discriminate].
Qed.

Lemma QT_Insert_ends qt obj : ends (QT_Insert qt obj).
Proof. apply QT_Insert_fuel_ends. unfold fuelled. lia. Qed.

Lemma QT_Subdivide_ends qt : ends (QT_Subdivide qt).
Proof.
  unfold QT_Subdivide, QT_Subdivide_with. rewrite fresh_branches_eq.
  destruct (0 <=? capacity qt); cbn [bind]; [|discriminate].
  apply bind_ends; [|discriminate].
  eapply push_down_ends; [apply fuelled_keep | apply QT_Insert_fuel_ends |].
  unfold fresh. apply Forall_map, Forall_forall. intros b _.
  unfold fuelled, fuel_for, QT_MAX_DEPTH in *. cbn [depth leaf_with]. lia.
Qed.

(** ** Invariants are preserved *)

Lemma obj_count_append qt obj :
  obj_count (append_object qt obj) = obj_count qt + 1.
Proof. unfold obj_count. cbn. rewrite length_app. cbn. lia. Qed.

Lemma has_room_lt qt : has_room qt = true -> obj_count qt < capacity qt.
Proof.
  unfold has_room. intros H. apply andb_true_iff in H. now apply Z.ltb_lt.
Qed.

(** What a successful reallocation makes of a node that respects its
    capacity: the capacity is doubled, without overflow. *)
Lemma grow_cap_ok qt g :
  cap_ok qt -> grow qt = Ok g ->
  g = mkQuadTree (boundary qt) (Some (buffer qt)) (capacity qt * 2)
                 (depth qt) (branches qt) /\
  capacity qt * 2 <= INT_MAX.
Proof.
  intros [Hc Hn] Hg. apply grow_Ok in Hg. destruct Hg as [-> Hpos].
  rewrite (wrap_int_double _ Hc Hpos) in *.
  split; [reflexivity|].
  pose proof (wrap_int_range (capacity qt * 2)) as Hr.
  rewrite (wrap_int_double _ Hc Hpos) in Hr. lia.
Qed.

Lemma cap_ok_insert n qt obj qt' r :
  every_node cap_ok qt -> QT_Insert_fuel n qt obj = Ok (qt', r) ->
  every_node cap_ok qt'.
Proof.
  apply QT_Insert_fuel_every.
  - intros q o [? ?] _ Hr. apply has_room_lt in Hr. unfold cap_ok.
    rewrite obj_count_append. cbn [capacity append_object]. lia.
  - intros q o g Hq _ _ _ Hg.
    destruct (grow_cap_ok _ _ Hq Hg) as [-> Hle]. destruct Hq as [? ?].
    unfold cap_ok. rewrite obj_count_append. cbn [capacity append_object].
    unfold obj_count in *. cbn [buffer objects]. lia.
  - intros q b [? ?] _ _. unfold cap_ok, obj_count. cbn. lia.
  - intros q bs [? ?] _ _ _. unfold cap_ok, obj_count. cbn. lia.
Qed.


Lemma branches_ok_insert n qt obj qt' r :
  every_node branches_ok qt -> QT_Insert_fuel n qt obj = Ok (qt', r) ->
  every_node branches_ok qt'.
Proof.
  apply QT_Insert_fuel_every; unfold branches_ok.
  - intros q o H _ _. exact H.
  - intros q o g H _ _ _ Hg. apply grow_Ok in Hg. destruct Hg as [-> _]. exact H.
  - intros q b _ _ _. now left.
  - intros q bs _ _ Hd Hpl. right. split; [exact Hd | exact Hpl].
Qed.

Lemma every_node_leaf P qt :
  P qt -> QT_IsLeaf qt = true -> every_node P qt.
Proof.
  intros HP Hl. constructor; [exact HP|].
  rewrite (leaf_no_branches _ Hl). constructor.
Qed.

(** ** What an insertion does to the stored objects *)

Lemma Permutation_swap_tail {A} (a o l : list A) :
  Permutation ((a ++ o) ++ l) ((a ++ l) ++ o).
Proof.
  rewrite <- !app_assoc. apply Permutation_app_head, Permutation_app_comm.
Qed.

Section LoopsObjects.
Variable ins : Inserter.
Hypothesis ins_frame : forall c o c' r,
    ins c o = Ok (c', r) ->
    boundary c' = boundary c /\ depth c' = depth c.
Hypothesis ins_flag : forall c o c' r,
    ins c o = Ok (c', r) -> r = BoundaryContains (boundary c) (obj_pos o).
Hypothesis ins_keeps : forall c o c' r,
    ins c o = Ok (c', r) ->
    exists lost, Permutation (all_objects c' ++ lost) (all_objects c ++ added r o).


Lemma insert_first_keeps bs o bs' r :
  insert_first ins bs o = Ok (bs', r) ->
  exists lost,
    Permutation (flat_map all_objects bs' ++ lost)
                (flat_map all_objects bs ++ added r o).
Proof.
  revert bs' r. induction bs as [|c rest IH]; cbn [insert_first]; intros bs' r.
  - intros [= <- <-]. exists []. reflexivity.
  - destruct (ins c o) as [[c' rc]| |] eqn:E; cbn [bind fst snd]; try discriminate.
    destruct (ins_keeps _ _ _ _ E) as [lc Hc]. destruct rc.
    + intros [= <- <-]. exists lc. cbn [flat_map].
      rewrite Permutation_swap_tail, Hc. apply Permutation_swap_tail.
    + destruct (insert_first ins rest o) as [[rest' r']| |] eqn:Er;
        cbn [bind fst snd]; try discriminate.
      intros [= <- <-]. destruct (IH _ _ eq_refl) as [lr Hr].
      cbn [added] in Hc. rewrite app_nil_r in Hc.
      exists (lc ++ lr). cbn [flat_map].
      rewrite <- !app_assoc, (app_assoc (flat_map all_objects rest')).
      rewrite (Permutation_app_comm (flat_map all_objects rest')).
      rewrite <- !app_assoc, (app_assoc (all_objects c')), Hc.
      apply Permutation_app_head. exact Hr.
Qed.

Lemma push_down_keeps objs : forall bs bs',
  push_down ins bs objs = Ok bs' ->
  exists lost,
    Permutation (flat_map all_objects bs' ++ lost) (flat_map all_objects bs ++ objs).
Proof.
  induction objs as [|o rest IH]; cbn [push_down]; intros bs bs'.
  - intros [= <-]. exists []. reflexivity.
  - destruct (insert_first ins bs o) as [[bs1 r]| |] eqn:E; cbn [bind fst];
      try discriminate.
    intros Hp. destruct (IH _ _ Hp) as [l2 H2].
    destruct (insert_first_keeps _ _ _ _ E) as [l1 H1].
    exists (l2 ++ l1 ++ (if r then [] else [o])).
    rewrite app_assoc, H2, <- app_assoc, (app_assoc rest).
    rewrite (Permutation_app_comm rest), <- !app_assoc, (app_assoc _ l1), H1.
    rewrite <- !app_assoc. apply Permutation_app_head.
    destruct r; cbn [added app].
    + rewrite app_nil_r. reflexivity.
    + symmetry. apply Permutation_cons_append.
Qed.
End LoopsObjects.

(** A returning insertion stores the object it accepts at most once and
    makes up no object: what the subtree holds afterwards, together with
    what the call dropped, is what it held before plus the accepted
    object. *)
Lemma QT_Insert_fuel_keeps n : forall qt obj qt' r,
  QT_Insert_fuel n qt obj = Ok (qt', r) ->
  exists lost,
    Permutation (all_objects qt' ++ lost) (all_objects qt ++ added r obj).
Proof.
  induction n as [|n IH]; intros qt obj qt' r H;
    pose proof (QT_Insert_fuel_outcome _ _ _ _ H) as Ho;
    inversion Ho as [Hc E| Hc Hr E | g Hc Hr Hg Hgr E
                     | n' bs1 bs En Hc Hr Hl Hd H0 Hpd Hif E
                     | n' bs1 bs g En Hc Hr Hl Hd H0 Hpd Hif Hgr E]; subst;
    cbn [added];
    try (exists []; reflexivity);
    try (exists []; rewrite !all_objects_unfold, !app_nil_r;
         cbn [buffer objects branches append_object];
         fold (buffer qt); apply Permutation_swap_tail);
    try (apply grow_Ok in Hgr; destruct Hgr as [-> _];
         exists []; rewrite !all_objects_unfold, !app_nil_r;
         cbn [buffer objects branches append_object];
         fold (buffer qt); apply Permutation_swap_tail);
    try discriminate.
  - injection En as <-.
    destruct (push_down_keeps _ IH _ _ _ Hpd) as [l1 H1].
    destruct (insert_first_keeps _ IH _ _ _ _ Hif) as [l2 H2].
    cbn [flat_map fresh app] in H1. cbn [added] in H2.
    exists (l2 ++ l1). rewrite (leaf_objects qt Hl), all_objects_unfold.
    cbn [buffer objects branches subdivided app].
    rewrite app_assoc, H2, Permutation_swap_tail, H1. reflexivity.
  - injection En as <-.
    destruct (push_down_keeps _ IH _ _ _ Hpd) as [l1 H1].
    destruct (insert_first_keeps _ IH _ _ _ _ Hif) as [l2 H2].
    cbn [flat_map fresh app] in H1. cbn [added] in H2. rewrite app_nil_r in H2.
    apply grow_Ok in Hgr. destruct Hgr as [-> _].
    exists (l2 ++ l1). rewrite (leaf_objects qt Hl), all_objects_unfold.
    cbn [buffer objects branches subdivided append_object app].
    rewrite app_assoc, H2, H1. apply Permutation_cons_append.
Qed.

Lemma QT_Insert_fuel_source n qt obj qt' r o :
  QT_Insert_fuel n qt obj = Ok (qt', r) ->
  In o (all_objects qt') -> In o (all_objects qt) \/ (r = true /\ o = obj).
Proof.
  intros H Hin. destruct (QT_Insert_fuel_keeps _ _ _ _ _ H) as [lost Hp].
  assert (Hin' : In o (all_objects qt ++ added r obj)).
  { apply (Permutation_in _ Hp). apply in_or_app. now left. }
  apply in_app_or in Hin'. destruct Hin' as [Hi|Hi]; [now left|].
  destruct r; cbn in Hi; [|contradiction].
  destruct Hi as [<-|[]]. now right.
Qed.

(** Every object of a subtree has passed the containment test of the
    subtree's root, and will pass it again. *)
Lemma holds_own_insert n : forall qt obj qt' r,
  every_node holds_own qt -> QT_Insert_fuel n qt obj = Ok (qt', r) ->
  every_node holds_own qt'.
Proof.
  induction n as [|n IH]; intros qt obj qt' r Hqt H;
    pose proof (every_node_here _ _ Hqt) as Hp;
    pose proof (every_node_branches _ _ Hqt) as Hb;
    (assert (Hown : holds_own qt');
     [ unfold holds_own in *; rewrite Forall_forall in *; intros o Ho;
       destruct (QT_Insert_fuel_frame _ _ _ _ _ H) as [-> _];
       destruct (QT_Insert_fuel_source _ _ _ _ _ _ H Ho) as [Hi|[-> ->]];
       [now apply Hp | symmetry; exact (QT_Insert_fuel_flag _ _ _ _ _ H)] |]);
    pose proof (QT_Insert_fuel_outcome _ _ _ _ H) as Ho;
    inversion Ho as [Hc E| Hc Hr E | g Hc Hr Hg Hgr E
                     | n' bs1 bs En Hc Hr Hl Hd H0 Hpd Hif E
                     | n' bs1 bs g En Hc Hr Hl Hd H0 Hpd Hif Hgr E]; subst;
    try exact Hqt;
    try (constructor; [exact Hown | exact Hb]);
    try (constructor; [exact Hown|];
         apply grow_Ok in Hgr; destruct Hgr as [-> _]; exact Hb);
    try discriminate;
    injection En as <-;
    (assert (Hbs : Forall (every_node holds_own) bs);
     [ eapply insert_first_inv; [exact IH| |exact Hif];
       eapply push_down_inv; [exact IH| |exact Hpd];
       unfold fresh; apply Forall_map, Forall_forall; intros q _;
       constructor; constructor |]).
  - constructor; [exact Hown | exact Hbs].
  - constructor; [exact Hown|].
    apply grow_Ok in Hgr. destruct Hgr as [-> _]. exact Hbs.
Qed.

(** ** Roomy leaves and the push-down loop *)

Lemma QT_Insert_fuel_room n c o :
  has_room c = true ->
  QT_Insert_fuel n c o =
  Ok (if BoundaryContains (boundary c) (obj_pos o)
      then (append_object c o, true) else (c, false)).
Proof.
  intros Hr. destruct n; cbn [QT_Insert_fuel]; rewrite Hr;
    destruct (BoundaryContains _ _); reflexivity.
Qed.

Lemma leaf_with_room qt q l :
  Z.of_nat (length l) < capacity qt -> has_room (leaf_with qt q l) = true.
Proof.
  intros H. unfold has_room, obj_count. cbn. rewrite andb_true_r.
  now apply Z.ltb_lt.
Qed.

Lemma leaf_with_append qt q l o :
  append_object (leaf_with qt q l) o = leaf_with qt q (l ++ [o]).
Proof. reflexivity. Qed.

(** The push-down loop on four roomy branches: each object joins the buffer
    of the first quadrant that contains it, and no other; an object no
    quadrant contains joins none. *)
Lemma push_down_lands n qt : forall l a0 a1 a2 a3,
  let b := boundary qt in
  Z.of_nat (length a0 + length l) <= capacity qt ->
  Z.of_nat (length a1 + length l) <= capacity qt ->
  Z.of_nat (length a2 + length l) <= capacity qt ->
  Z.of_nat (length a3 + length l) <= capacity qt ->
  push_down (QT_Insert_fuel n)
            [leaf_with qt (b_northwest b) a0; leaf_with qt (b_southwest b) a1;
             leaf_with qt (b_northeast b) a2; leaf_with qt (b_southeast b) a3] l
  = Ok [leaf_with qt (b_northwest b) (a0 ++ filter (lands b 0) l);
        leaf_with qt (b_southwest b) (a1 ++ filter (lands b 1) l);
        leaf_with qt (b_northeast b) (a2 ++ filter (lands b 2) l);
        leaf_with qt (b_southeast b) (a3 ++ filter (lands b 3) l)].
Proof.
  intros l. induction l as [|o rest IH]; intros a0 a1 a2 a3 b H0 H1 H2 H3.
  - cbn. now rewrite !app_nil_r.
  - cbn [length] in *. cbn [push_down insert_first filter].
    unfold lands, picks. cbn [quadrants first_match]. fold b.
    rewrite !QT_Insert_fuel_room by (apply leaf_with_room; lia).
    rewrite !leaf_with_append. cbn [boundary leaf_with]. fold (leaf_with qt).
    destruct (BoundaryContains (b_northwest b) (obj_pos o));
      [|destruct (BoundaryContains (b_southwest b) (obj_pos o));
        [|destruct (BoundaryContains (b_northeast b) (obj_pos o));
          [|destruct (BoundaryContains (b_southeast b) (obj_pos o))]]];
      cbn [option_map Nat.eqb bind fst snd];
      rewrite IH by (rewrite ?length_app; cbn [length]; lia);
      now rewrite <- ?app_assoc, ?app_nil_r.
Qed.

Lemma push_down_fresh n qt :
  obj_count qt <= capacity qt ->
  push_down (QT_Insert_fuel n) (fresh qt) (buffer qt)
  = Ok [leaf_with qt (b_northwest (boundary qt)) (filter (lands (boundary qt) 0) (buffer qt));
        leaf_with qt (b_southwest (boundary qt)) (filter (lands (boundary qt) 1) (buffer qt));
        leaf_with qt (b_northeast (boundary qt)) (filter (lands (boundary qt) 2) (buffer qt));
        leaf_with qt (b_southeast (boundary qt)) (filter (lands (boundary qt) 3) (buffer qt))].
Proof.
  intros Hcnt. unfold obj_count in Hcnt.
  change (fresh qt)
    with [leaf_with qt (b_northwest (boundary qt)) [];
          leaf_with qt (b_southwest (boundary qt)) [];
          leaf_with qt (b_northeast (boundary qt)) [];
          leaf_with qt (b_southeast (boundary qt)) []].
  rewrite push_down_lands by (cbn [length]; lia). reflexivity.
Qed.

(** The node [QT_Subdivide] produces from a node whose buffer respects its
    capacity. *)
Lemma QT_Subdivide_result qt :
  0 <= capacity qt -> obj_count qt <= capacity qt ->
  let b := boundary qt in
  QT_Subdivide qt
  = Ok (subdivided qt
          [leaf_with qt (b_northwest b) (filter (lands b 0) (buffer qt));
           leaf_with qt (b_southwest b) (filter (lands b 1) (buffer qt));
           leaf_with qt (b_northeast b) (filter (lands b 2) (buffer qt));
           leaf_with qt (b_southeast b) (filter (lands b 3) (buffer qt))]).
Proof.
  intros Hcap Hcnt b. unfold QT_Subdivide, QT_Subdivide_with.
  rewrite fresh_branches_eq.
  destruct (0 <=? capacity qt) eqn:E; [|apply Z.leb_gt in E; lia].
  cbn [bind]. rewrite push_down_fresh by exact Hcnt. reflexivity.
Qed.

Lemma filter_length {A} (f : A -> bool) l : (length (filter f l) <= length l)%nat.
Proof.
  induction l as [|a l IH]; cbn [filter length]; [lia|].
  destruct (f a); cbn [length]; lia.
Qed.

(** ** Calls that return *)

Section LoopsReturn.
Variable ins : Inserter.
Variable Inv : QuadTree -> Prop.
Hypothesis ins_returns : forall c o, Inv c -> exists r, ins c o = Ok r.

Lemma insert_first_returns bs o :
  Forall Inv bs -> exists r, insert_first ins bs o = Ok r.
Proof.
  induction 1 as [|c rest Hc Hrest IH]; cbn [insert_first]; eauto.
  destruct (ins_returns c o Hc) as [[c' []] ->]; cbn [bind fst snd]; eauto.
  destruct IH as [[rest' r'] ->]. cbn [bind]. eauto.
Qed.
End LoopsReturn.

(** A call on a node that respects its capacity returns as soon as the
    capacity can be doubled within [int]. *)
Lemma QT_Insert_fuel_returns n : forall qt obj,
  fuelled n qt -> 1 <= capacity qt -> 2 * capacity qt <= INT_MAX ->
  obj_count qt <= capacity qt ->
  exists r, QT_Insert_fuel n qt obj = Ok r.
Proof.
  induction n as [|n IH]; intros qt obj Hn H1 H2 Hcnt; cbn [QT_Insert_fuel];
    destruct (negb _); eauto; destruct (has_room qt); eauto;
    destruct (QT_IsLeaf qt && (depth qt <=? QT_MAX_DEPTH)) eqn:Eg;
    try (rewrite grow_returns by assumption; cbn [bind]; eauto);
    apply andb_true_iff in Eg; destruct Eg as [_ Ed]; apply Z.leb_le in Ed.
  - unfold fuelled, fuel_for, QT_MAX_DEPTH in *. lia.
  - unfold QT_Subdivide_with. rewrite fresh_branches_eq.
    destruct (0 <=? capacity qt) eqn:E0; [|apply Z.leb_gt in E0; lia].
    cbn [bind]. rewrite push_down_fresh by exact Hcnt. cbn [bind branches].
    set (L := [leaf_with qt (b_northwest (boundary qt)) _; _; _; _]).
    assert (HL : Forall (fun c => fuelled n c /\ capacity c = capacity qt /\
                                  obj_count c <= capacity qt) L).
    { assert (Hlen : forall f, Z.of_nat (length (filter f (buffer qt))) <= capacity qt).
      { intros f. pose proof (filter_length f (buffer qt)).
        unfold obj_count in Hcnt. lia. }
      repeat constructor; cbn [capacity leaf_with];
        try (unfold obj_count; cbn [buffer objects leaf_with]; apply Hlen);
        unfold fuelled, fuel_for, QT_MAX_DEPTH in *; cbn [depth leaf_with]; lia. }
    clearbody L.
    assert (Hret : forall c o,
               fuelled n c /\ capacity c = capacity qt /\ obj_count c <= capacity qt ->
               exists r, QT_Insert_fuel n c o = Ok r).
    { intros c o [Hf [Hc Ho]]. apply IH; [exact Hf| | |]; rewrite Hc; assumption. }
    destruct (insert_first_returns _ _ Hret L obj HL) as [[bs []] ->];
      cbn [bind fst snd]; eauto.
    rewrite grow_returns by assumption. cbn [bind]. eauto.
Qed.

Lemma QT_Insert_returns qt obj :
  1 <= capacity qt -> 2 * capacity qt <= INT_MAX -> obj_count qt <= capacity qt ->
  exists qt' r, QT_Insert qt obj = Ok (qt', r).
Proof.
  intros H1 H2 H3.
  destruct (QT_Insert_fuel_returns (fuel_for qt) qt obj) as [[qt' r] E]; eauto.
  unfold fuelled. lia.
Qed.

(** ** Range query *)

Lemma QT_Query_unfold qt query results :
  QT_Query qt query results =
  if negb (BoundaryIntersects (boundary qt) query) then (results, false)
  else (fold_left (fun acc c => fst (QT_Query c query acc)) (branches qt)
          (results ++ filter (fun o => BoundaryContains query (obj_pos o)) (buffer qt)),
        true).
Proof. destruct qt as [b o c d [|c0 bs]]; reflexivity. Qed.

Lemma QT_Query_fold region bs :
  Forall (fun c => forall acc,
              QT_Query c region acc
              = (acc ++ found c region, snd (QT_Query c region []))) bs ->
  forall acc,
    fold_left (fun acc c => fst (QT_Query c region acc)) bs acc
    = acc ++ flat_map (fun c => found c region) bs.
Proof.
  induction 1 as [|c rest Hc Hrest IH]; intros acc; cbn [fold_left flat_map].
  - now rewrite app_nil_r.
  - rewrite Hc. cbn [fst]. rewrite IH. now rewrite app_assoc.
Qed.

Lemma QT_Query_append region qt : forall acc,
  QT_Query qt region acc = (acc ++ found qt region, snd (QT_Query qt region [])).
Proof.
  induction qt as [b o c d bs IH] using QuadTree_ind. intros acc.
  unfold found. rewrite !(QT_Query_unfold _ region).
  destruct (negb _); cbn [fst snd]; [now rewrite app_nil_r|].
  rewrite !(QT_Query_fold region _ IH). cbn [app]. now rewrite <- app_assoc.
Qed.

Lemma found_unfold qt region :
  found qt region
  = if BoundaryIntersects (boundary qt) region
    then filter (accepted region) (buffer qt)
         ++ flat_map (fun c => found c region) (branches qt)
    else [].
Proof.
  unfold found at 1. rewrite QT_Query_unfold.
  destruct (BoundaryIntersects _ _); cbn [negb fst]; [|reflexivity].
  rewrite (QT_Query_fold region).
  - reflexivity.
  - apply Forall_forall. intros c _. apply QT_Query_append.
Qed.

Lemma Permutation_filter {A} (f : A -> bool) l l' :
  Permutation l l' -> Permutation (filter f l) (filter f l').
Proof.
  induction 1 as [|a l l' _ IH|a a' l|l l' l'' _ IH1 _ IH2]; cbn [filter].
  - constructor.
  - destruct (f a); [now constructor | exact IH].
  - destruct (f a), (f a'); try reflexivity. apply perm_swap.
  - now transitivity (filter f l').
Qed.

Lemma filter_none {A} (f : A -> bool) l :
  Forall (fun a => f a = false) l -> filter f l = [].
Proof.
  induction 1 as [|a l Ha Hl IH]; cbn; [reflexivity|]. now rewrite Ha.
Qed.

Lemma filter_split {A} (f : A -> bool) l :
  Permutation (filter f l ++ filter (fun a => negb (f a)) l) l.
Proof.
  induction l as [|a l IH]; cbn [filter]; [constructor|].
  destruct (f a); cbn [negb app].
  - now constructor.
  - symmetry. apply Permutation_cons_app. now symmetry.
Qed.

(** On any tree at all, what a query finds lies in the region and is part
    of what the tree stores. *)
Lemma found_sound region qt :
  Forall (fun o => accepted region o = true) (found qt region) /\
  exists rest, Permutation (found qt region ++ rest) (all_objects qt).
Proof.
  induction qt as [b o c d bs IH] using QuadTree_ind.
  rewrite found_unfold, all_objects_unfold. cbn [boundary branches].
  set (buf := buffer (mkQuadTree b o c d bs)). clearbody buf.
  assert (Hkids : Forall (fun o => accepted region o = true)
                         (flat_map (fun c => found c region) bs) /\
                  exists rest, Permutation
                                 (flat_map (fun c => found c region) bs ++ rest)
                                 (flat_map all_objects bs)).
  { induction IH as [|c0 rest0 [Hin0 [r0 Hp0]] _ [HinR [rR HpR]]]; cbn [flat_map].
    - split; [constructor | exists []; constructor].
    - split; [apply Forall_app; now split|].
      exists (r0 ++ rR). rewrite <- Hp0, <- HpR, <- !app_assoc.
      apply Permutation_app_head. rewrite !app_assoc.
      apply Permutation_app_tail, Permutation_app_comm. }
  destruct Hkids as [HinK [rK HpK]].
  destruct (BoundaryIntersects b region).
  - split.
    + apply Forall_app. split; [|exact HinK].
      apply Forall_forall. intros p Hp. now apply filter_In in Hp.
    + exists (filter (fun p => negb (accepted region p)) buf ++ rK).
      rewrite <- HpK, <- !app_assoc. rewrite (app_assoc _ (filter _ buf)).
      rewrite (Permutation_app_comm (flat_map _ bs)), <- !app_assoc.
      rewrite app_assoc. apply Permutation_app_tail.
      apply filter_split.
  - split; [constructor|]. exists (buf ++ flat_map all_objects bs). reflexivity.
Qed.

(** ** Sequences of insertions *)

Lemma QT_New_eq b cap :
  QT_New b cap = if 0 <=? cap then Ok (new_root b cap) else Exited.
Proof. reflexivity. Qed.

Lemma QT_Insert_frame qt obj qt' r :
  QT_Insert qt obj = Ok (qt', r) ->
  boundary qt' = boundary qt /\ depth qt' = depth qt.
Proof. apply QT_Insert_fuel_frame. Qed.

Lemma insert_all_cons qt o rest qt' rs :
  insert_all qt (o :: rest) = Ok (qt', rs) ->
  exists qt1 r rs',
    QT_Insert qt o = Ok (qt1, r) /\ insert_all qt1 rest = Ok (qt', rs') /\
    rs = r :: rs'.
Proof.
  cbn [insert_all]. intros H.
  apply bind_Ok in H. destruct H as [[qt1 r] [E H]].
  apply bind_Ok in H. destruct H as [[qt2 rs'] [E' [= <- <-]]].
  cbn [fst snd] in *. exists qt1, r, rs'. auto.
Qed.

Lemma build_Ok b cap objs qt rs :
  build b cap objs = Ok (qt, rs) ->
  0 <= cap /\ insert_all (new_root b cap) objs = Ok (qt, rs).
Proof.
  unfold build. rewrite QT_New_eq.
  destruct (0 <=? cap) eqn:E; cbn [bind]; [|discriminate].
  apply Z.leb_le in E. auto.
Qed.

Lemma build_eq b cap objs :
  0 <= cap -> build b cap objs = insert_all (new_root b cap) objs.
Proof.
  intros H. unfold build. rewrite QT_New_eq.
  destruct (0 <=? cap) eqn:E; [reflexivity | apply Z.leb_gt in E; lia].
Qed.

Lemma insert_all_every P :
  (forall n qt obj qt' r,
      every_node P qt -> QT_Insert_fuel n qt obj = Ok (qt', r) ->
      every_node P qt') ->
  forall objs qt qt' rs,
    every_node P qt -> insert_all qt objs = Ok (qt', rs) -> every_node P qt'.
Proof.
  intros Hstep. induction objs as [|o rest IH]; intros qt qt' rs Hqt H.
  - now injection H as <- <-.
  - apply insert_all_cons in H. destruct H as [qt1 [r [rs' [E [E' ->]]]]].
    eapply IH; [|exact E']. eapply Hstep; eauto.
Qed.

Lemma insert_all_frame objs : forall qt qt' rs,
  insert_all qt objs = Ok (qt', rs) ->
  boundary qt' = boundary qt /\ depth qt' = depth qt.
Proof.
  induction objs as [|o rest IH]; intros qt qt' rs H.
  - injection H as <- <-. auto.
  - apply insert_all_cons in H. destruct H as [qt1 [r [rs' [E [E' ->]]]]].
    apply QT_Insert_frame in E. apply IH in E'.
    destruct E, E'. split; congruence.
Qed.

Lemma insert_all_ends objs : forall qt, ends (insert_all qt objs).
Proof.
  induction objs as [|o rest IH]; intros qt; cbn [insert_all]; [discriminate|].
  apply bind_ends; [apply QT_Insert_ends|]. intros [qt1 r] _.
  apply bind_ends; [apply IH | discriminate].
Qed.

Lemma build_ends b cap objs : ends (build b cap objs).
Proof.
  unfold build. apply bind_ends.
  - unfold QT_New. destruct (0 <=? cap); discriminate.
  - intros root _. apply insert_all_ends.
Qed.


(** ** Sequences that return *)

Lemma vector_ok_insert cap n qt obj qt' r :
  0 <= cap ->
  vector_ok cap qt -> QT_Insert_fuel n qt obj = Ok (qt', r) ->
  vector_ok cap qt' /\ obj_count qt' <= obj_count qt + 1.
Proof.
  intros Hcap0 Hv H. pose proof (QT_Insert_fuel_outcome _ _ _ _ H) as Ho.
  destruct Hv as [Hc [Hn [Hb [Hd Hl]]]].
  inversion Ho as [Hin E| Hin Hr E | g Hin Hr Hg Hgr E
                   | n' bs1 bs En Hin Hr Hlf Hdp H0 Hpd Hif E
                   | n' bs1 bs g En Hin Hr Hlf Hdp H0 Hpd Hif Hgr E]; subst.
  - split; [|lia]. unfold vector_ok. auto.
  - pose proof (has_room_lt _ Hr) as Hlt.
    unfold vector_ok. rewrite obj_count_append.
    cbn [capacity append_object depth].
    split; [|lia]. split; [lia|]. split; [lia|]. split; [lia|]. split.
    + exact Hd.
    + intros [Hq|Hq]; [apply Hl; now left | discriminate].
  - assert (Hnl : QT_IsLeaf qt = false).
    { destruct (QT_IsLeaf qt) eqn:El; [|reflexivity].
      cbn [andb] in Hg. apply Z.leb_gt in Hg. specialize (Hd eq_refl). lia. }
    destruct (grow_cap_ok _ _ (conj Hc Hn) Hgr) as [-> Hle].
    unfold vector_ok. rewrite obj_count_append.
    unfold obj_count in *. cbn [capacity append_object depth buffer objects].
    fold (buffer qt).
    assert (Hcap : capacity qt <= cap \/ capacity qt <= Z.of_nat (length (buffer qt))).
    { unfold has_room in Hr. apply andb_false_iff in Hr. destruct Hr as [Hr|Hr].
      - right. apply Z.ltb_ge in Hr. unfold obj_count in Hr. exact Hr.
      - left. apply Hl. now right. }
    split; [|lia]. split; [lia|]. split; [lia|]. split; [lia|]. split.
    + unfold QT_IsLeaf in *. cbn [branches append_object]. intros Hq. congruence.
    + unfold QT_IsLeaf, has_buffer in *. cbn [branches objects append_object].
      intros [Hq|Hq]; congruence.
  - specialize (Hl (or_introl Hlf)).
    unfold vector_ok, obj_count, QT_IsLeaf, has_buffer.
    cbn [capacity subdivided depth buffer objects branches length].
    split; [|lia]. split; [lia|]. split; [lia|]. split; [lia|]. split.
    + intros _. exact Hdp.
    + intros _. exact Hl.
  - specialize (Hl (or_introl Hlf)).
    assert (Hs : cap_ok (subdivided qt bs)).
    { unfold cap_ok, obj_count. cbn. lia. }
    destruct (grow_cap_ok _ _ Hs Hgr) as [-> Hle].
    pose proof (placed_length _ _ (routed_placed _ _ _ _ _ _ Hpd Hif)) as Hlen.
    unfold vector_ok. rewrite obj_count_append.
    unfold obj_count, QT_IsLeaf, has_buffer.
    cbn [capacity subdivided append_object depth buffer objects branches length] in *.
    destruct bs; [discriminate|].
    split; [|lia]. split; [lia|]. split; [lia|]. split; [lia|]. split.
    + discriminate.
    + intros [Hq|Hq]; discriminate.
Qed.

Lemma insert_all_returns cap objs : forall qt k,
  0 <= cap ->
  vector_ok cap qt -> obj_count qt <= k ->
  4 * (cap + k + Z.of_nat (length objs)) <= INT_MAX ->
  exists qt' rs, insert_all qt objs = Ok (qt', rs).
Proof.
  induction objs as [|o rest IH]; intros qt k Hcap0 Hv Hk Hb; cbn [insert_all]; eauto.
  cbn [length] in Hb.
  destruct Hv as [Hc [Hn [Hcap [Hd Hl]]]].
  destruct (QT_Insert_returns qt o) as [qt1 [r E]]; try lia.
  rewrite E. cbn [bind fst snd].
  destruct (vector_ok_insert cap _ _ _ _ _ Hcap0
              (conj Hc (conj Hn (conj Hcap (conj Hd Hl)))) E) as [Hv1 Hk1].
  destruct (IH qt1 (k + 1) Hcap0 Hv1) as [qt2 [rs E2]]; try lia.
  rewrite E2. cbn [bind fst snd]. eauto.
Qed.

Lemma vector_ok_new b cap : 1 <= cap <= INT_MAX -> vector_ok cap (new_root b cap).
Proof.
  intros H. unfold vector_ok, obj_count, QT_MAX_DEPTH, new_root.
  cbn [capacity buffer objects length depth].
  split; [lia|]. split; [lia|]. split; [lia|]. split; intros _; lia.
Qed.

Lemma build_returns b cap objs :
  1 <= cap -> 4 * (cap + Z.of_nat (length objs)) <= INT_MAX ->
  exists qt rs, build b cap objs = Ok (qt, rs).
Proof.
  intros H1 H2. rewrite build_eq by lia.
  apply (insert_all_returns cap objs _ 0).
  - lia.
  - apply vector_ok_new. unfold INT_MAX in *. lia.
  - unfold obj_count. cbn. lia.
  - lia.
Qed.

(** ** Internal nodes *)

Lemma QT_Insert_on_internal qt obj qt' r :
  QT_IsLeaf qt = false -> QT_Insert qt obj = Ok (qt', r) ->
  r = accepted (boundary qt) obj /\
  boundary qt' = boundary qt /\
  branches qt' = branches qt /\
  buffer qt' = buffer qt ++ added r obj.
Proof.
  intros Hl E. apply QT_Insert_fuel_outcome in E.
  inversion E as [Hin E'| Hin Hr E' | g Hin Hr Hg Hgr E'
                  | n' bs1 bs En Hin Hr Hlf Hdp H0 Hpd Hif E'
                  | n' bs1 bs g En Hin Hr Hlf Hdp H0 Hpd Hif Hgr E']; subst;
    unfold accepted; try congruence;
    try (apply grow_Ok in Hgr; destruct Hgr as [-> _]);
    cbn [boundary branches buffer objects append_object added];
    rewrite Hin, ?app_nil_r; auto.
Qed.

Lemma insert_all_on_internal objs : forall qt qt' rs,
  QT_IsLeaf qt = false ->
  insert_all qt objs = Ok (qt', rs) ->
  rs = map (accepted (boundary qt)) objs /\
  boundary qt' = boundary qt /\
  branches qt' = branches qt /\
  buffer qt' = buffer qt ++ filter (accepted (boundary qt)) objs.
Proof.
  induction objs as [|o rest IH]; intros qt qt' rs Hl H.
  - injection H as <- <-. cbn. now rewrite app_nil_r.
  - apply insert_all_cons in H. destruct H as [qt1 [r [rs' [E [E' ->]]]]].
    destruct (QT_Insert_on_internal _ _ _ _ Hl E) as [Hr [Eb [Ebr Ebuf]]].
    assert (Hl1 : QT_IsLeaf qt1 = false) by (unfold QT_IsLeaf in *; now rewrite Ebr).
    destruct (IH qt1 _ _ Hl1 E') as [-> [Eb2 [Ebr2 Ebuf2]]].
    rewrite Eb in *. cbn [map filter]. rewrite <- Hr.
    repeat split; try congruence.
    rewrite Ebuf2, Ebuf, <- app_assoc. f_equal. destruct r; reflexivity.
Qed.

Lemma insert_all_with_room b cap d objs : forall l,
  Z.of_nat (length l + length objs) <= cap ->
  Forall (fun o => BoundaryContains b (obj_pos o) = true) objs ->
  insert_all (mkQuadTree b (Some l) cap d []) objs
  = Ok (mkQuadTree b (Some (l ++ objs)) cap d [], map (fun _ => true) objs).
Proof.
  induction objs as [|o rest IH]; intros l Hlen Hin; cbn [insert_all map].
  - now rewrite app_nil_r.
  - inversion Hin as [|? ? Ho Hrest]; subst. cbn [length] in Hlen.
    unfold QT_Insert. rewrite QT_Insert_fuel_room.
    + cbn [boundary]. rewrite Ho. unfold append_object.
      cbn [boundary buffer objects capacity depth branches bind fst snd].
      rewrite IH; [cbn [bind fst snd]; now rewrite <- app_assoc
                  | rewrite length_app; cbn [length]; lia | exact Hrest].
    + unfold has_room, obj_count. cbn. rewrite andb_true_r. apply Z.ltb_lt. lia.
Qed.

(** ** Depth and size *)



Lemma node_count_unfold qt :
  node_count qt
  = S (fold_right (fun c acc => (node_count c + acc)%nat) O (branches qt)).
Proof. destruct qt; reflexivity. Qed.

(** A loop over the branches changes at most the branch that accepts. *)
Lemma insert_first_changes_one n bs o bs' r :
  insert_first (QT_Insert_fuel n) bs o = Ok (bs', r) ->
  (r = false /\ bs' = bs) \/
  (exists pre c c' post,
      bs = pre ++ c :: post /\ bs' = pre ++ c' :: post /\
      Forall (fun k => BoundaryContains (boundary k) (obj_pos o) = false) pre /\
      QT_Insert_fuel n c o = Ok (c', true)).
Proof.
  revert bs' r. induction bs as [|c rest IH]; cbn [insert_first]; intros bs' r.
  - intros [= <- <-]. now left.
  - destruct (QT_Insert_fuel n c o) as [[c' rc]| |] eqn:E; cbn [bind fst snd];
      try discriminate.
    destruct rc.
    + intros [= <- <-]. right. exists [], c, c', rest. auto.
    + pose proof (QT_Insert_fuel_outcome _ _ _ _ E) as Ho.
      pose proof (insert_outcome_rejected _ _ _ _ Ho eq_refl) as Hsame.
      pose proof (insert_outcome_flag _ _ _ _ Ho) as Hflag.
      cbn [fst snd] in Hsame, Hflag. subst c'.
      destruct (insert_first (QT_Insert_fuel n) rest o) as [[rest' r']| |];
        cbn [bind fst snd]; try discriminate.
      intros [= <- <-].
      destruct (IH _ _ eq_refl) as [[-> ->] | [pre [c1 [c1' [post [-> [-> [Hpre E1]]]]]]]].
      * now left.
      * right. exists (c :: pre), c1, c1', post. repeat split; auto.
Qed.

Lemma one_internal_branch_leaf qt :
  QT_IsLeaf qt = true -> one_internal_branch qt.
Proof.
  unfold one_internal_branch. intros H. rewrite (leaf_no_branches _ H). cbn. lia.
Qed.

Lemma one_internal_branch_insert n : forall qt obj qt' r,
  every_node cap_ok qt -> every_node one_internal_branch qt ->
  QT_Insert_fuel n qt obj = Ok (qt', r) ->
  every_node one_internal_branch qt'.
Proof.
  induction n as [|n IH]; intros qt obj qt' r Hcap Hqt H;
    pose proof (QT_Insert_fuel_outcome _ _ _ _ H) as Ho;
    pose proof (every_node_here _ _ Hqt) as Hp;
    pose proof (every_node_branches _ _ Hqt) as Hb;
    inversion Ho as [Hc E| Hc Hr E | g Hc Hr Hg Hgr E
                     | n' bs1 bs En Hc Hr Hl Hd H0 Hpd Hif E
                     | n' bs1 bs g En Hc Hr Hl Hd H0 Hpd Hif Hgr E]; subst;
    try (constructor; cbn [branches]; now auto);
    try (apply grow_Ok in Hgr; destruct Hgr as [-> _];
         constructor; cbn [branches append_object]; now auto);
    try discriminate;
    injection En as <-;
    pose proof (every_node_here _ _ Hcap) as [Hcap1 Hcnt];
    rewrite (push_down_fresh n qt Hcnt) in Hpd; injection Hpd as <-;
    set (L := [leaf_with qt (b_northwest (boundary qt)) _; _; _; _]) in *;
    (assert (HL : Forall (fun c => QT_IsLeaf c = true /\ every_node cap_ok c) L);
     [ assert (Hlen : forall f, Z.of_nat (length (filter f (buffer qt))) <= capacity qt)
         by (intros f; pose proof (filter_length f (buffer qt));
             unfold obj_count in Hcnt; lia);
       repeat constructor; cbn [capacity leaf_with]; try apply Hcap1;
       unfold obj_count; cbn [buffer objects leaf_with]; apply Hlen |]);
    clearbody L;
    (assert (Hleaves : forall l,
                Forall (fun c => QT_IsLeaf c = true /\ every_node cap_ok c) l ->
                Forall (every_node one_internal_branch) l /\
                filter (fun c => negb (QT_IsLeaf c)) l = []);
     [ intros l Hl0; split;
       [ eapply Forall_impl; [|exact Hl0]; intros c0 [Hl1 _];
         apply every_node_leaf; [now apply one_internal_branch_leaf | exact Hl1]
       | apply filter_none; eapply Forall_impl; [|exact Hl0];
         intros c0 [-> _]; reflexivity ] |]);
    (assert (Hbs : Forall (every_node one_internal_branch) bs /\
                   one_internal_branch (subdivided qt bs));
     [ destruct (insert_first_changes_one _ _ _ _ _ Hif)
         as [[_ ->] | [pre [c [c' [post [-> [-> [_ E1]]]]]]]];
       [ destruct (Hleaves L HL) as [HA HB]; split; [exact HA|];
         unfold one_internal_branch; cbn [branches subdivided];
         rewrite HB; cbn; lia
       | apply Forall_app in HL; destruct HL as [Hpre HL];
         inversion HL as [|? ? [Hlc Hcc] Hpost]; subst;
         destruct (Hleaves pre Hpre) as [Hpre1 Hpre2];
         destruct (Hleaves post Hpost) as [Hpost1 Hpost2];
         split;
         [ apply Forall_app; split; [exact Hpre1|]; constructor; [|exact Hpost1];
           apply (IH c obj c' true Hcc); [|exact E1];
           apply every_node_leaf; [now apply one_internal_branch_leaf | exact Hlc]
         | unfold one_internal_branch; cbn [branches subdivided];
           rewrite filter_app, Hpre2; cbn [app filter];
           destruct (negb (QT_IsLeaf c')); rewrite Hpost2; cbn; lia ] ] |]);
    destruct Hbs as [Hbs HQ].
  - constructor; cbn [branches subdivided]; auto.
  - apply grow_Ok in Hgr. destruct Hgr as [-> _].
    constructor; cbn [branches append_object subdivided]; auto.
Qed.

Lemma leaf_node_count qt : QT_IsLeaf qt = true -> node_count qt = 1%nat.
Proof.
  intros H. rewrite node_count_unfold, (leaf_no_branches _ H). reflexivity.
Qed.

(** A subtree rooted on level [d] is a chain of at most [QT_MAX_DEPTH + 1 - d]
    subdivided nodes, each with three leaves beside the chain. *)
Lemma node_count_bound qt :
  every_node one_internal_branch qt -> every_node branches_ok qt ->
  (node_count qt <= 1 + 4 * Z.to_nat (QT_MAX_DEPTH + 1 - depth qt))%nat.
Proof.
  induction qt as [b o c d bs IH] using QuadTree_ind. intros Hone Hbr.
  pose proof (every_node_here _ _ Hone) as H1.
  pose proof (every_node_branches _ _ Hone) as Hb1.
  pose proof (every_node_here _ _ Hbr) as [Hnil | [Hd Hpl]].
  { cbn [branches] in Hnil. subst bs. cbn. lia. }
  pose proof (every_node_branches _ _ Hbr) as Hb2.
  pose proof (placed_length _ _ Hpl) as Hlen. destruct Hpl as [_ Hdepth].
  unfold one_internal_branch in H1. cbn [branches depth] in *.
  destruct bs as [|c0 [|c1 [|c2 [|c3 [|]]]]]; try discriminate.
  assert (Hkid : forall k, In k [c0; c1; c2; c3] ->
             (QT_IsLeaf k = true /\ node_count k = 1%nat) \/
             (QT_IsLeaf k = false /\
              (node_count k <= 1 + 4 * Z.to_nat (QT_MAX_DEPTH - d))%nat)).
  { intros k Hk. destruct (QT_IsLeaf k) eqn:El; [left; split; auto using leaf_node_count|].
    right. split; [reflexivity|].
    rewrite Forall_forall in IH, Hb1, Hb2, Hdepth.
    pose proof (IH k Hk (Hb1 k Hk) (Hb2 k Hk)) as Hk'. rewrite (Hdepth k Hk) in Hk'.
    replace (QT_MAX_DEPTH + 1 - (d + 1)) with (QT_MAX_DEPTH - d) in Hk' by lia.
    exact Hk'. }
  rewrite node_count_unfold. cbn [branches fold_right].
  cbn [filter] in H1.
  destruct (Hkid c0 ltac:(cbn; tauto)) as [[E0 N0]|[E0 N0]];
    destruct (Hkid c1 ltac:(cbn; tauto)) as [[E1 N1]|[E1 N1]];
    destruct (Hkid c2 ltac:(cbn; tauto)) as [[E2 N2]|[E2 N2]];
    destruct (Hkid c3 ltac:(cbn; tauto)) as [[E3 N3]|[E3 N3]];
    rewrite E0, E1, E2, E3 in H1; cbn [negb length] in H1;
    unfold QT_MAX_DEPTH in *; lia.
Qed.

(** ** Floats and the numbers they stand for *)

Lemma digits2_pos_bounds m :
  2 ^ (Zpos (digits2_pos m) - 1) <= Zpos m < 2 ^ Zpos (digits2_pos m).
Proof.
  induction m as [p IH|p IH|]; cbn [digits2_pos].
  - rewrite Pos2Z.inj_succ, Z.pow_succ_r by lia.
    replace (Z.succ (Zpos (digits2_pos p)) - 1)
      with (Z.succ (Zpos (digits2_pos p) - 1)) by lia.
    rewrite Z.pow_succ_r by lia. lia.
  - rewrite Pos2Z.inj_succ, Z.pow_succ_r by lia.
    replace (Z.succ (Zpos (digits2_pos p)) - 1)
      with (Z.succ (Zpos (digits2_pos p) - 1)) by lia.
    rewrite Z.pow_succ_r by lia. lia.
  - cbn. lia.
Qed.

(** A mantissa and exponent in proper form: at most 24 bits, exactly 24
    unless the exponent is the smallest one. *)
Lemma bounded_spec m e :
  bounded prec emax m e = true <->
  Zpos (digits2_pos m) <= 24 /\ -149 <= e <= 104 /\
  (Zpos (digits2_pos m) = 24 \/ e = -149).
Proof.
  unfold bounded, canonical_mantissa, fexp, emin, prec, emax.
  rewrite andb_true_iff, Z.eqb_eq, Z.leb_le. lia.
Qed.

Lemma bounded_mantissa m e :
  bounded prec emax m e = true ->
  -149 <= e /\ Zpos m < 16777216 /\ (e = -149 \/ 8388608 <= Zpos m).
Proof.
  intros H. apply bounded_spec in H. destruct H as [Hd [He Hc]].
  pose proof (digits2_pos_bounds m) as [Hlo Hhi].
  split; [lia|]. split.
  - apply Z.lt_le_trans with (1 := Hhi).
    change 16777216 with (2 ^ 24). apply Z.pow_le_mono_r; lia.
  - destruct Hc as [Hc|Hc]; [right | now left].
    rewrite Hc in Hlo. exact Hlo.
Qed.

(** Comparing two positive numbers of binary32 by exponent, then by
    mantissa, compares the numbers. *)
Lemma compare_magnitudes m1 e1 m2 e2 :
  bounded prec emax m1 e1 = true -> bounded prec emax m2 e2 = true ->
  match e1 ?= e2 with
  | Lt => Lt
  | Gt => Gt
  | Eq => Pos.compare_cont Eq m1 m2
  end = (Zpos m1 * 2 ^ (e1 + 149) ?= Zpos m2 * 2 ^ (e2 + 149)).
Proof.
  intros H1 H2.
  apply bounded_mantissa in H1, H2.
  destruct H1 as [He1 [Hm1 Hc1]], H2 as [He2 [Hm2 Hc2]].
  assert (Hstep : forall ma ea mb eb,
             -149 <= ea -> ea < eb -> Zpos ma < 16777216 -> 8388608 <= Zpos mb ->
             Zpos ma * 2 ^ (ea + 149) < Zpos mb * 2 ^ (eb + 149)).
  { intros ma ea mb eb Hea Hlt Hma Hmb.
    replace (eb + 149) with ((ea + 149) + (eb - ea)) by lia.
    rewrite (Z.pow_add_r 2 (ea + 149) (eb - ea)) by lia.
    assert (HA : 0 < 2 ^ (ea + 149)) by (apply Z.pow_pos_nonneg; lia).
    assert (HB : 2 <= 2 ^ (eb - ea)).
    { change 2 with (2 ^ 1) at 1. apply Z.pow_le_mono_r; lia. }
    set (A := 2 ^ (ea + 149)) in *. set (B := 2 ^ (eb - ea)) in *.
    clearbody A B.
    apply Z.lt_le_trans with (16777216 * A); [apply Z.mul_lt_mono_pos_r; lia|].
    replace (16777216 * A) with (8388608 * (A * 2)) by lia.
    apply Z.mul_le_mono_nonneg; try lia.
    apply Z.mul_le_mono_nonneg_l; lia. }
  destruct (Z.compare_spec e1 e2) as [->|Hlt|Hgt].
  - rewrite <- Zmult_compare_compat_r by (apply Z.lt_gt, Z.pow_pos_nonneg; lia).
    reflexivity.
  - symmetry. apply Z.compare_lt_iff. apply Hstep; lia.
  - symmetry. apply Z.compare_gt_iff. apply Hstep; lia.
Qed.

Lemma scaled_sign s m e :
  -149 <= e ->
  (s = true -> scaled (S754_finite s m e) < 0) /\
  (s = false -> 0 < scaled (S754_finite s m e)).
Proof.
  intros He. assert (0 < 2 ^ (e + 149)) by (apply Z.pow_pos_nonneg; lia).
  cbn [scaled]. split; intros ->; cbn [cond_Zopp]; nia.
Qed.

(** On numbers of binary32, the comparison of floats is the comparison of
    the numbers they stand for. *)
Lemma SFcompare_scaled a b :
  finite a = true -> finite b = true ->
  SFcompare a b = Some (scaled a ?= scaled b).
Proof.
  destruct a as [sa|sa| |sa ma ea], b as [sb|sb| |sb mb eb]; cbn [finite];
    try discriminate; intros Ha Hb.
  - reflexivity.
  - pose proof (bounded_mantissa _ _ Hb) as [He _].
    destruct (scaled_sign sb mb eb He) as [Hn Hp].
    cbn [SFcompare scaled] in *. f_equal. symmetry.
    destruct sb; [apply Z.compare_gt_iff; auto | apply Z.compare_lt_iff; auto].
  - pose proof (bounded_mantissa _ _ Ha) as [He _].
    destruct (scaled_sign sa ma ea He) as [Hn Hp].
    cbn [SFcompare scaled] in *. f_equal. symmetry.
    destruct sa; [apply Z.compare_lt_iff; auto | apply Z.compare_gt_iff; auto].
  - pose proof (bounded_mantissa _ _ Ha) as [Hea _].
    pose proof (bounded_mantissa _ _ Hb) as [Heb _].
    destruct (scaled_sign sa ma ea Hea) as [Hna Hpa].
    destruct (scaled_sign sb mb eb Heb) as [Hnb Hpb].
    cbn [SFcompare]. f_equal.
    destruct sa, sb.
    + pose proof (compare_magnitudes _ _ _ _ Ha Hb) as Hm.
      cbn [scaled cond_Zopp].
      rewrite !Z.mul_opp_l, Z.compare_opp.
      rewrite (Z.compare_antisym (Zpos ma * 2 ^ (ea + 149))), <- Hm.
      destruct (ea ?= eb); reflexivity.
    + symmetry. apply Z.compare_lt_iff. specialize (Hna eq_refl).
      specialize (Hpb eq_refl). lia.
    + symmetry. apply Z.compare_gt_iff. specialize (Hpa eq_refl).
      specialize (Hnb eq_refl). lia.
    + rewrite (compare_magnitudes _ _ _ _ Ha Hb). reflexivity.
Qed.

Lemma real_le a b : (real a <= real b)%Q <-> scaled a <= scaled b.
Proof.
  unfold real, Qle. cbn [Qnum Qden].
  split; intros H; [apply Z.mul_le_mono_pos_r in H|apply Z.mul_le_mono_pos_r]; lia.
Qed.

Lemma real_lt a b : (real a < real b)%Q <-> scaled a < scaled b.
Proof.
  unfold real, Qlt. cbn [Qnum Qden].
  split; intros H; [apply Z.mul_lt_mono_pos_r in H|apply Z.mul_lt_mono_pos_r]; lia.
Qed.

Lemma fle_real a b :
  finite a = true -> finite b = true ->
  (fle a b = true <-> (real a <= real b)%Q).
Proof.
  intros Ha Hb. unfold fle, SFleb. rewrite (SFcompare_scaled _ _ Ha Hb), real_le.
  destruct (Z.compare_spec (scaled a) (scaled b)); split; try discriminate;
    try reflexivity; lia.
Qed.

Lemma fge_real a b :
  finite a = true -> finite b = true ->
  (fge a b = true <-> (real b <= real a)%Q).
Proof. intros Ha Hb. unfold fge. now apply fle_real. Qed.

Lemma fgt_real a b :
  finite a = true -> finite b = true ->
  (fgt a b = true <-> (real b < real a)%Q).
Proof.
  intros Ha Hb. unfold fgt, SFltb. rewrite (SFcompare_scaled _ _ Hb Ha), real_lt.
  destruct (Z.compare_spec (scaled b) (scaled a)); split; try discriminate;
    try reflexivity; lia.
Qed.

Lemma finite_fabs a : finite a = true -> finite (fabs a) = true.
Proof. destruct a; cbn; auto. Qed.

Lemma finite_vec_true v :
  finite_vec v = true -> finite (x v) = true /\ finite (y v) = true.
Proof. unfold finite_vec. apply andb_true_iff. Qed.

Lemma finite_boundary_true b :
  finite_boundary b = true ->
  (finite (x (pos b)) = true /\ finite (y (pos b)) = true) /\
  (finite (x (half_dim b)) = true /\ finite (y (half_dim b)) = true).
Proof.
  unfold finite_boundary. rewrite andb_true_iff.
  intros [H1 H2]. split; apply finite_vec_true; assumption.
Qed.

Lemma finite_fabs_inv a : finite (fabs a) = true -> finite a = true.
Proof. destruct a; cbn; auto. Qed.

Lemma real_fabs a : real (fabs a) = Qabs (real a).
Proof.
  destruct a as [s|s| |s m e]; try reflexivity.
  unfold real, Qabs. cbn [fabs SFabs scaled cond_Zopp]. f_equal.
  destruct s; cbn [cond_Zopp]; rewrite ?Z.mul_opp_l, ?Z.abs_opp;
    symmetry; apply Z.abs_eq;
    (apply Z.mul_nonneg_nonneg; [lia | apply Z.pow_nonneg; lia]).
Qed.

(** A comparison with a NaN is false. *)
Lemma fle_nan_l a : fle S754_nan a = false.
Proof. reflexivity. Qed.
Lemma fle_nan_r a : fle a S754_nan = false.
Proof. destruct a; reflexivity. Qed.

(** ** Symmetry of the arithmetic *)

Lemma fadd_comm a b : fadd a b = fadd b a.
Proof.
  destruct a as [sa|sa| |sa ma ea], b as [sb|sb| |sb mb eb]; try reflexivity;
    unfold fadd; cbn [SFadd].
  - destruct sa, sb; reflexivity.
  - destruct sa, sb; reflexivity.
  - rewrite (Z.min_comm ea eb), Z.add_comm. reflexivity.
Qed.

Lemma fabs_binary_round s s' m e :
  SFabs (binary_round prec emax s m e) = SFabs (binary_round prec emax s' m e).
Proof.
  unfold binary_round. destruct (shl_align m e _) as [mz ez].
  unfold binary_round_aux.
  destruct (shr_fexp prec emax (Zpos mz) ez loc_Exact) as [mrs' e'].
  destruct (shr_fexp prec emax _ e' loc_Exact) as [mrs'' e''].
  destruct (shr_m mrs''); try reflexivity.
  destruct (e'' <=? emax - prec); reflexivity.
Qed.

Lemma fabs_binary_normalize_opp z e :
  SFabs (binary_normalize prec emax (- z) e false)
  = SFabs (binary_normalize prec emax z e false).
Proof.
  destruct z as [|p|p]; cbn [Z.opp binary_normalize];
    [reflexivity | apply fabs_binary_round | apply fabs_binary_round].
Qed.

(** The distance of two coordinates does not depend on their order. *)
Lemma fabs_fsub_swap a b : fabs (fsub a b) = fabs (fsub b a).
Proof.
  destruct a as [sa|sa| |sa ma ea], b as [sb|sb| |sb mb eb]; try reflexivity;
    unfold fabs, fsub; cbn [SFsub];
    try (destruct sa, sb; reflexivity).
  rewrite (Z.min_comm eb ea).
  rewrite <- (fabs_binary_normalize_opp (_ - _)). f_equal. f_equal. lia.
Qed.

(** ** Rounding: the mantissa and its shifts *)

Lemma digits2_pos_log2 p : Zpos (digits2_pos p) = Z.log2 (Zpos p) + 1.
Proof.
  pose proof (digits2_pos_bounds p) as [Hlo Hhi].
  assert (H : Z.log2 (Zpos p) = Zpos (digits2_pos p) - 1); [|lia].
  apply Z.log2_unique; [lia|]. split; [exact Hlo|].
  replace (Z.succ (Zpos (digits2_pos p) - 1)) with (Zpos (digits2_pos p)) by lia.
  exact Hhi.
Qed.

Lemma iter_pos_nat {A : Type} (f : A -> A) p : forall a,
  iter_pos f p a = Nat.iter (Pos.to_nat p) f a.
Proof.
  induction p as [p IH|p IH|]; intros a; cbn [iter_pos].
  - rewrite !IH, Pos2Nat.inj_xI.
    replace (2 * Pos.to_nat p)%nat with (Pos.to_nat p + Pos.to_nat p)%nat by lia.
    set (n := Pos.to_nat p).
    change (Nat.iter (S (n + n)) f a) with (f (Nat.iter (n + n) f a)).
    rewrite Nat.iter_add, !Nat.iter_swap. reflexivity.
  - rewrite !IH, Pos2Nat.inj_xO.
    replace (2 * Pos.to_nat p)%nat with (Pos.to_nat p + Pos.to_nat p)%nat by lia.
    rewrite Nat.iter_add. reflexivity.
  - reflexivity.
Qed.

Lemma iter_xO p d : Zpos (Pos.iter xO p d) = Zpos p * 2 ^ Zpos d.
Proof.
  induction d as [|d IH] using Pos.peano_ind.
  - cbn. lia.
  - rewrite Pos.iter_succ, Pos2Z.inj_succ, Z.pow_succ_r by lia.
    rewrite Pos2Z.inj_xO, IH. ring.
Qed.

(** Aligning a mantissa to a smaller exponent keeps the number. *)
Lemma shl_align_scaled m e e' :
  e' <= e -> -149 <= e' ->
  Zpos (fst (shl_align m e e')) * 2 ^ (e' + 149) = Zpos m * 2 ^ (e + 149).
Proof.
  intros Hle He. unfold shl_align.
  destruct (e' - e) as [|d|d] eqn:Ed; cbn [fst].
  - replace e' with e by lia. reflexivity.
  - lia.
  - rewrite iter_xO, <- Z.mul_assoc, <- Z.pow_add_r by lia.
    f_equal. f_equal. lia.
Qed.

(** ** Shifting a mantissa to the right *)

Lemma remainder_location_step (r s b : bool) (m m' rho k : Z) :
  0 <= k -> 0 <= rho < 2 ^ k ->
  loc_of_shr_record (Build_shr_record m r s) = remainder_location rho k ->
  loc_of_shr_record (Build_shr_record m' b (r || s))
  = remainder_location (rho + (if b then 2 ^ k else 0)) (k + 1).
Proof.
  intros Hk Hr Hloc. unfold remainder_location in *.
  rewrite Z.pow_add_r, Z.pow_1_r by lia.
  assert (Hp : 0 < 2 ^ k) by (apply Z.pow_pos_nonneg; lia).
  set (P := 2 ^ k) in *. clearbody P.
  destruct (Z.eqb_spec rho 0) as [->|Hn].
  - destruct r, s; cbn in Hloc; try discriminate.
    destruct b; cbn [orb loc_of_shr_record].
    + destruct (Z.eqb_spec (0 + P) 0); [lia|].
      f_equal. symmetry. apply Z.compare_eq_iff. lia.
    + reflexivity.
  - destruct (Z.eqb_spec (rho + (if b then P else 0)) 0); [destruct b; lia|].
    destruct r, s; cbn in Hloc; try discriminate; destruct b;
      cbn [orb loc_of_shr_record]; f_equal; symmetry;
      first [apply Z.compare_gt_iff; lia | apply Z.compare_lt_iff; lia].
Qed.

Lemma shr_1_shifted m0 k mrs :
  0 <= k -> 0 <= m0 -> shifted m0 k mrs -> shifted m0 (k + 1) (shr_1 mrs).
Proof.
  intros Hk Hm0 [Hm Hloc]. destruct mrs as [m r s]. cbn [shr_m] in Hm.
  assert (Hp : 0 < 2 ^ k) by (apply Z.pow_pos_nonneg; lia).
  pose proof (Z.div_mod m0 (2 ^ k) ltac:(lia)) as Hdm.
  pose proof (Z.mod_pos_bound m0 (2 ^ k) Hp) as Hrho.
  assert (Hm_nonneg : 0 <= m) by (rewrite Hm; apply Z.div_pos; lia).
  rewrite <- Hm in Hdm.
  set (rho := m0 mod 2 ^ k) in *.
  assert (Hkey : forall q (b : bool),
             m = 2 * q + (if b then 1 else 0) ->
             shifted m0 (k + 1) (Build_shr_record q b (r || s))).
  { intros q b Hq. unfold shifted. cbn [shr_m].
    rewrite Z.pow_add_r, Z.pow_1_r by lia.
    assert (Hq' : m0 = 2 ^ k * 2 * q + (rho + (if b then 2 ^ k else 0))).
    { rewrite Hdm, Hq. destruct b; ring. }
    assert (Hb : 0 <= rho + (if b then 2 ^ k else 0) < 2 ^ k * 2)
      by (destruct b; lia).
    split.
    - exact (Z.div_unique_pos _ _ _ _ Hb Hq').
    - rewrite <- (Z.mod_unique_pos _ _ _ _ Hb Hq').
      exact (remainder_location_step r s b m q rho k Hk Hrho Hloc). }
  destruct m as [|[p|p|]|p]; cbn [shr_1]; try lia.
  - apply (Hkey 0 false). lia.
  - apply (Hkey (Zpos p) true). lia.
  - apply (Hkey (Zpos p) false). lia.
  - apply (Hkey 0 true). lia.
Qed.

Lemma shifted_0 m0 : shifted m0 0 (Build_shr_record m0 false false).
Proof.
  unfold shifted, remainder_location. cbn [shr_m loc_of_shr_record].
  rewrite Z.pow_0_r, Z.div_1_r, Z.mod_1_r. split; reflexivity.
Qed.

Lemma iter_shr_1_shifted m0 n :
  0 <= m0 ->
  shifted m0 (Z.of_nat n) (Nat.iter n shr_1 (Build_shr_record m0 false false)).
Proof.
  intros Hm. induction n as [|n IH].
  - apply shifted_0.
  - rewrite Nat2Z.inj_succ, <- Z.add_1_r. cbn [Nat.iter].
    apply shr_1_shifted; [lia | exact Hm | exact IH].
Qed.

(** Shifting [n] bits out divides by [2^n] and records where the
    remainder lies. *)
Lemma shr_shifted m0 e n :
  0 <= m0 -> 0 <= n ->
  exists mrs,
    shr (Build_shr_record m0 false false) e n = (mrs, e + n) /\ shifted m0 n mrs.
Proof.
  intros Hm Hn. destruct n as [|p|p]; [| |lia].
  - exists (Build_shr_record m0 false false). split; [|apply shifted_0].
    cbn [shr]. f_equal. lia.
  - eexists. split; [reflexivity|]. rewrite iter_pos_nat.
    rewrite <- (positive_nat_Z p). apply iter_shr_1_shifted. exact Hm.
Qed.

(** ** The binary32 numbers around a positive number *)

Lemma ulp_exp_range V : 0 <= ulp_exp V /\ (0 < V -> ulp_exp V <= Z.log2 V).
Proof.
  unfold ulp_exp. pose proof (Z.log2_nonneg V). lia.
Qed.

(** [V] lies between two neighbouring multiples of the spacing, which
    are in the binade of [V] or at its upper end; the lower one has at
    most 24 bits, and exactly 24 unless the spacing is the smallest. *)
Lemma cell_bounds V :
  0 < V ->
  0 < 2 ^ ulp_exp V /\
  0 <= V mod 2 ^ ulp_exp V < 2 ^ ulp_exp V /\
  V = V / 2 ^ ulp_exp V * 2 ^ ulp_exp V + V mod 2 ^ ulp_exp V /\
  2 ^ Z.log2 V <= V / 2 ^ ulp_exp V * 2 ^ ulp_exp V /\
  (V / 2 ^ ulp_exp V + 1) * 2 ^ ulp_exp V <= 2 ^ (Z.log2 V + 1) /\
  1 <= V / 2 ^ ulp_exp V < 16777216 /\
  (ulp_exp V = 0 \/ 8388608 <= V / 2 ^ ulp_exp V).
Proof.
  intros HV.
  destruct (ulp_exp_range V) as [Hk0 Hk1]. specialize (Hk1 HV).
  destruct (Z.log2_spec V HV) as [Hlo Hhi].
  assert (HL : Z.log2 V - ulp_exp V <= 23) by (unfold ulp_exp; lia).
  assert (HL' : ulp_exp V = 0 \/ Z.log2 V - ulp_exp V = 23) by (unfold ulp_exp; lia).
  set (k := ulp_exp V) in *. set (L := Z.log2 V) in *.
  assert (HU : 0 < 2 ^ k) by (apply Z.pow_pos_nonneg; lia).
  assert (HT : 0 < 2 ^ (L - k)) by (apply Z.pow_pos_nonneg; lia).
  assert (HT24 : 2 ^ (L - k) <= 8388608).
  { change 8388608 with (2 ^ 23). apply Z.pow_le_mono_r; lia. }
  assert (HLk : 2 ^ L = 2 ^ k * 2 ^ (L - k)).
  { rewrite <- Z.pow_add_r by lia. f_equal. lia. }
  assert (HL1 : 2 ^ (L + 1) = 2 ^ k * (2 * 2 ^ (L - k))).
  { rewrite Z.pow_add_r, Z.pow_1_r by lia. rewrite HLk. ring. }
  replace (Z.succ L) with (L + 1) in Hhi by lia.
  pose proof (Z.div_mod V (2 ^ k) ltac:(lia)) as Hdm.
  pose proof (Z.mod_pos_bound V (2 ^ k) HU) as Hr.
  assert (Hm1 : 2 ^ (L - k) <= V / 2 ^ k).
  { apply Z.div_le_lower_bound; [exact HU | lia]. }
  assert (Hm2 : V / 2 ^ k < 2 * 2 ^ (L - k)).
  { apply Z.div_lt_upper_bound; [exact HU | lia]. }
  assert (Hfin : k = 0 \/ 8388608 <= V / 2 ^ k).
  { destruct HL' as [H0|H23]; [left; exact H0 | right].
    rewrite H23 in Hm1. exact Hm1. }
  set (U := 2 ^ k) in *. set (T := 2 ^ (L - k)) in *. set (m := V / U) in *.
  clearbody U T m.
  split; [exact HU|]. split; [exact Hr|]. split; [lia|].
  split; [rewrite HLk; nia|]. split; [rewrite HL1; nia|].
  split; [lia | exact Hfin].
Qed.

(** The first shift of a rounding divides by the spacing. *)
Lemma shr_fexp_truncates mz ez :
  -149 <= ez ->
  ez <= fexp prec emax (Zpos (digits2_pos mz) + ez) ->
  exists mrs,
    shr_fexp prec emax (Zpos mz) ez loc_Exact
    = (mrs, ulp_exp (Zpos mz * 2 ^ (ez + 149)) - 149) /\
    shr_m mrs = Zpos mz * 2 ^ (ez + 149) / 2 ^ ulp_exp (Zpos mz * 2 ^ (ez + 149)) /\
    loc_of_shr_record mrs
    = remainder_location
        (Zpos mz * 2 ^ (ez + 149) mod 2 ^ ulp_exp (Zpos mz * 2 ^ (ez + 149)))
        (ulp_exp (Zpos mz * 2 ^ (ez + 149))).
Proof.
  intros Hez Hfe.
  assert (Hk : fexp prec emax (Zpos (digits2_pos mz) + ez)
               = ulp_exp (Zpos mz * 2 ^ (ez + 149)) - 149).
  { unfold fexp, emin, prec, emax, ulp_exp.
    rewrite Z.log2_mul_pow2, digits2_pos_log2 by lia. lia. }
  unfold shr_fexp. cbn [shr_record_of_loc Zdigits2]. rewrite Hk in *.
  set (k := ulp_exp (Zpos mz * 2 ^ (ez + 149))) in *. clearbody k.
  destruct (shr_shifted (Zpos mz) ez (k - 149 - ez) ltac:(lia) ltac:(lia))
    as [mrs [Hshr [Hm Hloc]]].
  exists mrs. rewrite Hshr.
  assert (HJ : 0 < 2 ^ (ez + 149)) by (apply Z.pow_pos_nonneg; lia).
  assert (HN : 0 < 2 ^ (k - 149 - ez)) by (apply Z.pow_pos_nonneg; lia).
  assert (HU : 2 ^ k = 2 ^ (k - 149 - ez) * 2 ^ (ez + 149)).
  { rewrite <- Z.pow_add_r by lia. f_equal. lia. }
  split; [f_equal; lia|]. rewrite HU. split.
  - rewrite Z.div_mul_cancel_r by lia. exact Hm.
  - rewrite Z.mul_mod_distr_r by lia. rewrite Hloc. unfold remainder_location.
    set (rho := Zpos mz mod 2 ^ (k - 149 - ez)).
    destruct (Z.eqb_spec rho 0) as [->|Hn]; [reflexivity|].
    destruct (Z.eqb_spec (rho * 2 ^ (ez + 149)) 0) as [H0|_]; [nia|].
    f_equal. rewrite HU, Z.mul_assoc.
    apply Zmult_compare_compat_r. lia.
Qed.

(** Rounding the quotient, then multiplying by the spacing, gives the
    nearest multiple. *)
Lemma round_nearest_even_scaled V :
  0 < V ->
  round_nearest_even (V / 2 ^ ulp_exp V)
    (remainder_location (V mod 2 ^ ulp_exp V) (ulp_exp V)) * 2 ^ ulp_exp V
  = nearest_even V.
Proof.
  intros HV. destruct (cell_bounds V HV) as [HU [Hr _]].
  unfold nearest_even, remainder_location.
  destruct (Z.eqb_spec (V mod 2 ^ ulp_exp V) 0) as [E|E].
  - rewrite E. cbn [round_nearest_even].
    assert (Hlt : (2 * 0 ?= 2 ^ ulp_exp V) = Lt) by (apply Z.compare_lt_iff; lia).
    rewrite Hlt. reflexivity.
  - cbn [round_nearest_even].
    destruct (2 * (V mod 2 ^ ulp_exp V) ?= 2 ^ ulp_exp V); try reflexivity.
    destruct (Z.even _); reflexivity.
Qed.

Lemma round_nearest_even_bounds V :
  0 < V ->
  let m1 := round_nearest_even (V / 2 ^ ulp_exp V)
              (remainder_location (V mod 2 ^ ulp_exp V) (ulp_exp V)) in
  0 < m1 <= 16777216 /\ (ulp_exp V = 0 \/ 8388608 <= m1).
Proof.
  intros HV m1. destruct (cell_bounds V HV) as [HU [Hr [_ [_ [_ [Hm Hc]]]]]].
  assert (Hm1 : V / 2 ^ ulp_exp V <= m1 <= V / 2 ^ ulp_exp V + 1).
  { unfold m1, remainder_location.
    destruct (_ =? 0); cbn [round_nearest_even]; [lia|].
    destruct (_ ?= _); try lia. destruct (Z.even _); lia. }
  split; [lia|]. destruct Hc as [H0|H]; [left; exact H0 | right; lia].
Qed.

(** The second shift of a rounding brings a mantissa of 25 bits back to
    24. *)
Lemma shr_fexp_renormalises m1 e1 :
  -149 <= e1 -> 0 < m1 <= 16777216 -> e1 = -149 \/ 8388608 <= m1 ->
  exists mf ef mrs,
    shr_fexp prec emax m1 e1 loc_Exact = (mrs, ef) /\
    shr_m mrs = Zpos mf /\
    canonical_mantissa prec emax mf ef = true /\
    Zpos mf * 2 ^ (ef + 149) = m1 * 2 ^ (e1 + 149).
Proof.
  intros He [Hpos Hle] Hc. destruct m1 as [|p|p]; try lia.
  destruct (Z.eq_dec (Zpos p) 16777216) as [E|E].
  - injection E as ->.
    exists 8388608%positive, (e1 + 1), (Build_shr_record 8388608 false false).
    unfold shr_fexp. cbn [shr_record_of_loc Zdigits2].
    change (Zpos (digits2_pos 16777216)) with 25.
    replace (fexp prec emax (25 + e1) - e1) with 1
      by (unfold fexp, emin, prec, emax; lia).
    split; [reflexivity|]. split; [reflexivity|]. split.
    + unfold canonical_mantissa.
      change (Zpos (digits2_pos 8388608)) with 24.
      apply Z.eqb_eq. unfold fexp, emin, prec, emax. lia.
    + replace (e1 + 1 + 149) with (Z.succ (e1 + 149)) by lia.
      rewrite Z.pow_succ_r by lia. lia.
  - exists p, e1, (Build_shr_record (Zpos p) false false).
    assert (Hd : Zpos (digits2_pos p) <= 24 /\
                 (e1 = -149 \/ Zpos (digits2_pos p) = 24)).
    { rewrite digits2_pos_log2.
      assert (Z.log2 (Zpos p) < 24) by (apply Z.log2_lt_pow2; lia).
      split; [lia|]. destruct Hc as [Hc|Hc]; [left; exact Hc | right].
      assert (23 <= Z.log2 (Zpos p)); [|lia].
      apply Z.log2_le_pow2; [lia|]. exact Hc. }
    unfold shr_fexp. cbn [shr_record_of_loc Zdigits2].
    replace (fexp prec emax (Zpos (digits2_pos p) + e1) - e1) with 0
      by (unfold fexp, emin, prec, emax; lia).
    split; [reflexivity|]. split; [reflexivity|]. split; [|reflexivity].
    unfold canonical_mantissa. apply Z.eqb_eq.
    unfold fexp, emin, prec, emax. lia.
Qed.

(** Rounding a positive number [mz * 2^ez] in binary32: the result is the
    nearest number of binary32, or an infinity if that is out of range. *)
Lemma binary_round_aux_cases s mz ez :
  -149 <= ez ->
  ez <= fexp prec emax (Zpos (digits2_pos mz) + ez) ->
  binary_round_aux prec emax s (Zpos mz) ez loc_Exact = S754_infinity s /\
  overflow_threshold <= nearest_even (Zpos mz * 2 ^ (ez + 149)) \/
  exists mf ef,
    binary_round_aux prec emax s (Zpos mz) ez loc_Exact = S754_finite s mf ef /\
    bounded prec emax mf ef = true /\
    Zpos mf * 2 ^ (ef + 149) = nearest_even (Zpos mz * 2 ^ (ez + 149)).
Proof.
  intros Hez Hfe.
  assert (HV : 0 < Zpos mz * 2 ^ (ez + 149)).
  { apply Z.mul_pos_pos; [lia | apply Z.pow_pos_nonneg; lia]. }
  destruct (shr_fexp_truncates mz ez Hez Hfe) as [mrs [Hshr [Hm Hloc]]].
  unfold binary_round_aux. rewrite Hshr, Hm, Hloc.
  pose proof (round_nearest_even_scaled _ HV) as Hval.
  pose proof (round_nearest_even_bounds _ HV) as [Hb Hc]. cbv zeta in Hb, Hc.
  destruct (ulp_exp_range (Zpos mz * 2 ^ (ez + 149))) as [Hk _].
  set (V := Zpos mz * 2 ^ (ez + 149)) in *.
  set (m1 := round_nearest_even _ _) in *. clearbody m1.
  destruct (shr_fexp_renormalises m1 (ulp_exp V - 149) ltac:(lia) Hb ltac:(lia))
    as [mf [ef [mrs2 [Hshr2 [Hm2 [Hcan Hv2]]]]]].
  rewrite Hshr2, Hm2.
  assert (Hv : Zpos mf * 2 ^ (ef + 149) = nearest_even V).
  { rewrite Hv2, <- Hval. f_equal. f_equal. lia. }
  destruct (ef <=? emax - prec) eqn:Ee; [right | left].
  - exists mf, ef. split; [reflexivity|]. split; [|exact Hv].
    unfold bounded. rewrite Hcan, Ee. reflexivity.
  - split; [reflexivity|]. rewrite <- Hv.
    apply Z.leb_gt in Ee. unfold emax, prec in Ee.
    unfold canonical_mantissa in Hcan. apply Z.eqb_eq in Hcan.
    assert (Hd : Zpos (digits2_pos mf) = 24)
      by (unfold fexp, emin, prec, emax in Hcan; lia).
    pose proof (digits2_pos_bounds mf) as [Hlo _]. rewrite Hd in Hlo.
    change (2 ^ (24 - 1)) with 8388608 in Hlo.
    assert (Hp : 2 ^ 254 <= 2 ^ (ef + 149)) by (apply Z.pow_le_mono_r; lia).
    unfold overflow_threshold. change (2 ^ 277) with (8388608 * 2 ^ 254).
    apply Z.mul_le_mono_nonneg; lia.
Qed.

Lemma binary_round_cases s m e :
  -149 <= e ->
  binary_round prec emax s m e = S754_infinity s /\
  overflow_threshold <= nearest_even (Zpos m * 2 ^ (e + 149)) \/
  exists mf ef,
    binary_round prec emax s m e = S754_finite s mf ef /\
    bounded prec emax mf ef = true /\
    Zpos mf * 2 ^ (ef + 149) = nearest_even (Zpos m * 2 ^ (e + 149)).
Proof.
  intros He. unfold binary_round.
  assert (Hfe : -149 <= fexp prec emax (Zpos (digits2_pos m) + e))
    by (unfold fexp, emin, prec, emax; lia).
  set (e' := fexp prec emax (Zpos (digits2_pos m) + e)) in *.
  unfold shl_align. destruct (e' - e) as [|d|d] eqn:Ed.
  - apply binary_round_aux_cases; [exact He | fold e'; lia].
  - apply binary_round_aux_cases; [exact He | fold e'; lia].
  - assert (Hd : Zpos (digits2_pos (Pos.iter xO m d)) + e' = Zpos (digits2_pos m) + e).
    { rewrite !digits2_pos_log2, iter_xO, Z.log2_mul_pow2 by lia. lia. }
    replace (Zpos m * 2 ^ (e + 149))
      with (Zpos (Pos.iter xO m d) * 2 ^ (e' + 149)).
    + apply binary_round_aux_cases; [exact Hfe | rewrite Hd; fold e'; lia].
    + rewrite iter_xO, <- Z.mul_assoc, <- Z.pow_add_r by lia.
      f_equal. f_equal. lia.
Qed.

(** ** The nearest number of binary32 *)

Lemma nearest_even_bounds V :
  0 < V ->
  2 ^ Z.log2 V <= nearest_even V <= 2 ^ (Z.log2 V + 1) /\
  V / 2 ^ ulp_exp V * 2 ^ ulp_exp V <= nearest_even V
  <= (V / 2 ^ ulp_exp V + 1) * 2 ^ ulp_exp V.
Proof.
  intros HV. destruct (cell_bounds V HV) as [HU [_ [_ [Hlo [Hhi _]]]]].
  unfold nearest_even.
  destruct (_ ?= _); [destruct (Z.even _)| |]; lia.
Qed.

(** The rounded number is at most half a spacing away. *)
Lemma nearest_even_error V :
  0 < V -> 2 * Z.abs (nearest_even V - V) <= 2 ^ ulp_exp V.
Proof.
  intros HV. destruct (cell_bounds V HV) as [HU [Hr [Hd _]]].
  unfold nearest_even.
  destruct (Z.compare_spec (2 * (V mod 2 ^ ulp_exp V)) (2 ^ ulp_exp V));
    try destruct (Z.even (V / 2 ^ ulp_exp V)); lia.
Qed.

Lemma nearest_even_nonneg V : 0 <= V -> 0 <= nearest_even V.
Proof.
  intros HV. destruct (Z.eq_dec V 0) as [->|Hn]; [cbv; discriminate|].
  destruct (nearest_even_bounds V ltac:(lia)) as [[Hlo _] _].
  pose proof (Z.pow_nonneg 2 (Z.log2 V) ltac:(lia)). lia.
Qed.

(** Rounding keeps the order. *)
Lemma nearest_even_mono V1 V2 :
  0 < V1 -> V1 <= V2 -> nearest_even V1 <= nearest_even V2.
Proof.
  intros H1 H12. assert (H2 : 0 < V2) by lia.
  destruct (nearest_even_bounds V1 H1) as [[_ Hhi1] [_ Hhi1']].
  destruct (nearest_even_bounds V2 H2) as [[Hlo2 _] [Hlo2' _]].
  pose proof (Z.log2_le_mono V1 V2 H12) as HL.
  destruct (Z.eq_dec (Z.log2 V1) (Z.log2 V2)) as [E|E].
  - assert (Hk : ulp_exp V1 = ulp_exp V2) by (unfold ulp_exp; rewrite E; reflexivity).
    destruct (cell_bounds V1 H1) as [HU [Hr1 [Hd1 _]]].
    destruct (cell_bounds V2 H2) as [_ [Hr2 [Hd2 _]]].
    rewrite Hk in *.
    pose proof (Z.div_le_mono V1 V2 _ HU H12) as Hm.
    destruct (Z.eq_dec (V1 / 2 ^ ulp_exp V2) (V2 / 2 ^ ulp_exp V2)) as [Em|Em].
    + unfold nearest_even. rewrite Hk, Em.
      assert (Hr : V1 mod 2 ^ ulp_exp V2 <= V2 mod 2 ^ ulp_exp V2) by lia.
      destruct (Z.compare_spec (2 * (V1 mod 2 ^ ulp_exp V2)) (2 ^ ulp_exp V2));
        destruct (Z.compare_spec (2 * (V2 mod 2 ^ ulp_exp V2)) (2 ^ ulp_exp V2));
        try destruct (Z.even (V2 / 2 ^ ulp_exp V2)); lia.
    + apply Z.le_trans with (1 := Hhi1'). apply Z.le_trans with (2 := Hlo2').
      apply Z.mul_le_mono_nonneg_r; lia.
  - apply Z.le_trans with (1 := Hhi1). apply Z.le_trans with (2 := Hlo2).
    apply Z.pow_le_mono_r; lia.
Qed.

(** A number of binary32 is its own rounding. *)
Lemma nearest_even_bounded m e :
  bounded prec emax m e = true ->
  nearest_even (Zpos m * 2 ^ (e + 149)) = Zpos m * 2 ^ (e + 149).
Proof.
  intros H. apply bounded_spec in H. destruct H as [Hd [He Hc]].
  assert (Hk : ulp_exp (Zpos m * 2 ^ (e + 149)) = e + 149).
  { unfold ulp_exp. rewrite Z.log2_mul_pow2 by lia.
    rewrite digits2_pos_log2 in *. lia. }
  assert (HJ : 0 < 2 ^ (e + 149)) by (apply Z.pow_pos_nonneg; lia).
  unfold nearest_even. rewrite Hk, Z.mod_mul, Z.div_mul by lia.
  assert (Hlt : (2 * 0 ?= 2 ^ (e + 149)) = Lt) by (apply Z.compare_lt_iff; lia).
  rewrite Hlt. reflexivity.
Qed.

Lemma round_scaled_pos z : 0 < z -> round_scaled z = nearest_even z.
Proof.
  intros H. unfold round_scaled. rewrite Z.sgn_pos, Z.abs_eq by lia. lia.
Qed.

Lemma round_scaled_neg z : z < 0 -> round_scaled z = - nearest_even (- z).
Proof.
  intros H. unfold round_scaled. rewrite Z.sgn_neg, Z.abs_neq by lia. lia.
Qed.

Lemma round_scaled_0 : round_scaled 0 = 0.
Proof. reflexivity. Qed.

Lemma round_scaled_opp z : round_scaled (- z) = - round_scaled z.
Proof.
  unfold round_scaled. rewrite Z.sgn_opp, Z.abs_opp. lia.
Qed.

Lemma round_scaled_abs z : Z.abs (round_scaled z) = round_scaled (Z.abs z).
Proof.
  destruct (Z.lt_trichotomy z 0) as [H|[->|H]].
  - rewrite (Z.abs_neq z) by lia. rewrite round_scaled_neg by lia.
    rewrite round_scaled_pos by lia.
    pose proof (nearest_even_nonneg (- z) ltac:(lia)). lia.
  - reflexivity.
  - rewrite (Z.abs_eq z) by lia. rewrite round_scaled_pos by lia.
    pose proof (nearest_even_nonneg z ltac:(lia)). lia.
Qed.

Lemma round_scaled_mono z1 z2 : z1 <= z2 -> round_scaled z1 <= round_scaled z2.
Proof.
  intros H.
  destruct (Z.lt_trichotomy z1 0) as [H1|[->|H1]];
    destruct (Z.lt_trichotomy z2 0) as [H2|[->|H2]]; try lia;
    rewrite ?round_scaled_0, ?(round_scaled_neg z1), ?(round_scaled_neg z2),
      ?(round_scaled_pos z1), ?(round_scaled_pos z2) by lia.
  - pose proof (nearest_even_mono (- z2) (- z1) ltac:(lia) ltac:(lia)). lia.
  - pose proof (nearest_even_nonneg (- z1) ltac:(lia)). lia.
  - pose proof (nearest_even_nonneg (- z1) ltac:(lia)).
    pose proof (nearest_even_nonneg z2 ltac:(lia)). lia.
  - pose proof (nearest_even_nonneg z2 ltac:(lia)). lia.
  - apply nearest_even_mono; lia.
Qed.

Lemma round_scaled_finite f : finite f = true -> round_scaled (scaled f) = scaled f.
Proof.
  destruct f as [s|s| |s m e]; cbn [finite scaled]; try discriminate;
    try reflexivity.
  intros H. pose proof (nearest_even_bounded m e H) as Hn.
  apply bounded_spec in H. destruct H as [_ [He _]].
  assert (HJ : 0 < Zpos m * 2 ^ (e + 149)).
  { apply Z.mul_pos_pos; [lia | apply Z.pow_pos_nonneg; lia]. }
  destruct s; cbn [cond_Zopp].
  - rewrite Z.mul_opp_l, round_scaled_opp, round_scaled_pos, Hn by lia. reflexivity.
  - rewrite round_scaled_pos, Hn by lia. reflexivity.
Qed.

(** ** Sums and differences are rounded to nearest *)

Lemma binary_normalize_cases z e :
  -149 <= e ->
  (binary_normalize prec emax z e false = S754_infinity false /\
   overflow_threshold <= round_scaled (z * 2 ^ (e + 149))) \/
  (binary_normalize prec emax z e false = S754_infinity true /\
   round_scaled (z * 2 ^ (e + 149)) <= - overflow_threshold) \/
  (finite (binary_normalize prec emax z e false) = true /\
   scaled (binary_normalize prec emax z e false) = round_scaled (z * 2 ^ (e + 149))).
Proof.
  intros He.
  assert (HJ : 0 < 2 ^ (e + 149)) by (apply Z.pow_pos_nonneg; lia).
  destruct z as [|p|p]; cbn [binary_normalize].
  - right. right. split; reflexivity.
  - rewrite round_scaled_pos by lia.
    destruct (binary_round_cases false p e He) as [[-> Ho]|[mf [ef [-> [Hb Hv]]]]].
    + left. split; [reflexivity | exact Ho].
    + right. right. split; [exact Hb|]. cbn [scaled cond_Zopp]. exact Hv.
  - rewrite round_scaled_neg by lia.
    replace (- (Zneg p * 2 ^ (e + 149))) with (Zpos p * 2 ^ (e + 149)) by lia.
    destruct (binary_round_cases true p e He) as [[-> Ho]|[mf [ef [-> [Hb Hv]]]]].
    + right. left. split; [reflexivity | lia].
    + right. right. split; [exact Hb|]. cbn [scaled cond_Zopp]. lia.
Qed.

Lemma cond_Zopp_scaled s m e e' :
  e' <= e -> -149 <= e' ->
  cond_Zopp s (Zpos (fst (shl_align m e e'))) * 2 ^ (e' + 149)
  = scaled (S754_finite s m e).
Proof.
  intros Hle He. cbn [scaled]. pose proof (shl_align_scaled m e e' Hle He).
  destruct s; cbn [cond_Zopp]; lia.
Qed.

(** The sum of two numbers of binary32 is the nearest number of binary32
    to their sum, or an infinity of its sign if that is out of range. *)
Lemma fadd_cases a b :
  finite a = true -> finite b = true ->
  (fadd a b = S754_infinity false /\
   overflow_threshold <= round_scaled (scaled a + scaled b)) \/
  (fadd a b = S754_infinity true /\
   round_scaled (scaled a + scaled b) <= - overflow_threshold) \/
  (finite (fadd a b) = true /\
   scaled (fadd a b) = round_scaled (scaled a + scaled b)).
Proof.
  destruct a as [sa|sa| |sa ma ea], b as [sb|sb| |sb mb eb]; cbn [finite];
    try discriminate; intros Ha Hb; unfold fadd; cbn [SFadd].
  - right. right. destruct sa, sb; split; reflexivity.
  - right. right. split; [exact Hb|]. cbn [scaled Z.add].
    symmetry. apply (round_scaled_finite (S754_finite sb mb eb)). exact Hb.
  - right. right. split; [exact Ha|]. cbn [scaled]. rewrite Z.add_0_r.
    symmetry. apply (round_scaled_finite (S754_finite sa ma ea)). exact Ha.
  - pose proof (proj1 (bounded_spec _ _) Ha) as [_ [Hea _]].
    pose proof (proj1 (bounded_spec _ _) Hb) as [_ [Heb _]].
    rewrite <- (cond_Zopp_scaled sa ma ea (Z.min ea eb)) by lia.
    rewrite <- (cond_Zopp_scaled sb mb eb (Z.min ea eb)) by lia.
    rewrite <- Z.mul_add_distr_r.
    apply binary_normalize_cases. lia.
Qed.

Lemma fsub_cases a b :
  finite a = true -> finite b = true ->
  (fsub a b = S754_infinity false /\
   overflow_threshold <= round_scaled (scaled a - scaled b)) \/
  (fsub a b = S754_infinity true /\
   round_scaled (scaled a - scaled b) <= - overflow_threshold) \/
  (finite (fsub a b) = true /\
   scaled (fsub a b) = round_scaled (scaled a - scaled b)).
Proof.
  destruct a as [sa|sa| |sa ma ea], b as [sb|sb| |sb mb eb]; cbn [finite];
    try discriminate; intros Ha Hb; unfold fsub; cbn [SFsub].
  - right. right. destruct sa, sb; split; reflexivity.
  - right. right. split; [exact Hb|].
    change (scaled (S754_zero sa) - scaled (S754_finite sb mb eb))
      with (- scaled (S754_finite sb mb eb)).
    rewrite round_scaled_opp, (round_scaled_finite (S754_finite sb mb eb)) by exact Hb.
    cbn [scaled]. destruct sb; cbn [negb cond_Zopp]; lia.
  - right. right. split; [exact Ha|]. cbn [scaled]. rewrite Z.sub_0_r.
    symmetry. apply (round_scaled_finite (S754_finite sa ma ea)). exact Ha.
  - pose proof (proj1 (bounded_spec _ _) Ha) as [_ [Hea _]].
    pose proof (proj1 (bounded_spec _ _) Hb) as [_ [Heb _]].
    rewrite <- (cond_Zopp_scaled sa ma ea (Z.min ea eb)) by lia.
    rewrite <- (cond_Zopp_scaled sb mb eb (Z.min ea eb)) by lia.
    rewrite <- Z.mul_sub_distr_r.
    apply binary_normalize_cases. lia.
Qed.

(** A number of binary32 is below the overflow threshold. *)
Lemma scaled_bound f : finite f = true -> Z.abs (scaled f) < overflow_threshold.
Proof.
  destruct f as [s|s| |s m e]; cbn [finite scaled]; try discriminate;
    try (intros _; reflexivity).
  intros H. apply bounded_spec in H. destruct H as [Hd [He _]].
  pose proof (digits2_pos_bounds m) as [_ Hhi].
  assert (Hm : Zpos m < 2 ^ 24).
  { apply Z.lt_le_trans with (1 := Hhi). apply Z.pow_le_mono_r; lia. }
  assert (Hp : 2 ^ (e + 149) <= 2 ^ 253) by (apply Z.pow_le_mono_r; lia).
  assert (HJ : 0 < 2 ^ (e + 149)) by (apply Z.pow_pos_nonneg; lia).
  assert (Habs : Z.abs (cond_Zopp s (Zpos m) * 2 ^ (e + 149)) = Zpos m * 2 ^ (e + 149)).
  { destruct s; cbn [cond_Zopp]; rewrite ?Z.mul_opp_l, ?Z.abs_opp;
      apply Z.abs_eq; lia. }
  rewrite Habs. unfold overflow_threshold.
  change (2 ^ 277) with (2 ^ 24 * 2 ^ 253).
  apply Z.lt_le_trans with (2 ^ 24 * 2 ^ (e + 149)).
  - apply Z.mul_lt_mono_pos_r; lia.
  - apply Z.mul_le_mono_nonneg_l; lia.
Qed.

(** ** Comparisons with a rounded sum or difference *)

Lemma overflow_threshold_pos : 0 < overflow_threshold.
Proof. reflexivity. Qed.

Lemma fle_scaled a b :
  finite a = true -> finite b = true ->
  (fle a b = true <-> scaled a <= scaled b).
Proof. intros Ha Hb. rewrite (fle_real a b Ha Hb). apply real_le. Qed.

Lemma fgt_scaled a b :
  finite a = true -> finite b = true ->
  (fgt a b = true <-> scaled b < scaled a).
Proof. intros Ha Hb. rewrite (fgt_real a b Ha Hb). apply real_lt. Qed.

Lemma scaled_fabs a : scaled (fabs a) = Z.abs (scaled a).
Proof.
  pose proof (real_fabs a) as H. unfold real, Qabs in H. now injection H.
Qed.

(** A number at most the sum of two others is at most their rounded sum:
    rounding keeps the order and changes no number of binary32. *)
Lemma fle_fadd_complete p a b :
  finite p = true -> finite a = true -> finite b = true ->
  scaled p <= scaled a + scaled b -> fle p (fadd a b) = true.
Proof.
  intros Hp Ha Hb H.
  pose proof (round_scaled_mono _ _ H) as Hm.
  rewrite (round_scaled_finite p Hp) in Hm.
  pose proof (scaled_bound p Hp) as Hbd.
  destruct (fadd_cases a b Ha Hb) as [[-> _]|[[_ Ho]|[Hf Hs]]].
  - destruct p; try discriminate; reflexivity.
  - lia.
  - apply fle_scaled; [exact Hp | exact Hf | lia].
Qed.

Lemma fge_fsub_complete p a b :
  finite p = true -> finite a = true -> finite b = true ->
  scaled a - scaled b <= scaled p -> fge p (fsub a b) = true.
Proof.
  intros Hp Ha Hb H.
  pose proof (round_scaled_mono _ _ H) as Hm.
  rewrite (round_scaled_finite p Hp) in Hm.
  pose proof (scaled_bound p Hp) as Hbd.
  destruct (fsub_cases a b Ha Hb) as [[_ Ho]|[[-> _]|[Hf Hs]]].
  - lia.
  - destruct p; try discriminate; reflexivity.
  - unfold fge. apply fle_scaled; [exact Hf | exact Hp | lia].
Qed.

(** Two centres no further apart than the half extents reach are not
    found apart after rounding either. *)
Lemma fgt_apart_reach ca cb ha hb :
  finite ca = true -> finite cb = true -> finite ha = true -> finite hb = true ->
  Z.abs (scaled ca - scaled cb) <= scaled ha + scaled hb ->
  fgt (fabs (fsub ca cb)) (fadd ha hb) = false.
Proof.
  intros Hca Hcb Hha Hhb H.
  pose proof (round_scaled_mono _ _ H) as Hm. rewrite <- round_scaled_abs in Hm.
  pose proof overflow_threshold_pos as Hov.
  destruct (fadd_cases ha hb Hha Hhb) as [[-> _]|[[_ Ho]|[Hf Hs]]].
  - unfold fgt. destruct (fabs _) as [s|s| |s m e]; try reflexivity.
    destruct s; reflexivity.
  - lia.
  - pose proof (scaled_bound _ Hf) as Hbd. rewrite Hs in Hbd.
    destruct (fsub_cases ca cb Hca Hcb) as [[_ Ho]|[[_ Ho]|[Hg Hd]]]; try lia.
    apply not_true_iff_false. intros Hgt.
    apply fgt_scaled in Hgt; [|apply finite_fabs; exact Hg | exact Hf].
    rewrite scaled_fabs in Hgt. lia.
Qed.

(** ** Rounding, on the numbers floats stand for *)

Lemma Qle_scaled z1 z2 : (z1 # 2 ^ 149 <= z2 # 2 ^ 149)%Q <-> z1 <= z2.
Proof.
  unfold Qle. cbn [Qnum Qden].
  split; intros H; [apply Z.mul_le_mono_pos_r in H|apply Z.mul_le_mono_pos_r]; lia.
Qed.

Lemma Qlt_scaled z1 z2 : (z1 # 2 ^ 149 < z2 # 2 ^ 149)%Q <-> z1 < z2.
Proof.
  unfold Qlt. cbn [Qnum Qden].
  split; intros H; [apply Z.mul_lt_mono_pos_r in H|apply Z.mul_lt_mono_pos_r]; lia.
Qed.

Lemma real_plus a b : (real a + real b == (scaled a + scaled b) # 2 ^ 149)%Q.
Proof.
  unfold real. generalize (2 ^ 149)%positive as d. intros d.
  unfold Qeq, Qplus. cbn [Qnum Qden]. rewrite Pos2Z.inj_mul. ring.
Qed.

Lemma real_minus a b : (real a - real b == (scaled a - scaled b) # 2 ^ 149)%Q.
Proof.
  unfold real. generalize (2 ^ 149)%positive as d. intros d.
  unfold Qeq, Qminus, Qplus, Qopp. cbn [Qnum Qden]. rewrite Pos2Z.inj_mul. ring.
Qed.

Lemma real_distance a b :
  (Qabs (real a - real b) == Z.abs (scaled a - scaled b) # 2 ^ 149)%Q.
Proof. rewrite real_minus. reflexivity. Qed.

Lemma nearest_comp q1 q2 : (q1 == q2)%Q -> nearest q1 = nearest q2.
Proof.
  intros H. unfold nearest. f_equal. f_equal. apply Qfloor_comp.
  rewrite H. reflexivity.
Qed.

Lemma nearest_scaled z : nearest (z # 2 ^ 149) = round_scaled z # 2 ^ 149.
Proof.
  unfold nearest. f_equal. f_equal. unfold Qmult, Qfloor. cbn [Qnum Qden].
  rewrite Pos.mul_1_r, Pos2Z.inj_pow. apply Z.div_mul.
  apply Z.pow_nonzero; lia.
Qed.

(** Rounding keeps the order of numbers, and a number of binary32. *)
Lemma nearest_mono q1 q2 : (q1 <= q2)%Q -> (nearest q1 <= nearest q2)%Q.
Proof.
  intros H. unfold nearest. apply Qle_scaled, round_scaled_mono, Qfloor_resp_le.
  apply Qmult_le_compat_r; [exact H|].
  unfold Qle. cbn [Qnum Qden]. pose proof (Z.pow_nonneg 2 149). lia.
Qed.

Lemma nearest_real a : finite a = true -> nearest (real a) = real a.
Proof.
  intros H. unfold real. rewrite nearest_scaled, (round_scaled_finite a H).
  reflexivity.
Qed.

(** A sum, a difference and a distance that do not overflow are the
    nearest numbers of binary32 to the sum, the difference and the
    distance of the numbers. *)
Lemma real_fadd a b :
  finite a = true -> finite b = true -> finite (fadd a b) = true ->
  real (fadd a b) = nearest (real a + real b).
Proof.
  intros Ha Hb Hf.
  rewrite (nearest_comp _ _ (real_plus a b)), nearest_scaled.
  destruct (fadd_cases a b Ha Hb) as [[E _]|[[E _]|[_ E]]];
    try (rewrite E in Hf; discriminate).
  unfold real. rewrite E. reflexivity.
Qed.

Lemma real_fsub a b :
  finite a = true -> finite b = true -> finite (fsub a b) = true ->
  real (fsub a b) = nearest (real a - real b).
Proof.
  intros Ha Hb Hf.
  rewrite (nearest_comp _ _ (real_minus a b)), nearest_scaled.
  destruct (fsub_cases a b Ha Hb) as [[E _]|[[E _]|[_ E]]];
    try (rewrite E in Hf; discriminate).
  unfold real. rewrite E. reflexivity.
Qed.

Lemma real_fabs_fsub a b :
  finite a = true -> finite b = true -> finite (fsub a b) = true ->
  real (fabs (fsub a b)) = nearest (Qabs (real a - real b)).
Proof.
  intros Ha Hb Hf.
  rewrite (nearest_comp _ _ (real_distance a b)), nearest_scaled.
  rewrite <- round_scaled_abs.
  destruct (fsub_cases a b Ha Hb) as [[E _]|[[E _]|[_ E]]];
    try (rewrite E in Hf; discriminate).
  unfold real. rewrite scaled_fabs, E. reflexivity.
Qed.

(** ** The rectangle predicates on numbers *)

Lemma BoundaryContains_edges b p :
  BoundaryContains b p
  = (fge (x p) (west b) && fle (x p) (east b)) &&
    (fge (y p) (north b) && fle (y p) (south b)).
Proof. reflexivity. Qed.

(** With finite coordinates and edges, the test compares numbers. *)
Lemma BoundaryContains_real b p :
  finite (x p) = true -> finite (y p) = true ->
  finite (west b) = true -> finite (east b) = true ->
  finite (north b) = true -> finite (south b) = true ->
  (BoundaryContains b p = true <->
   (real (west b) <= real (x p) <= real (east b))%Q /\
   (real (north b) <= real (y p) <= real (south b))%Q).
Proof.
  intros Hx Hy Hw He Hn Hs.
  rewrite BoundaryContains_edges, !andb_true_iff.
  rewrite (fge_real _ _ Hx Hw), (fle_real _ _ Hx He).
  rewrite (fge_real _ _ Hy Hn), (fle_real _ _ Hy Hs). reflexivity.
Qed.

Lemma BoundaryIntersects_tests a b :
  BoundaryIntersects a b
  = negb (fgt (apart_x a b) (reach_x a b)) && negb (fgt (apart_y a b) (reach_y a b)).
Proof.
  unfold BoundaryIntersects, apart_x, reach_x, apart_y, reach_y.
  destruct (fgt _ _); [reflexivity|]. destruct (fgt _ _); reflexivity.
Qed.

Lemma BoundaryIntersects_comm a b : BoundaryIntersects a b = BoundaryIntersects b a.
Proof.
  rewrite !BoundaryIntersects_tests. unfold apart_x, reach_x, apart_y, reach_y.
  rewrite (fabs_fsub_swap (x (pos a))), (fabs_fsub_swap (y (pos a))).
  rewrite (fadd_comm (x (half_dim a))), (fadd_comm (y (half_dim a))).
  reflexivity.
Qed.

Lemma BoundaryIntersects_real a b :
  finite (apart_x a b) = true -> finite (reach_x a b) = true ->
  finite (apart_y a b) = true -> finite (reach_y a b) = true ->
  (BoundaryIntersects a b = false <->
   (real (reach_x a b) < real (apart_x a b))%Q \/
   (real (reach_y a b) < real (apart_y a b))%Q).
Proof.
  intros Hax Hrx Hay Hry. rewrite BoundaryIntersects_tests, andb_false_iff.
  rewrite !negb_false_iff.
  rewrite (fgt_real _ _ Hax Hrx), (fgt_real _ _ Hay Hry). reflexivity.
Qed.

(** Every point of the closed rectangle is contained, whatever the
    rounding of the edges. *)
Lemma BoundaryContains_complete b p :
  finite_vec p = true -> finite_boundary b = true ->
  (real (x (pos b)) - real (x (half_dim b)) <= real (x p)
   <= real (x (pos b)) + real (x (half_dim b)))%Q ->
  (real (y (pos b)) - real (y (half_dim b)) <= real (y p)
   <= real (y (pos b)) + real (y (half_dim b)))%Q ->
  BoundaryContains b p = true.
Proof.
  intros Hp Hb [Hw He] [Hn Hs].
  destruct (finite_vec_true _ Hp) as [Hx Hy].
  destruct (finite_boundary_true _ Hb) as [[Hcx Hcy] [Hhx Hhy]].
  rewrite real_minus in Hw, Hn. rewrite real_plus in He, Hs.
  unfold real in Hw, He, Hn, Hs.
  apply (proj1 (Qle_scaled _ _)) in Hw. apply (proj1 (Qle_scaled _ _)) in He.
  apply (proj1 (Qle_scaled _ _)) in Hn. apply (proj1 (Qle_scaled _ _)) in Hs.
  rewrite BoundaryContains_edges. unfold west, east, north, south.
  rewrite (fge_fsub_complete _ _ _ Hx Hcx Hhx Hw).
  rewrite (fle_fadd_complete _ _ _ Hx Hcx Hhx He).
  rewrite (fge_fsub_complete _ _ _ Hy Hcy Hhy Hn).
  rewrite (fle_fadd_complete _ _ _ Hy Hcy Hhy Hs).
  reflexivity.
Qed.

(** Two rectangles whose centres are no further apart than their half
    extents reach are reported as intersecting, whatever the rounding. *)
Lemma BoundaryIntersects_complete a b :
  finite_boundary a = true -> finite_boundary b = true ->
  (Qabs (real (x (pos a)) - real (x (pos b)))
   <= real (x (half_dim a)) + real (x (half_dim b)))%Q ->
  (Qabs (real (y (pos a)) - real (y (pos b)))
   <= real (y (half_dim a)) + real (y (half_dim b)))%Q ->
  BoundaryIntersects a b = true.
Proof.
  intros Ha Hb Hx Hy.
  destruct (finite_boundary_true _ Ha) as [[Hax Hay] [Hahx Hahy]].
  destruct (finite_boundary_true _ Hb) as [[Hbx Hby] [Hbhx Hbhy]].
  rewrite real_distance, real_plus in Hx, Hy.
  apply (proj1 (Qle_scaled _ _)) in Hx. apply (proj1 (Qle_scaled _ _)) in Hy.
  rewrite BoundaryIntersects_tests. unfold apart_x, reach_x, apart_y, reach_y.
  rewrite (fgt_apart_reach _ _ _ _ Hax Hbx Hahx Hbhx Hx).
  rewrite (fgt_apart_reach _ _ _ _ Hay Hby Hahy Hbhy Hy).
  reflexivity.
Qed.

(** With edges that do not overflow, the test compares with the edges of
    the rectangle rounded to nearest. *)
Lemma BoundaryContains_nearest b p :
  finite_vec p = true -> finite_boundary b = true ->
  finite (west b) = true -> finite (east b) = true ->
  finite (north b) = true -> finite (south b) = true ->
  (BoundaryContains b p = true <->
   (nearest (real (x (pos b)) - real (x (half_dim b))) <= real (x p)
    <= nearest (real (x (pos b)) + real (x (half_dim b))))%Q /\
   (nearest (real (y (pos b)) - real (y (half_dim b))) <= real (y p)
    <= nearest (real (y (pos b)) + real (y (half_dim b))))%Q).
Proof.
  intros Hp Hb Fw Fe Fn Fs.
  destruct (finite_vec_true _ Hp) as [Hx Hy].
  destruct (finite_boundary_true _ Hb) as [[Hcx Hcy] [Hhx Hhy]].
  rewrite (BoundaryContains_real b p Hx Hy Fw Fe Fn Fs).
  unfold west, east, north, south in *.
  rewrite (real_fsub _ _ Hcx Hhx Fw), (real_fadd _ _ Hcx Hhx Fe).
  rewrite (real_fsub _ _ Hcy Hhy Fn), (real_fadd _ _ Hcy Hhy Fs).
  reflexivity.
Qed.

(** A point of two rectangles keeps their centres within reach. *)
Lemma shared_point_within_reach (ca ha cb hb p : Q) :
  (ca - ha <= p <= ca + ha)%Q -> (cb - hb <= p <= cb + hb)%Q ->
  (Qabs (ca - cb) <= ha + hb)%Q.
Proof.
  intros [H1 H2] [H3 H4]. apply Qabs_Qle_condition. split; lra.
Qed.

(** ** Queries do not prune what lies in the region *)

Lemma inside_contains b p : inside b p -> BoundaryContains b p = true.
Proof.
  intros [Hb [Hp [Hx Hy]]]. exact (BoundaryContains_complete b p Hp Hb Hx Hy).
Qed.

Lemma inside_intersects a b p :
  inside a p -> inside b p -> BoundaryIntersects a b = true.
Proof.
  intros [Ha [_ [Hax Hay]]] [Hb [_ [Hbx Hby]]].
  apply (BoundaryIntersects_complete a b Ha Hb).
  - exact (shared_point_within_reach _ _ _ _ _ Hax Hbx).
  - exact (shared_point_within_reach _ _ _ _ _ Hay Hby).
Qed.

Lemma stored_inside_found o qt region :
  stored_inside o qt -> inside region (obj_pos o) -> In o (found qt region).
Proof.
  intros Hs Hr. induction Hs as [qt Hin Hbuf | qt c Hin Hc Hs IH];
    rewrite found_unfold, (inside_intersects _ _ _ Hin Hr); apply in_or_app.
  - left. apply filter_In. split; [exact Hbuf|]. exact (inside_contains _ _ Hr).
  - right. apply in_flat_map. exists c. split; [exact Hc | exact IH].
Qed.

(** ** Where an accepted object ends *)





Lemma cap_ok_subdivide qt qt' :
  every_node cap_ok qt -> QT_Subdivide qt = Ok qt' -> every_node cap_ok qt'.
Proof.
  intros Hqt. pose proof (every_node_here _ _ Hqt) as [Hcap Hcnt].
  rewrite QT_Subdivide_result by lia. intros [= <-].
  assert (Hlen : forall f, Z.of_nat (length (filter f (buffer qt))) <= capacity qt).
  { intros f. pose proof (filter_length f (buffer qt)).
    unfold obj_count in Hcnt. lia. }
  constructor; [unfold cap_ok, obj_count; cbn; lia|].
  cbn [branches subdivided].
  repeat constructor; cbn [capacity leaf_with]; try lia;
    unfold obj_count; cbn [buffer objects leaf_with]; apply Hlen.
Qed.


(** ** Subdivision without rounding *)

Lemma BoundaryContains_exact b p :
  exact_edges b -> finite (x p) = true -> finite (y p) = true ->
  (BoundaryContains b p = true <->
   (real (x (pos b)) - real (x (half_dim b)) <= real (x p)
    <= real (x (pos b)) + real (x (half_dim b)))%Q /\
   (real (y (pos b)) - real (y (half_dim b)) <= real (y p)
    <= real (y (pos b)) + real (y (half_dim b)))%Q).
Proof.
  intros [[Fw Ew] [[Fe Ee] [[Fn En] [Fs Es]]]] Hx Hy.
  rewrite (BoundaryContains_real b p Hx Hy Fw Fe Fn Fs), Ew, Ee, En, Es.
  reflexivity.
Qed.

Local Open Scope Q_scope.

Lemma half_twice (h : Q) : h / 2 + h / 2 == h.
Proof. field. Qed.

(** The four quadrants as intervals, when nothing is rounded. *)
Lemma quadrants_exact b p :
  exact_split b -> finite (x p) = true -> finite (y p) = true ->
  (BoundaryContains b p = true <->
   (real (x (pos b)) - real (x (half_dim b)) <= real (x p)
    <= real (x (pos b)) + real (x (half_dim b))) /\
   (real (y (pos b)) - real (y (half_dim b)) <= real (y p)
    <= real (y (pos b)) + real (y (half_dim b)))) /\
  (BoundaryContains (b_northwest b) p = true <->
   (real (x (pos b)) - real (x (half_dim b)) <= real (x p) <= real (x (pos b))) /\
   (real (y (pos b)) - real (y (half_dim b)) <= real (y p) <= real (y (pos b)))) /\
  (BoundaryContains (b_southwest b) p = true <->
   (real (x (pos b)) - real (x (half_dim b)) <= real (x p) <= real (x (pos b))) /\
   (real (y (pos b)) <= real (y p) <= real (y (pos b)) + real (y (half_dim b)))) /\
  (BoundaryContains (b_northeast b) p = true <->
   (real (x (pos b)) <= real (x p) <= real (x (pos b)) + real (x (half_dim b))) /\
   (real (y (pos b)) - real (y (half_dim b)) <= real (y p) <= real (y (pos b)))) /\
  (BoundaryContains (b_southeast b) p = true <->
   (real (x (pos b)) <= real (x p) <= real (x (pos b)) + real (x (half_dim b))) /\
   (real (y (pos b)) <= real (y p) <= real (y (pos b)) + real (y (half_dim b)))).
Proof.
  intros [[_ Ehx] [[_ Ehy] [[_ Ewx] [[_ Eex] [[_ Eny] [[_ Esy] [Hb Hq]]]]]]] Hx Hy.
  inversion Hq as [|? ? Hnw Hq1]; subst. inversion Hq1 as [|? ? Hsw Hq2]; subst.
  inversion Hq2 as [|? ? Hne Hq3]; subst. inversion Hq3 as [|? ? Hse _]; subst.
  split; [exact (BoundaryContains_exact b p Hb Hx Hy)|].
  rewrite (BoundaryContains_exact _ p Hnw Hx Hy).
  rewrite (BoundaryContains_exact _ p Hsw Hx Hy).
  rewrite (BoundaryContains_exact _ p Hne Hx Hy).
  rewrite (BoundaryContains_exact _ p Hse Hx Hy).
  change (half_dim (b_northwest b)) with (child_half b).
  change (half_dim (b_southwest b)) with (child_half b).
  change (half_dim (b_northeast b)) with (child_half b).
  change (half_dim (b_southeast b)) with (child_half b).
  change (x (pos (b_southwest b))) with (x (pos (b_northwest b))).
  change (x (pos (b_northeast b))) with (x (pos (b_southeast b))).
  change (y (pos (b_northeast b))) with (y (pos (b_northwest b))).
  change (y (pos (b_southwest b))) with (y (pos (b_southeast b))).
  rewrite Ehx, Ehy, Ewx, Eex, Eny, Esy.
  pose proof (half_twice (real (x (half_dim b)))) as Hhx.
  pose proof (half_twice (real (y (half_dim b)))) as Hhy.
  set (hx2 := real (x (half_dim b)) / 2) in *.
  set (hy2 := real (y (half_dim b)) / 2) in *.
  clearbody hx2 hy2.
  repeat split; intros; lra.
Qed.

(** Without rounding the four quadrants cover their parent and nothing
    else, and share only the two split lines. *)
Lemma quadrants_tile b p :
  exact_split b -> finite (x p) = true -> finite (y p) = true ->
  (BoundaryContains b p = true <->
   exists q, In q (quadrants b) /\ BoundaryContains q p = true) /\
  (BoundaryContains b p = true ->
   ~ real (x p) == real (x (pos b)) -> ~ real (y p) == real (y (pos b)) ->
   length (filter (fun q => BoundaryContains q p) (quadrants b)) = 1%nat).
Proof.
  intros Hs Hx Hy.
  destruct (quadrants_exact b p Hs Hx Hy) as [Hb [Hnw [Hsw [Hne Hse]]]].
  split; [split|].
  - intros Hc. apply Hb in Hc.
    destruct (Qlt_le_dec (real (x (pos b))) (real (x p))) as [Hlx|Hlx];
      destruct (Qlt_le_dec (real (y (pos b))) (real (y p))) as [Hly|Hly].
    + exists (b_southeast b). split; [cbn; tauto|]. apply Hse. lra.
    + exists (b_northeast b). split; [cbn; tauto|]. apply Hne. lra.
    + exists (b_southwest b). split; [cbn; tauto|]. apply Hsw. lra.
    + exists (b_northwest b). split; [cbn; tauto|]. apply Hnw. lra.
  - intros [q [Hin Hc]]. apply Hb.
    destruct Hin as [<-|[<-|[<-|[<-|[]]]]];
      [apply Hnw in Hc | apply Hsw in Hc | apply Hne in Hc | apply Hse in Hc]; lra.
  - intros Hc Hnx Hny. apply Hb in Hc. cbn [quadrants filter].
    destruct (BoundaryContains (b_northwest b) p) eqn:E1;
      destruct (BoundaryContains (b_southwest b) p) eqn:E2;
      destruct (BoundaryContains (b_northeast b) p) eqn:E3;
      destruct (BoundaryContains (b_southeast b) p) eqn:E4;
      try reflexivity; exfalso;
      rewrite ?not_true_iff_false in *;
      repeat match goal with
             | H : true = true <-> _ |- _ => apply proj1 in H; specialize (H eq_refl)
             | H : false = true <-> _ |- _ =>
                 apply proj2 in H;
                 assert (~ _) by (let K := fresh in intros K; apply H in K; discriminate);
                 clear H
             end;
      lra.
Qed.

Local Close Scope Q_scope.

(** ** The first quadrant that contains a point *)

Lemma first_match_spec qs p : forall i,
  first_match qs p = Some i <->
  exists q, nth_error qs i = Some q /\ BoundaryContains q p = true /\
            forall k q', (k < i)%nat -> nth_error qs k = Some q' ->
                         BoundaryContains q' p = false.
Proof.
  induction qs as [|q0 rest IH]; intros i; cbn [first_match].
  - split; [discriminate|]. intros [q [H _]]. destruct i; discriminate.
  - destruct (BoundaryContains q0 p) eqn:E0.
    + split.
      * intros [= <-]. exists q0. repeat split; auto. intros k q' Hk. lia.
      * intros [q [Hn [Hq Hbefore]]]. destruct i as [|i]; [reflexivity|].
        specialize (Hbefore O q0 ltac:(lia) eq_refl). congruence.
    + destruct i as [|i].
      * split.
        -- destruct (first_match rest p); discriminate.
        -- intros [q [Hn [Hq _]]]. cbn in Hn. congruence.
      * destruct (first_match rest p) as [j|] eqn:Ej; cbn [option_map].
        -- split.
           ++ intros [= ->]. destruct (proj1 (IH i) eq_refl) as [q [Hn [Hq Hb]]].
              exists q. repeat split; auto. intros [|k] q' Hk; cbn [nth_error].
              ** intros [= <-]. exact E0.
              ** apply Hb. lia.
           ++ intros [q [Hn [Hq Hb]]]. f_equal. symmetry.
              assert (Hi : Some j = Some i); [|congruence].
              apply IH. exists q. repeat split; auto.
              intros k q' Hk Hk'. apply (Hb (S k) q'); [lia | exact Hk'].
        -- split; [discriminate|]. intros [q [Hn [Hq Hb]]].
           assert (Hi : None = Some i); [|discriminate].
           apply IH. exists q. repeat split; auto.
           intros k q' Hk Hk'. apply (Hb (S k) q'); [lia | exact Hk'].
Qed.

Lemma lands_spec b i o :
  lands b i o = true <-> first_match (quadrants b) (obj_pos o) = Some i.
Proof.
  unfold lands, picks. destruct (first_match _ _) as [j|].
  - rewrite Nat.eqb_eq. split; congruence.
  - split; discriminate.
Qed.

(** What the four selections keep of a buffer: the objects some quadrant
    contains. *)
Lemma lands_keeps b l o :
  In o (filter (lands b 0) l ++ filter (lands b 1) l ++
        filter (lands b 2) l ++ filter (lands b 3) l) <->
  In o l /\ existsb (fun q => BoundaryContains q (obj_pos o)) (quadrants b) = true.
Proof.
  rewrite !in_app_iff, !filter_In. unfold lands, picks.
  cbn [quadrants first_match existsb].
  destruct (BoundaryContains (b_northwest b) (obj_pos o));
    destruct (BoundaryContains (b_southwest b) (obj_pos o));
    destruct (BoundaryContains (b_northeast b) (obj_pos o));
    destruct (BoundaryContains (b_southeast b) (obj_pos o));
    cbn [option_map Nat.eqb orb]; intuition discriminate.
Qed.

(** ** Capacities *)

Lemma doubled_cap_ok_insert cap n qt obj qt' r :
  every_node (fun t => cap_ok t /\ doubled_from cap t) qt ->
  QT_Insert_fuel n qt obj = Ok (qt', r) ->
  every_node (fun t => cap_ok t /\ doubled_from cap t) qt'.
Proof.
  apply (QT_Insert_fuel_every (fun t => cap_ok t /\ doubled_from cap t)).
  - intros q o [Hok Hd] Hin Hr. split; [|exact Hd].
    destruct Hok as [? ?]. apply has_room_lt in Hr. unfold cap_ok.
    rewrite obj_count_append. cbn [capacity append_object]. lia.
  - intros q o g [Hok [k Hk]] _ _ _ Hg.
    destruct (grow_cap_ok _ _ Hok Hg) as [-> Hle]. destruct Hok as [? ?]. split.
    + unfold cap_ok. rewrite obj_count_append. cbn [capacity append_object].
      unfold obj_count in *. cbn [buffer objects]. lia.
    + exists (S k). cbn [capacity append_object].
      rewrite Hk, Nat2Z.inj_succ, Z.pow_succ_r by lia. ring.
  - intros q b [[? ?] Hd] _ _. split; [|exact Hd].
    unfold cap_ok, obj_count. cbn. lia.
  - intros q bs [[? ?] Hd] _ _ _. split; [|exact Hd].
    unfold cap_ok, obj_count. cbn. lia.
Qed.

(** ** A root without capacity *)


(** * Running the embedding *)

(** Five insertions into a root of capacity 4 are all accepted; the fifth
    subdivides the root, and a query over the root's rectangle returns the
    five payloads. *)
Example five_points_scenario :
  match build (square 0 0 100) 4 five_points with
  | Ok (qt, flags) =>
      flags = [true; true; true; true; true] /\
      QT_IsLeaf qt = false /\
      map data (fst (QT_Query qt (square 0 0 100) [])) = [3; 5; 4; 1; 2]
  | _ => False
  end.
Proof. vm_compute. repeat split. Qed.

(** A point outside the root's rectangle is refused and the root is left
    as it was. *)
Example outside_point_scenario :
  QT_Insert (new_root (square 0 0 100) 4) (obj_at 1 500 500)
  = Ok (new_root (square 0 0 100) 4, false).
Proof. reflexivity. Qed.

(** A root created with capacity 0 ends the process at its first accepted
    insertion, and [QT_New] with a negative capacity ends it at once. *)
Example zero_capacity_scenario :
  build (square 0 0 1) 0 [obj_at 1 0 0] = Exited /\
  QT_New (square 0 0 1) (-1) = Exited.
Proof. split; reflexivity. Qed.

(** The east edge of the square of half extent 1 around 16777218: the sum
    16777219 is no number of binary32, and the nearest one with an even
    mantissa is 16777220. *)
Example rounded_east_edge :
  nearest (real (of_Z 16777218) + real (of_Z 1)) = real (of_Z 16777220) /\
  fadd (of_Z 16777218) (of_Z 1) = of_Z 16777220.
Proof. split; vm_compute; reflexivity. Qed.

(** * The specified properties *)

(** ** The rectangle predicates *)

(** C8 (as stated, fails).  The edges are computed in binary32.  Around
    the centre 16777218 with half extent 1, the east edge 16777219 is not a
    float and is rounded to 16777220: the point 16777220 is accepted
    although it lies outside the closed interval [[16777217, 16777219]]. *)
Lemma rounded_edge_admits_outside_point :
  exists b p,
    BoundaryContains b p = true /\
    finite (x p) = true /\ finite (x (pos b)) = true /\
    finite (x (half_dim b)) = true /\
    ~ (real (x p) <= real (x (pos b)) + real (x (half_dim b)))%Q.
Proof.
  exists (square 16777218 0 1), (vec 16777220 0).
  repeat split; try reflexivity.
  vm_compute. intros H. apply H. reflexivity.
Qed.

(** C8 (amended).  Let the point, the centre and the half extents have
    finite coordinates.  Every point of the closed rectangle
    [[centre - half extent, centre + half extent]], its edges and corners
    included, is contained.  The four edges are computed in binary32: when
    none of them overflows, [BoundaryContains] returns [true] exactly when
    the point's [x] lies in the closed interval between the numbers of
    binary32 nearest to [centre.x - half_extent.x] and to
    [centre.x + half_extent.x] (ties to even), and its [y] in the analogous
    interval; a point outside the rectangle is contained only where
    rounding moved an edge as far as the point.  When the four edges are
    computed without rounding, these are the intervals
    [[centre - half extent, centre + half extent]] themselves. *)
Theorem BoundaryContains_rounded_intervals (b : Boundary) (p : Vec2) :
  finite_vec p = true -> finite_boundary b = true ->
  ((real (x (pos b)) - real (x (half_dim b)) <= real (x p)
    <= real (x (pos b)) + real (x (half_dim b)))%Q /\
   (real (y (pos b)) - real (y (half_dim b)) <= real (y p)
    <= real (y (pos b)) + real (y (half_dim b)))%Q ->
   BoundaryContains b p = true) /\
  (finite (west b) = true -> finite (east b) = true ->
   finite (north b) = true -> finite (south b) = true ->
   (BoundaryContains b p = true <->
    (nearest (real (x (pos b)) - real (x (half_dim b))) <= real (x p)
     <= nearest (real (x (pos b)) + real (x (half_dim b))))%Q /\
    (nearest (real (y (pos b)) - real (y (half_dim b))) <= real (y p)
     <= nearest (real (y (pos b)) + real (y (half_dim b))))%Q)) /\
  (exact_edges b ->
   (BoundaryContains b p = true <->
    (real (x (pos b)) - real (x (half_dim b)) <= real (x p)
     <= real (x (pos b)) + real (x (half_dim b)))%Q /\
    (real (y (pos b)) - real (y (half_dim b)) <= real (y p)
     <= real (y (pos b)) + real (y (half_dim b)))%Q)).
Proof.
  intros Hp Hb. split; [|split].
  - intros [Hx Hy]. exact (BoundaryContains_complete b p Hp Hb Hx Hy).
  - intros Fw Fe Fn Fs. exact (BoundaryContains_nearest b p Hp Hb Fw Fe Fn Fs).
  - intros He. destruct (finite_vec_true _ Hp) as [Hx Hy].
    exact (BoundaryContains_exact b p He Hx Hy).
Qed.

(** The square of half extent 100 around the origin and a point of its
    east edge. *)
Lemma BoundaryContains_rounded_intervals_witness :
  BoundaryContains (square 0 0 100) (vec 100 10) = true.
Proof.
  apply (proj1 (BoundaryContains_rounded_intervals (square 0 0 100) (vec 100 10)
                  eq_refl eq_refl)).
  repeat split; vm_compute; discriminate.
Defined.

(** C9 (as stated, fails).  Both sides of the test are rounded.  Two
    rectangles whose centres are 16777220 apart, with half extents 16777218
    and 1, are separated on the x axis, 16777220 being more than 16777219;
    but the sum of the half extents is rounded to 16777220 and the
    rectangles are reported as intersecting. *)
Lemma rounded_reach_hides_separation :
  exists a b,
    BoundaryIntersects a b = true /\
    finite (x (pos a)) = true /\ finite (x (pos b)) = true /\
    finite (x (half_dim a)) = true /\ finite (x (half_dim b)) = true /\
    (real (x (half_dim a)) + real (x (half_dim b))
     < Qabs (real (x (pos a)) - real (x (pos b))))%Q.
Proof.
  exists (mkBoundary (vec 0 0) (vec 16777218 1)),
         (mkBoundary (vec 16777220 0) (vec 1 1)).
  repeat split; reflexivity.
Qed.

(** C9 (amended).  [BoundaryIntersects] is symmetric, for all floats.  Let
    the centres and the half extents of both rectangles be finite.  Two
    rectangles whose centres are, on each axis, no further apart than the
    sum of the two half extents -- overlapping, or merely touching at an
    edge or a corner -- are reported as intersecting; so [false] is
    returned only when on some axis the distance of the centres strictly
    exceeds the sum of the half extents.  Both sides of each test are
    computed in binary32: when neither overflows, [false] is returned
    exactly when on some axis the number of binary32 nearest to the
    distance strictly exceeds the number nearest to the sum (ties to
    even), so that a separation which rounding closes is not seen.  Where
    distances and sums are computed without rounding, [false] is returned
    exactly when on some axis the distance exceeds the sum. *)
Theorem BoundaryIntersects_symmetric_rounded (a b : Boundary) :
  BoundaryIntersects a b = BoundaryIntersects b a /\
  (finite_boundary a = true -> finite_boundary b = true ->
   ((Qabs (real (x (pos a)) - real (x (pos b)))
     <= real (x (half_dim a)) + real (x (half_dim b)))%Q ->
    (Qabs (real (y (pos a)) - real (y (pos b)))
     <= real (y (half_dim a)) + real (y (half_dim b)))%Q ->
    BoundaryIntersects a b = true) /\
   (BoundaryIntersects a b = false ->
    (real (x (half_dim a)) + real (x (half_dim b))
     < Qabs (real (x (pos a)) - real (x (pos b))))%Q \/
    (real (y (half_dim a)) + real (y (half_dim b))
     < Qabs (real (y (pos a)) - real (y (pos b))))%Q) /\
   (finite (apart_x a b) = true -> finite (reach_x a b) = true ->
    finite (apart_y a b) = true -> finite (reach_y a b) = true ->
    (BoundaryIntersects a b = false <->
     (nearest (real (x (half_dim a)) + real (x (half_dim b)))
      < nearest (Qabs (real (x (pos a)) - real (x (pos b)))))%Q \/
     (nearest (real (y (half_dim a)) + real (y (half_dim b)))
      < nearest (Qabs (real (y (pos a)) - real (y (pos b)))))%Q)) /\
   (exactly (fsub (x (pos a)) (x (pos b))) (real (x (pos a)) - real (x (pos b))) ->
    exactly (reach_x a b) (real (x (half_dim a)) + real (x (half_dim b))) ->
    exactly (fsub (y (pos a)) (y (pos b))) (real (y (pos a)) - real (y (pos b))) ->
    exactly (reach_y a b) (real (y (half_dim a)) + real (y (half_dim b))) ->
    (BoundaryIntersects a b = false <->
     (real (x (half_dim a)) + real (x (half_dim b))
      < Qabs (real (x (pos a)) - real (x (pos b))))%Q \/
     (real (y (half_dim a)) + real (y (half_dim b))
      < Qabs (real (y (pos a)) - real (y (pos b))))%Q))).
Proof.
  split; [apply BoundaryIntersects_comm|].
  intros Ha Hb.
  destruct (finite_boundary_true _ Ha) as [[Hax Hay] [Hahx Hahy]].
  destruct (finite_boundary_true _ Hb) as [[Hbx Hby] [Hbhx Hbhy]].
  pose proof (BoundaryIntersects_complete a b Ha Hb) as Htouch.
  split; [exact Htouch|]. split; [|split].
  - intros Hfalse.
    destruct (Qlt_le_dec (real (x (half_dim a)) + real (x (half_dim b)))
                         (Qabs (real (x (pos a)) - real (x (pos b)))))
      as [Hx|Hx]; [left; exact Hx|].
    destruct (Qlt_le_dec (real (y (half_dim a)) + real (y (half_dim b)))
                         (Qabs (real (y (pos a)) - real (y (pos b)))))
      as [Hy|Hy]; [right; exact Hy|].
    rewrite (Htouch Hx Hy) in Hfalse. discriminate.
  - intros Fax Frx Fay Fry.
    rewrite (BoundaryIntersects_real a b Fax Frx Fay Fry).
    unfold apart_x, reach_x, apart_y, reach_y in *.
    rewrite (real_fabs_fsub _ _ Hax Hbx (finite_fabs_inv _ Fax)).
    rewrite (real_fabs_fsub _ _ Hay Hby (finite_fabs_inv _ Fay)).
    rewrite (real_fadd _ _ Hahx Hbhx Frx), (real_fadd _ _ Hahy Hbhy Fry).
    reflexivity.
  - intros [Fdx Edx] [Frx Erx] [Fdy Edy] [Fry Ery].
    rewrite (BoundaryIntersects_real a b (finite_fabs _ Fdx) Frx
               (finite_fabs _ Fdy) Fry).
    unfold apart_x, apart_y in *. rewrite !real_fabs, Edx, Erx, Edy, Ery.
    reflexivity.
Qed.

(** Two unit squares that touch along an edge. *)
Lemma BoundaryIntersects_symmetric_rounded_witness :
  BoundaryIntersects (square 0 0 1) (square 2 0 1) = true.
Proof.
  apply (proj1 (proj2 (BoundaryIntersects_symmetric_rounded
                         (square 0 0 1) (square 2 0 1)) eq_refl eq_refl));
    vm_compute; discriminate.
Defined.

(** ** Range query: pruning and the returned flag *)

(** C7.  When the region does not intersect the node's boundary, [QT_Query]
    returns [false] and leaves the result sequence as it was; when it does
    intersect, [QT_Query] returns [true] and only appends to the sequence,
    whatever matched.  In particular a query with an empty result sequence
    over a region disjoint from the root boundary yields no object. *)
Theorem QT_Query_prunes (qt : QuadTree) (query : Boundary)
        (results : list QT_Object) :
  (BoundaryIntersects (boundary qt) query = false ->
   QT_Query qt query results = (results, false)) /\
  (BoundaryIntersects (boundary qt) query = true ->
   snd (QT_Query qt query results) = true /\
   exists found, fst (QT_Query qt query results) = results ++ found) /\
  (BoundaryIntersects (boundary qt) query = false ->
   fst (QT_Query qt query []) = []).
Proof.
  repeat split.
  - intros Hi. rewrite QT_Query_unfold, Hi. reflexivity.
  - rewrite QT_Query_unfold, H. reflexivity.
  - rewrite QT_Query_append. cbn [fst]. eauto.
  - intros Hi. rewrite QT_Query_unfold, Hi. reflexivity.
Qed.

(** A query far away from a one-object tree, and a query on top of it. *)
Lemma QT_Query_prunes_witness :
  QT_Query (append_object (new_root (square 0 0 100) 4) (obj_at 1 10 10))
           (square 500 500 5) [] = ([], false) /\
  snd (QT_Query (append_object (new_root (square 0 0 100) 4) (obj_at 1 10 10))
                (square 50 50 5) []) = true.
Proof.
  split.
  - apply (proj1 (QT_Query_prunes _ (square 500 500 5) [])). reflexivity.
  - apply (proj1 (proj2 (QT_Query_prunes _ (square 50 50 5) []))). reflexivity.
Defined.

(** ** Insertion *)

(** C6.  A call of [QT_Insert] that returns, returns [false] exactly when
    the object's position is not contained in the node's boundary, and in
    that case the node is left as it was, so that every later query answers
    as before.  A call on a position outside the boundary always returns.
    A call on a position inside returns or ends the process; it returns
    when the node respects its capacity and the capacity can be doubled
    within [int]. *)
Theorem QT_Insert_false_iff_outside (qt : QuadTree) (obj : QT_Object) :
  (forall qt' r,
      QT_Insert qt obj = Ok (qt', r) ->
      (r = false <-> BoundaryContains (boundary qt) (obj_pos obj) = false) /\
      (r = false ->
       qt' = qt /\
       forall region results,
         QT_Query qt' region results = QT_Query qt region results)) /\
  (BoundaryContains (boundary qt) (obj_pos obj) = false ->
   QT_Insert qt obj = Ok (qt, false)) /\
  (1 <= capacity qt -> 2 * capacity qt <= INT_MAX ->
   obj_count qt <= capacity qt ->
   exists qt' r, QT_Insert qt obj = Ok (qt', r)) /\
  QT_Insert qt obj <> NoFuel.
Proof.
  split; [|split; [|split]].
  - intros qt' r E. apply QT_Insert_fuel_outcome in E.
    pose proof (insert_outcome_flag _ _ _ _ E) as Hflag.
    pose proof (insert_outcome_rejected _ _ _ _ E) as Hrej.
    cbn [fst snd] in *. split.
    + now rewrite Hflag.
    + intros Hr. rewrite (Hrej Hr). auto.
  - intros Hc. unfold QT_Insert.
    destruct (fuel_for qt); cbn [QT_Insert_fuel]; rewrite Hc; reflexivity.
  - apply QT_Insert_returns.
  - apply QT_Insert_ends.
Qed.

(** The spec's scenario: the point [(500, 500)] and a root of half extent
    100, and a point the root accepts. *)
Lemma QT_Insert_false_iff_outside_witness :
  QT_Insert (new_root (square 0 0 100) 4) (obj_at 1 500 500)
  = Ok (new_root (square 0 0 100) 4, false) /\
  exists qt' r, QT_Insert (new_root (square 0 0 100) 4) (obj_at 2 10 10) = Ok (qt', r).
Proof.
  split.
  - apply (proj1 (proj2 (QT_Insert_false_iff_outside
                           (new_root (square 0 0 100) 4) (obj_at 1 500 500)))).
    reflexivity.
  - apply (proj1 (proj2 (proj2 (QT_Insert_false_iff_outside
                                  (new_root (square 0 0 100) 4) (obj_at 2 10 10)))));
      vm_compute; discriminate.
Defined.

(** ** Inserted objects that a query no longer finds *)

(** C1 (fails on the code).  Both objects lie in the root's boundary and
    both insertions return [true].  The second one subdivides the root; the
    first object, on the root's centre [(0.1f, 0.1f)], is contained in none
    of the four quadrants computed in binary32, and the push-down loop of
    [QT_Subdivide] drops it: the query over the root's boundary returns the
    second object only. *)
Theorem full_query_misses_inserted_object :
  Forall (fun o => BoundaryContains tenth_square (obj_pos o) = true)
         [tenth_centre; obj_at 2 0 0] /\
  exists qt,
    build tenth_square 1 [tenth_centre; obj_at 2 0 0] = Ok (qt, [true; true]) /\
    fst (QT_Query qt tenth_square []) = [obj_at 2 0 0] /\
    all_objects qt = [obj_at 2 0 0].
Proof.
  split; [repeat constructor|].
  eexists. split; [vm_compute; reflexivity|]. split; reflexivity.
Qed.

(** ** Internal nodes and their buffers *)

(** C2 (fails on the code).  The second insertion subdivides the root; the
    third, whose point the root contains, ends in the root's own buffer:
    the root is then an internal node holding [obj_at 3 20 20]. *)
Theorem internal_node_buffers_object :
  exists qt,
    build (square 0 0 100) 1 three_points = Ok (qt, [true; true; true]) /\
    QT_IsLeaf qt = false /\
    length (branches qt) = 4%nat /\
    objects qt = Some [obj_at 3 20 20].
Proof.
  eexists. split; [vm_compute; reflexivity|]. repeat split.
Qed.

(** ** Depth of the tree *)




(** ** Buffers never overflow *)

(** C10.  A root built with a capacity of at least 1 satisfies
    [obj_count <= capacity]; every call of [QT_Insert] and of
    [QT_Subdivide] that returns keeps that bound at every node, hence it
    holds in every tree built by insertions.  [QT_Subdivide] does return on
    such a tree, [QT_Insert] does when the node's capacity can be doubled
    within [int], and a sequence of insertions into a fresh root does when
    four times the capacity plus the number of objects fits [int];
    otherwise the process exits, leaving no tree.  At the node [QT_Insert]
    is called on, an object is appended only to a buffer with
    [obj_count < capacity], or right after the capacity has been
    doubled. *)
Theorem obj_count_within_capacity (b : Boundary) (cap : Z) :
  1 <= cap <= INT_MAX ->
  (QT_New b cap = Ok (new_root b cap) /\ every_node cap_ok (new_root b cap)) /\
  (forall qt obj qt' r,
      every_node cap_ok qt -> QT_Insert qt obj = Ok (qt', r) ->
      every_node cap_ok qt') /\
  (forall qt qt',
      every_node cap_ok qt -> QT_Subdivide qt = Ok qt' -> every_node cap_ok qt') /\
  (forall objs qt rs,
      build b cap objs = Ok (qt, rs) -> every_node cap_ok qt) /\
  (forall qt obj,
      every_node cap_ok qt -> 2 * capacity qt <= INT_MAX ->
      exists qt' r, QT_Insert qt obj = Ok (qt', r)) /\
  (forall qt, every_node cap_ok qt -> exists qt', QT_Subdivide qt = Ok qt') /\
  (forall objs,
      4 * (cap + Z.of_nat (length objs)) <= INT_MAX ->
      exists qt rs, build b cap objs = Ok (qt, rs)) /\
  (forall qt obj qt' r,
      cap_ok qt -> QT_Insert qt obj = Ok (qt', r) ->
      qt' = qt \/
      (obj_count qt < capacity qt /\ qt' = append_object qt obj) \/
      (exists bs, qt' = subdivided qt bs) \/
      (exists q,
          capacity q = capacity qt /\ obj_count q <= capacity q /\
          qt' = append_object
                  (mkQuadTree (boundary q) (Some (buffer q)) (capacity q * 2)
                              (depth q) (branches q)) obj)).
Proof.
  intros Hcap.
  assert (Hnew : every_node cap_ok (new_root b cap)).
  { constructor; [|constructor]. unfold cap_ok, obj_count. cbn. lia. }
  split; [|split; [|split; [|split; [|split; [|split; [|split]]]]]].
  - split; [|exact Hnew]. rewrite QT_New_eq.
    destruct (0 <=? cap) eqn:E; [reflexivity | apply Z.leb_gt in E; lia].
  - intros qt obj qt' r Hqt E. eapply cap_ok_insert; eauto.
  - intros qt qt' Hqt E. eapply cap_ok_subdivide; eauto.
  - intros objs qt rs E. apply build_Ok in E. destruct E as [_ E].
    exact (insert_all_every cap_ok cap_ok_insert _ _ _ _ Hnew E).
  - intros qt obj Hqt H2. destruct (every_node_here _ _ Hqt) as [H1 H3].
    apply QT_Insert_returns; lia.
  - intros qt Hqt. destruct (every_node_here _ _ Hqt) as [H1 H3].
    eexists. apply QT_Subdivide_result; lia.
  - intros objs Hb. apply build_returns; lia.
  - intros qt obj qt' r Hok E. apply QT_Insert_fuel_outcome in E.
    inversion E as [Hc | Hc Hr | g Hc Hr Hg Hgr
                    | n' bs1 bs En Hc Hr Hl Hd H0 Hpd Hif
                    | n' bs1 bs g En Hc Hr Hl Hd H0 Hpd Hif Hgr]; subst.
    + now left.
    + right; left. split; [now apply has_room_lt | reflexivity].
    + right; right; right. exists qt.
      destruct (grow_cap_ok _ _ Hok Hgr) as [-> _]. destruct Hok. auto.
    + right; right; left. now exists bs.
    + right; right; right. exists (subdivided qt bs).
      assert (Hs : cap_ok (subdivided qt bs)).
      { destruct Hok as [? ?]. unfold cap_ok, obj_count. cbn. lia. }
      destruct (grow_cap_ok _ _ Hs Hgr) as [-> _]. destruct Hs. auto.
Qed.

(** The fresh root of capacity 4 and the tree the five points build. *)
Lemma obj_count_within_capacity_witness :
  every_node cap_ok (new_root (square 0 0 100) 4) /\
  exists qt rs,
    build (square 0 0 100) 4 five_points = Ok (qt, rs) /\
    every_node cap_ok qt.
Proof.
  destruct (obj_count_within_capacity (square 0 0 100) 4)
    as [[_ H0] [_ [_ [H3 [_ [_ [H6 _]]]]]]].
  - vm_compute. split; discriminate.
  - split; [exact H0|].
    destruct (H6 five_points) as [qt [rs E]]; [vm_compute; discriminate|].
    exists qt, rs. split; [exact E | exact (H3 _ _ _ E)].
Defined.

(** ** Subdivision *)

(** C4 (fails on the code).  The leaf holds one object, on the centre
    [(0.1f, 0.1f)] of its boundary, which contains it.  None of the four
    quadrants computed in binary32 contains that position:
    [QT_Subdivide] offers the object to the four branches, none accepts,
    and the loop goes on without it.  The call returns four empty
    branches and the object is gone. *)
Theorem subdivide_drops_object :
  QT_IsLeaf tenth_leaf = true /\
  Forall (fun o => BoundaryContains (boundary tenth_leaf) (obj_pos o) = true)
         (buffer tenth_leaf) /\
  map (fun q => BoundaryContains q (obj_pos tenth_centre)) (quadrants tenth_square)
  = [false; false; false; false] /\
  exists qt',
    QT_Subdivide tenth_leaf = Ok qt' /\
    map buffer (branches qt') = [[]; []; []; []] /\
    all_objects qt' = [].
Proof.
  split; [reflexivity|]. split; [repeat constructor|]. split; [reflexivity|].
  eexists. split; [vm_compute; reflexivity|]. split; reflexivity.
Qed.

(** C5 (as stated, fails).  The centres of the quadrants are computed in
    binary32.  For the square of half extent 1 around [(16777216, 0)], the
    centres [16777216 - 0.5] and [16777216 + 0.5] are both rounded to
    16777216: the western and the eastern quadrants coincide, and the point
    [(16777215, 0)] of the parent lies in none of the four. *)
Lemma quadrants_miss_a_point :
  exists b p,
    BoundaryContains b p = true /\
    Forall (fun q => BoundaryContains q p = false) (quadrants b) /\
    b_northwest b = b_northeast b.
Proof.
  exists far_square, (vec 16777215 0).
  split; [reflexivity|]. split; [repeat constructor | reflexivity].
Qed.

(** C5 (amended).  A call of [QT_Subdivide] that returns leaves a node with
    exactly four branches, in the order north-west [(-x, -y)], south-west
    [(-x, +y)], north-east [(+x, -y)], south-east [(+x, +y)].  Each branch
    has the parent's half extent divided by two on both axes, its centre
    is the parent's centre minus or plus that halved extent on each axis,
    all three computed in binary32, and its depth is the parent's plus 1.
    Each branch is created with the parent's capacity, and still has it
    (and is a leaf) when the call returns, provided the parent's buffer
    respected its capacity; the call does return in that case.  When the
    halved extents, the centres and the edges are computed without
    rounding, the four rectangles tile the parent: a point with finite
    coordinates is in the parent exactly when it is in some quadrant, and
    a point of the parent off the two split lines is in exactly one. *)
Theorem subdivide_creates_four_quadrants (qt : QuadTree) :
  let cx := x (pos (boundary qt)) in
  let cy := y (pos (boundary qt)) in
  let hx := fdiv (x (half_dim (boundary qt))) two in
  let hy := fdiv (y (half_dim (boundary qt))) two in
  (forall qt',
      QT_Subdivide qt = Ok qt' ->
      exists nw sw ne se,
        qt' = mkQuadTree (boundary qt) None (capacity qt) (depth qt)
                         [nw; sw; ne; se] /\
        (boundary nw = mkBoundary (mkVec2 (fsub cx hx) (fsub cy hy)) (mkVec2 hx hy) /\
         boundary sw = mkBoundary (mkVec2 (fsub cx hx) (fadd cy hy)) (mkVec2 hx hy) /\
         boundary ne = mkBoundary (mkVec2 (fadd cx hx) (fsub cy hy)) (mkVec2 hx hy) /\
         boundary se = mkBoundary (mkVec2 (fadd cx hx) (fadd cy hy)) (mkVec2 hx hy)) /\
        Forall (fun c => depth c = depth qt + 1) [nw; sw; ne; se] /\
        (obj_count qt <= capacity qt ->
         Forall (fun c => capacity c = capacity qt /\ QT_IsLeaf c = true)
                [nw; sw; ne; se])) /\
  (forall bs,
      fresh_branches qt = Ok bs ->
      map capacity bs = [capacity qt; capacity qt; capacity qt; capacity qt]) /\
  (0 <= capacity qt -> obj_count qt <= capacity qt ->
   exists qt', QT_Subdivide qt = Ok qt') /\
  (exact_split (boundary qt) ->
   forall p,
     finite (x p) = true -> finite (y p) = true ->
     (BoundaryContains (boundary qt) p = true <->
      exists q, In q (quadrants (boundary qt)) /\ BoundaryContains q p = true) /\
     (BoundaryContains (boundary qt) p = true ->
      ~ (real (x p) == real cx)%Q -> ~ (real (y p) == real cy)%Q ->
      length (filter (fun q => BoundaryContains q p) (quadrants (boundary qt)))
      = 1%nat)).
Proof.
  intros cx cy hx hy. split; [|split; [|split]].
  - intros qt' E. unfold QT_Subdivide, QT_Subdivide_with in E.
    rewrite fresh_branches_eq in E.
    destruct (0 <=? capacity qt) eqn:E0; cbn [bind] in E; [|discriminate].
    apply Z.leb_le in E0.
    apply bind_Ok in E. destruct E as [bs [Hpd [= <-]]].
    pose proof (push_down_placed _ _ _ _ Hpd) as Hpl.
    pose proof (placed_length _ _ Hpl) as Hlen. destruct Hpl as [Hmap Hd].
    destruct bs as [|nw [|sw [|ne [|se [|]]]]]; try discriminate.
    exists nw, sw, ne, se. split; [reflexivity|].
    split; [cbn [map quadrants] in Hmap; injection Hmap as -> -> -> ->;
            repeat split|].
    split; [exact Hd|].
    intros Hcnt. rewrite (push_down_fresh _ qt Hcnt) in Hpd.
    injection Hpd as <- <- <- <-. repeat constructor.
  - intros bs E. rewrite fresh_branches_eq in E.
    destruct (0 <=? capacity qt); [|discriminate]. injection E as <-. reflexivity.
  - intros H0 Hcnt. eexists. apply QT_Subdivide_result; assumption.
  - intros Hs p Hx Hy. exact (quadrants_tile _ p Hs Hx Hy).
Qed.

(** The first subdivision of the square of half extent 100 around the
    origin, out of a leaf of capacity 4 holding one object; nothing is
    rounded there, and the point [(10, -20)] lies in one quadrant. *)
Lemma subdivide_creates_four_quadrants_witness :
  (exists qt',
      QT_Subdivide (append_object (new_root (square 0 0 100) 4) (obj_at 1 10 10))
      = Ok qt') /\
  length (filter (fun q => BoundaryContains q (vec 10 (-20)))
                 (quadrants (square 0 0 100))) = 1%nat.
Proof.
  pose proof (subdivide_creates_four_quadrants
                (append_object (new_root (square 0 0 100) 4) (obj_at 1 10 10)))
    as [_ [_ [Hret Htile]]].
  split.
  - apply Hret; vm_compute; discriminate.
  - apply (Htile ltac:(unfold exact_split, exact_edges, exactly;
                       repeat match goal with
                              | |- _ /\ _ => split
                              | |- Forall _ _ => constructor
                              end; vm_compute; reflexivity)
                 (vec 10 (-20)) eq_refl eq_refl).
    + reflexivity.
    + vm_compute. discriminate.
    + vm_compute. discriminate.
Defined.

(** * Further specified properties *)

(** ** Range query *)

(** X3.  What [QT_Query] appends, and the flag it returns, do not depend on
    what the result sequence already holds: earlier results stay in place
    and the new ones follow them.  Two queries in a row on one result
    sequence thus give the results of the first followed by those of the
    second. *)
Theorem QT_Query_keeps_earlier_results
        (qt : QuadTree) (region region' : Boundary) (results : list QT_Object) :
  QT_Query qt region results
  = (results ++ fst (QT_Query qt region []), snd (QT_Query qt region [])) /\
  fst (QT_Query qt region' (fst (QT_Query qt region results)))
  = results ++ fst (QT_Query qt region []) ++ fst (QT_Query qt region' []).
Proof.
  split; [apply QT_Query_append|].
  rewrite (QT_Query_append region qt results). cbn [fst].
  rewrite (QT_Query_append region' qt). cbn [fst]. unfold found.
  now rewrite <- app_assoc.
Qed.

(** X4.  On any tree whatsoever, every object a query appends has its
    position in the query region and is one of the objects stored in the
    tree, each stored object being appended at most once; so a query never
    appends more objects than the tree stores. *)
Theorem QT_Query_appends_stored_objects_of_region
        (qt : QuadTree) (region : Boundary) (results : list QT_Object) :
  exists hits,
    fst (QT_Query qt region results) = results ++ hits /\
    Forall (fun o => BoundaryContains region (obj_pos o) = true) hits /\
    (exists rest, Permutation (hits ++ rest) (all_objects qt)) /\
    (length hits <= length (all_objects qt))%nat.
Proof.
  exists (found qt region).
  destruct (found_sound region qt) as [Hin [rest Hp]].
  split; [now rewrite QT_Query_append|]. split; [exact Hin|].
  split; [now exists rest|].
  apply Permutation_length in Hp. rewrite length_app in Hp. lia.
Qed.

(** X16.  A query can miss a stored object of its region.  The pruning test
    and the containment test round differently: the root of half extent
    [0.1f] around [(0.2f, 0.2f)] accepts the object on [(0.3f, 0.2f)], the
    region of half extent [0.3f] around [(0.6f, 0.2f)] contains that
    position, and yet root and region are found not to intersect, so the
    query returns nothing. *)
Theorem pruning_hides_a_stored_object :
  exists root region o qt,
    build root 4 [o] = Ok (qt, [true]) /\
    all_objects qt = [o] /\
    BoundaryContains region (obj_pos o) = true /\
    BoundaryIntersects (boundary qt) region = false /\
    QT_Query qt region [] = ([], false).
Proof.
  exists (mkBoundary (mkVec2 (fdiv (of_Z 2) (of_Z 10)) (fdiv (of_Z 2) (of_Z 10)))
                     (mkVec2 tenth tenth)),
         (mkBoundary (mkVec2 (fdiv (of_Z 6) (of_Z 10)) (fdiv (of_Z 2) (of_Z 10)))
                     (mkVec2 (fdiv (of_Z 3) (of_Z 10)) (fdiv (of_Z 3) (of_Z 10)))),
         (mkObject 1 (mkVec2 (fdiv (of_Z 3) (of_Z 10)) (fdiv (of_Z 2) (of_Z 10)))).
  eexists. split; [vm_compute; reflexivity|]. repeat split.
Qed.

(** X19.  Pruning is safe for what lies in the rectangles.  Two rectangles
    that share a point -- a point of both closed rectangles
    [[centre - half extent, centre + half extent]], all coordinates
    finite -- are found to intersect, and both contain the point.  Hence a
    query returns every stored object whose position lies in the region
    and in the rectangle of each node on the way down to the buffer that
    holds it; the objects a query misses (X16) lie outside one of these
    rectangles and were let in by the rounding of an edge. *)
Theorem query_finds_stored_objects_inside
        (qt : QuadTree) (region : Boundary) (results : list QT_Object)
        (o : QT_Object) :
  stored_inside o qt -> inside region (obj_pos o) ->
  BoundaryIntersects (boundary qt) region = true /\
  BoundaryContains region (obj_pos o) = true /\
  BoundaryContains (boundary qt) (obj_pos o) = true /\
  In o (fst (QT_Query qt region results)) /\
  snd (QT_Query qt region results) = true.
Proof.
  intros Hs Hr.
  assert (Hin : inside (boundary qt) (obj_pos o)) by (destruct Hs; assumption).
  pose proof (inside_intersects _ _ _ Hin Hr) as Hi.
  split; [exact Hi|]. split; [exact (inside_contains _ _ Hr)|].
  split; [exact (inside_contains _ _ Hin)|].
  rewrite QT_Query_append. cbn [fst snd]. split.
  - apply in_or_app. right. exact (stored_inside_found o qt region Hs Hr).
  - rewrite QT_Query_unfold, Hi. reflexivity.
Qed.

(** The object on [(10, 10)], pushed down to the south-east branch of the
    subdivided root, and the region of half extent 5 around [(12, 12)]. *)
Lemma query_finds_stored_objects_inside_witness :
  In (obj_at 1 10 10) (fst (QT_Query two_point_root (square 12 12 5) [])).
Proof.
  assert (Hroot : inside (square 0 0 100) (vec 10 10)).
  { split; [reflexivity|]. split; [reflexivity|].
    repeat split; vm_compute; discriminate. }
  assert (Hse : inside (b_southeast (square 0 0 100)) (vec 10 10)).
  { split; [reflexivity|]. split; [reflexivity|].
    repeat split; vm_compute; discriminate. }
  assert (Hregion : inside (square 12 12 5) (vec 10 10)).
  { split; [reflexivity|]. split; [reflexivity|].
    repeat split; vm_compute; discriminate. }
  apply (query_finds_stored_objects_inside two_point_root (square 12 12 5) []
           (obj_at 1 10 10)).
  - apply (stored_below _ two_point_root
             (mkQuadTree (b_southeast (square 0 0 100))
                         (Some [obj_at 1 10 10]) 1 2 [])).
    + exact Hroot.
    + vm_compute. right. right. right. left. reflexivity.
    + apply stored_here; [exact Hse | left; reflexivity].
  - exact Hregion.
Defined.

(** ** Insertion *)



(** X8.  A call of [QT_Insert] that returns leaves the node's boundary and
    depth as they were; the node's capacity stays or is doubled (a
    capacity of at least 1 without overflow); and a node that has branches
    keeps having them, so no internal node turns back into a leaf. *)
Theorem QT_Insert_keeps_boundary_and_depth
        (qt : QuadTree) (obj : QT_Object) (qt' : QuadTree) (r : bool) :
  QT_Insert qt obj = Ok (qt', r) ->
  boundary qt' = boundary qt /\
  depth qt' = depth qt /\
  (capacity qt' = capacity qt \/
   capacity qt' = wrap_int (capacity qt * 2) /\ 0 < capacity qt') /\
  (1 <= capacity qt <= INT_MAX ->
   capacity qt' = capacity qt \/ capacity qt' = capacity qt * 2) /\
  (QT_IsLeaf qt = false -> QT_IsLeaf qt' = false).
Proof.
  intros E. apply QT_Insert_fuel_outcome in E.
  assert (Hw : 1 <= capacity qt <= INT_MAX -> 0 < wrap_int (capacity qt * 2) ->
               wrap_int (capacity qt * 2) = capacity qt * 2)
    by apply wrap_int_double.
  inversion E as [Hc | Hc Hr | g Hc Hr Hg Hgr
                  | n' bs1 bs En Hc Hr Hl Hd H0 Hpd Hif
                  | n' bs1 bs g En Hc Hr Hl Hd H0 Hpd Hif Hgr]; subst;
    try (apply grow_Ok in Hgr; destruct Hgr as [-> Hpos]);
    cbn [boundary depth capacity append_object subdivided] in *;
    repeat split; auto; try congruence.
Qed.

(** The sixth point makes the root of the five points, an internal node
    without buffer, double its capacity. *)
Lemma QT_Insert_keeps_boundary_and_depth_witness :
  exists qt qt' r,
    build (square 0 0 100) 4 five_points = Ok (qt, [true; true; true; true; true]) /\
    QT_Insert qt (obj_at 6 11 11) = Ok (qt', r) /\
    boundary qt' = boundary qt /\ depth qt' = depth qt.
Proof.
  eexists. eexists. eexists. split; [vm_compute; reflexivity|].
  assert (E : forall t o t' r', QT_Insert t o = Ok (t', r') ->
                QT_Insert t o = Ok (t', r') /\
                boundary t' = boundary t /\ depth t' = depth t).
  { intros t o t' r' H.
    destruct (QT_Insert_keeps_boundary_and_depth t o t' r' H) as [Hb [Hd _]].
    auto. }
  apply E. vm_compute. reflexivity.
Defined.

(** X9.  Once a node has branches, [QT_Insert] never touches them again:
    over any sequence of calls on such a node that return, the branches
    stay as they are, and every accepted object is appended, in call
    order, to the node's own buffer.  The calls do return when the node
    respects its capacity of at least 1 and four times the capacity plus
    the final number of objects fits [int]. *)
Theorem internal_node_keeps_its_branches (qt : QuadTree) (objs : list QT_Object) :
  QT_IsLeaf qt = false ->
  (forall qt' rs,
      insert_all qt objs = Ok (qt', rs) ->
      rs = map (fun o => BoundaryContains (boundary qt) (obj_pos o)) objs /\
      branches qt' = branches qt /\
      buffer qt' = buffer qt
                   ++ filter (fun o => BoundaryContains (boundary qt) (obj_pos o)) objs) /\
  (1 <= capacity qt -> obj_count qt <= capacity qt ->
   4 * (capacity qt + obj_count qt + Z.of_nat (length objs)) <= INT_MAX ->
   exists qt' rs, insert_all qt objs = Ok (qt', rs)).
Proof.
  intros Hl. split.
  - intros qt' rs E.
    destruct (insert_all_on_internal _ _ _ _ Hl E) as [Hrs [_ [Hb Hbuf]]]. auto.
  - intros H1 Hcnt Hb.
    apply (insert_all_returns (capacity qt) objs qt (obj_count qt)); try lia.
    unfold vector_ok. unfold obj_count in *.
    split; [unfold INT_MAX in *; lia|]. split; [lia|]. split; [lia|].
    split; [congruence|]. intros _. lia.
Qed.

(** The root two insertions have subdivided receives two more objects, one
    of them in the rectangle of its north-east branch. *)
Lemma internal_node_keeps_its_branches_witness :
  exists qt' rs,
    insert_all two_point_root [obj_at 3 20 20; obj_at 4 50 (-50)] = Ok (qt', rs) /\
    branches qt' = branches two_point_root /\
    buffer qt' = [obj_at 3 20 20; obj_at 4 50 (-50)].
Proof.
  destruct (internal_node_keeps_its_branches
              two_point_root [obj_at 3 20 20; obj_at 4 50 (-50)] eq_refl)
    as [Hkeep Hret].
  destruct (Hret ltac:(vm_compute; discriminate) ltac:(vm_compute; discriminate)
                 ltac:(vm_compute; discriminate)) as [qt' [rs E]].
  exists qt', rs. split; [exact E|].
  destruct (Hkeep _ _ E) as [_ [Hb Hbuf]]. split; [exact Hb | exact Hbuf].
Defined.

(** X10.  As long as a fresh root's capacity is not exceeded, insertions of
    points of its boundary never subdivide it: the calls return, the root
    stays a leaf of the same capacity whose buffer lists the objects in
    insertion order, and a query whose region passes the intersection test
    returns the objects of the region in that order (and nothing when the
    region fails the test). *)
Theorem first_insertions_fill_the_root_buffer
        (b : Boundary) (cap : Z) (objs : list QT_Object) :
  Z.of_nat (length objs) <= cap ->
  Forall (fun o => BoundaryContains b (obj_pos o) = true) objs ->
  build b cap objs
  = Ok (mkQuadTree b (Some objs) cap 1 [], map (fun _ => true) objs) /\
  forall region,
    fst (QT_Query (mkQuadTree b (Some objs) cap 1 []) region [])
    = if BoundaryIntersects b region
      then filter (fun o => BoundaryContains region (obj_pos o)) objs
      else [].
Proof.
  intros Hlen Hin. split.
  - rewrite build_eq by lia. apply (insert_all_with_room b cap 1 objs []); auto.
  - intros region. fold (found (mkQuadTree b (Some objs) cap 1 []) region).
    rewrite found_unfold. cbn [boundary buffer objects branches flat_map].
    destruct (BoundaryIntersects b region); [apply app_nil_r | reflexivity].
Qed.

(** Four of the five points fit the root of capacity 4; the query around
    [(10, 10)] returns the first two, in insertion order. *)
Lemma first_insertions_fill_the_root_buffer_witness :
  build (square 0 0 100) 4
        [obj_at 1 10 10; obj_at 2 12 12; obj_at 3 (-10) (-10); obj_at 4 10 (-10)]
  = Ok (mkQuadTree (square 0 0 100)
          (Some [obj_at 1 10 10; obj_at 2 12 12; obj_at 3 (-10) (-10);
                 obj_at 4 10 (-10)]) 4 1 [],
        [true; true; true; true]).
Proof.
  apply (first_insertions_fill_the_root_buffer (square 0 0 100) 4
           [obj_at 1 10 10; obj_at 2 12 12; obj_at 3 (-10) (-10); obj_at 4 10 (-10)]).
  - vm_compute. discriminate.
  - repeat constructor.
Defined.


(** X18.  A NaN coordinate fails every comparison.  A position with a NaN
    coordinate is contained in no boundary, so [QT_Insert] refuses the
    object and leaves the node as it was; a boundary whose centre or half
    extent has a NaN component contains no position; and a region whose
    centre is NaN on both axes passes the intersection test against every
    boundary, so a query with it visits every node and returns nothing. *)
Theorem nan_fails_every_test (b : Boundary) (p : Vec2) :
  (x p = S754_nan \/ y p = S754_nan -> BoundaryContains b p = false) /\
  (x (pos b) = S754_nan \/ y (pos b) = S754_nan \/
   x (half_dim b) = S754_nan \/ y (half_dim b) = S754_nan ->
   BoundaryContains b p = false) /\
  (forall qt obj,
      x (obj_pos obj) = S754_nan \/ y (obj_pos obj) = S754_nan ->
      QT_Insert qt obj = Ok (qt, false)) /\
  (forall region,
      x (pos region) = S754_nan -> y (pos region) = S754_nan ->
      BoundaryIntersects b region = true /\
      forall qt, fst (QT_Query qt region []) = []).
Proof.
  assert (Hp : forall b' p', x p' = S754_nan \/ y p' = S754_nan ->
                             BoundaryContains b' p' = false).
  { intros b' p' [H|H]; unfold BoundaryContains, fge, fle; rewrite H.
    - destruct (fsub _ _); reflexivity.
    - destruct (fsub (y (pos b')) _); cbn; apply andb_false_r. }
  assert (Hsub_l : forall a, fsub S754_nan a = S754_nan) by reflexivity.
  assert (Hsub_r : forall a, fsub a S754_nan = S754_nan) by (intros []; reflexivity).
  assert (Hadd_l : forall a, fadd S754_nan a = S754_nan) by reflexivity.
  assert (Hadd_r : forall a, fadd a S754_nan = S754_nan) by (intros []; reflexivity).
  assert (Hle : forall a, SFleb a S754_nan = false) by (intros []; reflexivity).
  assert (Hb : forall b' p',
             x (pos b') = S754_nan \/ y (pos b') = S754_nan \/
             x (half_dim b') = S754_nan \/ y (half_dim b') = S754_nan ->
             BoundaryContains b' p' = false).
  { intros b' p' H. unfold BoundaryContains, fge, fle.
    destruct H as [H|[H|[H|H]]]; rewrite H, ?Hsub_l, ?Hsub_r, ?Hadd_l, ?Hadd_r, ?Hle;
      rewrite ?andb_false_r; cbn [andb]; rewrite ?andb_false_r; reflexivity. }
  split; [apply Hp|]. split; [apply Hb|]. split.
  - intros qt obj H. unfold QT_Insert.
    destruct (fuel_for qt); cbn [QT_Insert_fuel]; rewrite (Hp _ _ H); reflexivity.
  - intros region Hx Hy. split.
    + assert (Hlt : forall a, SFltb a S754_nan = false) by (intros []; reflexivity).
      unfold BoundaryIntersects, fgt. rewrite Hx, Hy, !Hsub_r.
      cbn [fabs SFabs]. rewrite !Hlt. reflexivity.
    + intros qt. pose proof (found_sound region qt) as [Hin _].
      fold (found qt region). destruct (found qt region) as [|o l]; [reflexivity|].
      inversion Hin as [|? ? Ho _]; subst. unfold accepted in Ho.
      rewrite (Hb region (obj_pos o)) in Ho; [discriminate | now left].
Qed.

(** A position with a NaN abscissa and the square around the origin. *)
Lemma nan_fails_every_test_witness :
  BoundaryContains (square 0 0 100) (mkVec2 S754_nan (of_Z 0)) = false.
Proof.
  apply (proj1 (nan_fails_every_test (square 0 0 100) (mkVec2 S754_nan (of_Z 0)))).
  left. reflexivity.
Defined.

(** ** The shape of reachable trees *)

(** X11.  In a tree built by insertions into a fresh root, the root has
    depth 1 and, at every node: the node has either no branch or exactly
    four; a node with branches has depth at most [QT_MAX_DEPTH], its
    branches sit on its four quadrants in the order north-west,
    south-west, north-east, south-east, one level further down; and every
    object stored in the node's subtree passes the containment test of the
    node's boundary.  Such a tree is built when the capacity is at least
    1 and four times the capacity plus the number of objects fits
    [int]. *)
Theorem reachable_tree_shape (b : Boundary) (cap : Z) (objs : list QT_Object) :
  (forall qt rs,
      build b cap objs = Ok (qt, rs) ->
      depth qt = 1 /\
      every_node
        (fun t =>
           (branches t = [] \/
            (length (branches t) = 4%nat /\
             depth t <= QT_MAX_DEPTH /\
             map boundary (branches t) = quadrants (boundary t) /\
             Forall (fun c => depth c = depth t + 1) (branches t))) /\
           Forall (fun o => BoundaryContains (boundary t) (obj_pos o) = true)
                  (all_objects t))
        qt) /\
  (1 <= cap -> 4 * (cap + Z.of_nat (length objs)) <= INT_MAX ->
   exists qt rs, build b cap objs = Ok (qt, rs)).
Proof.
  split; [|apply build_returns].
  intros qt rs E. apply build_Ok in E. destruct E as [_ E].
  split; [exact (proj2 (insert_all_frame _ _ _ _ E))|].
  assert (Hbr : every_node branches_ok qt).
  { apply (insert_all_every branches_ok branches_ok_insert _ _ _ _) with (2 := E).
    constructor; [now left | constructor]. }
  assert (Hown : every_node holds_own qt).
  { apply (insert_all_every holds_own holds_own_insert _ _ _ _) with (2 := E).
    constructor; constructor. }
  pose proof (every_node_and _ _ _ Hbr Hown) as Hboth.
  revert Hboth. apply every_node_impl. intros t [[Hnil | [Hd Hpl]] Hin].
  - split; [now left | exact Hin].
  - split; [|exact Hin]. right.
    split; [exact (placed_length _ _ Hpl)|]. split; [exact Hd|]. exact Hpl.
Qed.

(** The tree the five points build. *)
Lemma reachable_tree_shape_witness :
  exists qt rs,
    build (square 0 0 100) 4 five_points = Ok (qt, rs) /\ depth qt = 1.
Proof.
  destruct (reachable_tree_shape (square 0 0 100) 4 five_points) as [Hshape Hret].
  destruct (Hret ltac:(vm_compute; discriminate) ltac:(vm_compute; discriminate))
    as [qt [rs E]].
  exists qt, rs. split; [exact E | exact (proj1 (Hshape _ _ E))].
Defined.

(** X12.  In a tree built by insertions into a fresh root of capacity
    [cap], a positive [int], the capacity of every node is [cap] doubled
    some number of times, without overflow: capacities only ever grow, and
    only by doubling. *)
Theorem capacities_are_doublings
        (b : Boundary) (cap : Z) (objs : list QT_Object) (qt : QuadTree)
        (rs : list bool) :
  1 <= cap <= INT_MAX ->
  build b cap objs = Ok (qt, rs) ->
  every_node (fun t => 1 <= capacity t <= INT_MAX /\
                       exists k : nat, capacity t = cap * 2 ^ Z.of_nat k) qt.
Proof.
  intros Hcap E. apply build_Ok in E. destruct E as [_ E].
  apply (every_node_impl (fun t => cap_ok t /\ doubled_from cap t)).
  { intros t [[Hc _] Hd]. split; [exact Hc | exact Hd]. }
  apply (insert_all_every _ (doubled_cap_ok_insert cap) _ _ _ _) with (2 := E).
  constructor; [|constructor]. split.
  - unfold cap_ok, obj_count. cbn. lia.
  - exists O. cbn. ring.
Qed.

(** Two coincident points in a root of capacity 1: the leaf at the end of
    the chain has capacity 2. *)
Lemma capacities_are_doublings_witness :
  exists qt rs,
    build (square 0 0 1) 1 coincident = Ok (qt, rs) /\
    every_node (fun t => 1 <= capacity t <= INT_MAX /\
                         exists k : nat, capacity t = 1 * 2 ^ Z.of_nat k) qt.
Proof.
  eexists. eexists. split; [vm_compute; reflexivity|].
  eapply (capacities_are_doublings (square 0 0 1) 1 coincident).
  - vm_compute. split; discriminate.
  - vm_compute. reflexivity.
Defined.

(** ** Subdivision *)

(** X15.  [QT_Subdivide] on a node whose buffer respects its capacity
    returns a node with four leaves as branches.  The buffer of branch [i],
    in the order north-west, south-west, north-east, south-east, lists in
    their old order the buffered objects for which quadrant [i] is the
    first one that contains the position; a position on a split line,
    contained in several quadrants, goes to the one that comes first.  An
    object is kept exactly when some quadrant contains its position; it is
    dropped when rounding leaves no such quadrant. *)
Theorem subdivide_routes_to_first_quadrant (qt : QuadTree) :
  0 <= capacity qt -> obj_count qt <= capacity qt ->
  exists nw sw ne se,
    QT_Subdivide qt
    = Ok (mkQuadTree (boundary qt) None (capacity qt) (depth qt) [nw; sw; ne; se]) /\
    map objects [nw; sw; ne; se]
    = map (fun i => Some (filter (lands (boundary qt) i) (buffer qt))) [0; 1; 2; 3]%nat /\
    Forall (fun c => QT_IsLeaf c = true) [nw; sw; ne; se] /\
    (forall o i,
        lands (boundary qt) i o = true <->
        exists q, nth_error (quadrants (boundary qt)) i = Some q /\
                  BoundaryContains q (obj_pos o) = true /\
                  forall k q', (k < i)%nat ->
                               nth_error (quadrants (boundary qt)) k = Some q' ->
                               BoundaryContains q' (obj_pos o) = false) /\
    (forall o,
        In o (all_objects nw ++ all_objects sw ++ all_objects ne ++ all_objects se) <->
        In o (buffer qt) /\
        existsb (fun q => BoundaryContains q (obj_pos o)) (quadrants (boundary qt))
        = true).
Proof.
  intros Hcap Hcnt. do 4 eexists.
  split; [exact (QT_Subdivide_result qt Hcap Hcnt)|].
  split; [reflexivity|]. split; [repeat constructor|]. split.
  - intros o i. rewrite lands_spec. apply first_match_spec.
  - intros o. cbn [all_objects leaf_with flat_map]. rewrite !app_nil_r.
    apply lands_keeps.
Qed.

(** The leaf that holds the centre of its square and a south-east point:
    the centre, on both split lines, goes north-west. *)
Lemma subdivide_routes_to_first_quadrant_witness :
  exists nw sw ne se,
    QT_Subdivide split_line_leaf
    = Ok (mkQuadTree (square 0 0 100) None 4 1 [nw; sw; ne; se]) /\
    map objects [nw; sw; ne; se]
    = [Some [obj_at 1 0 0]; Some []; Some []; Some [obj_at 2 10 10]].
Proof.
  destruct (subdivide_routes_to_first_quadrant split_line_leaf)
    as [nw [sw [ne [se [E [Hobj _]]]]]]; try (vm_compute; discriminate).
  exists nw, sw, ne, se. split; [exact E|]. rewrite Hobj. reflexivity.
Defined.

(** ** The size of reachable trees *)

(** X14.  However many objects are inserted into a fresh root whose
    capacity is a positive [int], the tree never has more than
    [1 + 4 * QT_MAX_DEPTH] = 41 nodes, and at every node at most one of the
    four branches has branches of its own: subdivision only ever happens
    along one chain.  Such a tree is built when four times the capacity
    plus the number of objects fits [int]. *)
Theorem reachable_tree_has_at_most_41_nodes
        (b : Boundary) (cap : Z) (objs : list QT_Object) :
  1 <= cap <= INT_MAX ->
  (forall qt rs,
      build b cap objs = Ok (qt, rs) ->
      (node_count qt <= 41)%nat /\
      every_node
        (fun t => (length (filter (fun c => negb (QT_IsLeaf c)) (branches t)) <= 1)%nat)
        qt) /\
  (4 * (cap + Z.of_nat (length objs)) <= INT_MAX ->
   exists qt rs, build b cap objs = Ok (qt, rs)).
Proof.
  intros Hcap. split; [|apply build_returns; lia].
  intros qt rs E. apply build_Ok in E. destruct E as [_ E].
  assert (Hbr : every_node branches_ok qt).
  { apply (insert_all_every branches_ok branches_ok_insert _ _ _ _) with (2 := E).
    constructor; [now left | constructor]. }
  assert (Hboth : every_node (fun t => cap_ok t /\ one_internal_branch t) qt).
  { apply (insert_all_every (fun t => cap_ok t /\ one_internal_branch t))
      with (3 := E).
    - intros n t o t' r Ht Et.
      assert (Hc : every_node cap_ok t)
        by (revert Ht; apply every_node_impl; tauto).
      assert (Ho : every_node one_internal_branch t)
        by (revert Ht; apply every_node_impl; tauto).
      apply every_node_and.
      + exact (cap_ok_insert _ _ _ _ _ Hc Et).
      + exact (one_internal_branch_insert _ _ _ _ _ Hc Ho Et).
    - constructor; [|constructor]. split.
      + unfold cap_ok, obj_count. cbn. lia.
      + unfold one_internal_branch. cbn. lia. }
  assert (Hone : every_node one_internal_branch qt)
    by (revert Hboth; apply every_node_impl; tauto).
  split; [|exact Hone].
  pose proof (node_count_bound qt Hone Hbr) as Hn.
  rewrite (proj2 (insert_all_frame _ _ _ _ E)) in Hn. cbn [depth new_root] in Hn.
  unfold QT_MAX_DEPTH in Hn. lia.
Qed.

(** Two coincident points in a root of capacity 1 build the longest chain:
    41 nodes. *)
Lemma reachable_tree_has_at_most_41_nodes_witness :
  exists qt rs,
    build (square 0 0 1) 1 coincident = Ok (qt, rs) /\
    (node_count qt <= 41)%nat.
Proof.
  destruct (reachable_tree_has_at_most_41_nodes (square 0 0 1) 1 coincident)
    as [Hsize Hret]; [vm_compute; split; discriminate|].
  destruct Hret as [qt [rs E]]; [vm_compute; discriminate|].
  exists qt, rs. split; [exact E | exact (proj1 (Hsize _ _ E))].
Defined.
